(** * DistributedLedger: the inventory and consensus engine, and the miner's Merkle root

    A shallow embedding of [inventory.mjs] (class [InventoryManager]) and of
    [getMerkleRoot] from [miner.mjs], with the properties of the node's
    specification stated over it.

    Conventions.
    - A JavaScript [Map] is a [gmap], a [Set] a [gset]; iteration order of
      these containers is never observed by the embedded code.
    - Strings are byte strings; hashes and identifiers are ASCII, so the
      JavaScript [<] on strings is the lexicographic order on bytes.
    - Heights, counts, nonces and timestamps are integers ([Z]).  Amounts
      and balances are JavaScript values ([JS.value]): an amount is
      whatever primitive [JSON.parse] delivered (absent, [null], a boolean, a
      number or a string), and arithmetic on numbers is that of IEEE 754
      binary64 (module [JS]).
    - A string property that is absent and one that is empty are both falsy;
      both are the empty string here.  [isGenesis] and [transactions] keep
      their absence ([None]), since the code branches on it.
    - [console.log] is dropped.  Flooding ([propagateBlock],
      [propagateTransaction]) is recorded as a message appended to the
      [propagated] log of the store; the peer table it walks belongs to
      [network.mjs]. *)

From Stdlib Require Import ZArith List Ascii String DecimalString Lia Bool SpecFloat.
From stdpp Require Import base option list gmap strings fin_maps fin_sets.

Local Open Scope string_scope.
Local Open Scope Z_scope.

(** ** SHA-256 (FIPS 180-4), the digest behind [crypto.createHash('sha256')] *)

Module SHA256.

Definition mask32 : Z := 0xffffffff.
Definition w32 (x : Z) : Z := Z.land x mask32.
Definition add32 (a b : Z) : Z := w32 (a + b).
Definition rotr (n x : Z) : Z := Z.lor (Z.shiftr x n) (w32 (Z.shiftl x (32 - n))).
Definition shr (n x : Z) : Z := Z.shiftr x n.
Definition not32 (x : Z) : Z := Z.lxor x mask32.

Definition Ch (x y z : Z) : Z := Z.lxor (Z.land x y) (Z.land (not32 x) z).
Definition Maj (x y z : Z) : Z :=
  Z.lxor (Z.lxor (Z.land x y) (Z.land x z)) (Z.land y z).
Definition Sigma0 (x : Z) : Z := Z.lxor (Z.lxor (rotr 2 x) (rotr 13 x)) (rotr 22 x).
Definition Sigma1 (x : Z) : Z := Z.lxor (Z.lxor (rotr 6 x) (rotr 11 x)) (rotr 25 x).
Definition sigma0 (x : Z) : Z := Z.lxor (Z.lxor (rotr 7 x) (rotr 18 x)) (shr 3 x).
Definition sigma1 (x : Z) : Z := Z.lxor (Z.lxor (rotr 17 x) (rotr 19 x)) (shr 10 x).

(** The round constants are the first 32 bits of the fractional parts of
    the cube roots of the first 64 primes; the initial hash value, of the
    square roots of the first 8. *)
Definition is_prime (n : nat) : bool :=
  List.forallb (fun d => negb (Nat.eqb (n mod d) 0)) (seq 2 (n - 2)).

Definition primes : list Z := Z.of_nat <$> List.filter is_prime (seq 2 310).

(** The greatest [x + k] with [(x + k)^3 <= n] and [k < 2^bits]. *)
Fixpoint cube_root (bits : nat) (n x : Z) : Z :=
  match bits with
  | O => x
  | S b =>
      let y := x + Z.shiftl 1 (Z.of_nat b) in
      cube_root b n (if y * y * y <=? n then y else x)
  end.

Definition K : list Z :=
  Eval vm_compute in
    (fun p => w32 (cube_root 40 (Z.shiftl p 96) 0)) <$> firstn 64 primes.

Definition H0 : list Z :=
  Eval vm_compute in
    (fun p => w32 (Z.sqrt (Z.shiftl p 64))) <$> firstn 8 primes.

(** Message bytes, then the bit 1, then zeros up to 56 mod 64, then the
    bit length as a big-endian 64-bit integer. *)
Definition bytes_of_string (s : string) : list Z :=
  (fun c => Z.of_nat (nat_of_ascii c)) <$> list_ascii_of_string s.

Definition be_bytes (n : nat) (x : Z) : list Z :=
  (fun i => Z.land (Z.shiftr x (8 * Z.of_nat i)) 0xff) <$> rev (seq 0 n).

Definition pad (msg : list Z) : list Z :=
  let len := Z.of_nat (length msg) in
  let zeros := Z.to_nat ((55 - len) mod 64) in
  msg ++ [0x80] ++ repeat 0 zeros ++ be_bytes 8 (8 * len).

Fixpoint words (bs : list Z) : list Z :=
  match bs with
  | a :: b :: c :: d :: r =>
      Z.lor (Z.shiftl a 24) (Z.lor (Z.shiftl b 16) (Z.lor (Z.shiftl c 8) d))
      :: words r
  | _ => []
  end.

(** The message schedule, kept newest first: [w] holds W[t-1], W[t-2], ... *)
Fixpoint schedule (n : nat) (w : list Z) : list Z :=
  match n with
  | O => w
  | S n' =>
      let wt := add32 (add32 (sigma1 (nth 1 w 0)) (nth 6 w 0))
                      (add32 (sigma0 (nth 14 w 0)) (nth 15 w 0)) in
      schedule n' (wt :: w)
  end.

Definition round (st : list Z) (kw : Z * Z) : list Z :=
  match st with
  | [a; b; c; d; e; f; g; h] =>
      let t1 := add32 (add32 (add32 h (Sigma1 e)) (add32 (Ch e f g) (fst kw))) (snd kw) in
      let t2 := add32 (Sigma0 a) (Maj a b c) in
      [add32 t1 t2; a; b; c; add32 d t1; e; f; g]
  | _ => st
  end.

Definition compress (hs : list Z) (block : list Z) : list Z :=
  let w := rev (schedule 48 (rev block)) in
  let st := fold_left round (combine K w) hs in
  (fun p => add32 (fst p) (snd p)) <$> combine hs st.

Fixpoint blocks16 (fuel : nat) (ws : list Z) : list (list Z) :=
  match fuel with
  | O => []
  | S f =>
      match ws with
      | [] => []
      | _ => firstn 16 ws :: blocks16 f (skipn 16 ws)
      end
  end.

Definition hexdigit (d : Z) : ascii :=
  ascii_of_nat (Z.to_nat (if d <? 10 then 48 + d else 87 + d)).

Definition hex32 (x : Z) : string :=
  string_of_list_ascii
    ((fun i => hexdigit (Z.land (Z.shiftr x (4 * Z.of_nat i)) 0xf)) <$> rev (seq 0 8)).

Definition digest_words (s : string) : list Z :=
  let ws := words (pad (bytes_of_string s)) in
  fold_left compress (blocks16 (length ws) ws) H0.

Definition hexdigest (s : string) : string :=
  fold_right String.append EmptyString (hex32 <$> digest_words s).

End SHA256.

Definition sha256 (data : string) : string := SHA256.hexdigest data.

(** ** [JSON.stringify] on the objects of the ledger

    Keys appear in the order in which the repository builds its objects
    (the transaction literals of the clients, [createGenesisBlock] and
    [mineBlock]); [JSON.parse] keeps that order on the receiving side. *)

Module JSON.

Definition dquote : ascii := ascii_of_nat 34.
Definition backslash : ascii := ascii_of_nat 92.
Definition quoted (s : string) : string := String dquote (s ++ String dquote EmptyString).

Definition hex4 (n : nat) : string :=
  let z := Z.of_nat n in
  String "0" (String "0" (String (SHA256.hexdigit (Z.shiftr z 4))
    (String (SHA256.hexdigit (Z.land z 15)) EmptyString))).

Definition escape (c : ascii) : string :=
  let n := nat_of_ascii c in
  if Nat.eqb n 34 then String backslash (String dquote EmptyString)
  else if Nat.eqb n 92 then String backslash (String backslash EmptyString)
  else if Nat.eqb n 8 then String backslash "b"
  else if Nat.eqb n 9 then String backslash "t"
  else if Nat.eqb n 10 then String backslash "n"
  else if Nat.eqb n 12 then String backslash "f"
  else if Nat.eqb n 13 then String backslash "r"
  else if Nat.ltb n 32 then String backslash (String "u" (hex4 n))
  else String c EmptyString.

Fixpoint escaped (s : string) : string :=
  match s with
  | EmptyString => EmptyString
  | String c r => escape c ++ escaped r
  end.

Definition str (s : string) : string := quoted (escaped s).
Definition num (z : Z) : string := NilZero.string_of_int (Z.to_int z).
Definition bool (b : bool) : string := if b then "true" else "false".
Definition member (k v : string) : string := quoted k ++ ":" ++ v.

Fixpoint joined (sep : string) (l : list string) : string :=
  match l with
  | [] => EmptyString
  | [x] => x
  | x :: r => x ++ sep ++ joined sep r
  end.

Definition object (members : list string) : string := "{" ++ joined "," members ++ "}".
Definition array (items : list string) : string := "[" ++ joined "," items ++ "]".

End JSON.

(** ** JavaScript values: the primitives that [JSON.parse] delivers, and
    the operators the ledger applies to amounts and balances *)

Module JS.

(** *** Numbers

    A finite double is a whole number of [2^-1074], the smallest positive
    double: [Fin u] stands for the double nearest to [u * 2^-1074], so every
    inhabitant is a double and every double an inhabitant.  The two zeros
    are one: no operator the program uses tells them apart. *)

Inductive number :=
  | NaN
  | Infinity (negative : bool)
  | Fin (units : Z).

Definition quantum : Z := Z.shiftl 1 1074.
Definition overflow : Z := Z.shiftl 1 (1024 + 1074).

(** Round to nearest, ties to even: the magnitude, in units, of the double
    nearest to [n / d] units.  Below [2^53] units the doubles are one unit
    apart; above, 53 significant bits are kept. *)
Definition nearestMagnitude (n d : Z) : Z :=
  let whole := n / d in
  let s := if whole <? 2 ^ 53 then 0 else Z.log2 whole - 52 in
  let step := d * 2 ^ s in
  let q := n / step in
  let r := n mod step in
  let q := if (step <? 2 * r) || ((2 * r =? step) && Z.odd q) then q + 1 else q in
  q * 2 ^ s.

Definition nearest (n d : Z) : number :=
  let m := nearestMagnitude (Z.abs n) d in
  if overflow <=? m then Infinity (n <? 0) else Fin (Z.sgn n * m).

Definition canon (x : number) : number :=
  match x with
  | Fin u => nearest u 1
  | _ => x
  end.

(** The double of an integer. *)
Definition int (z : Z) : number := nearest (z * quantum) 1.

Definition neg (x : number) : number :=
  match x with
  | NaN => NaN
  | Infinity s => Infinity (negb s)
  | Fin u => Fin (- u)
  end.

Definition add (x y : number) : number :=
  match canon x, canon y with
  | NaN, _ | _, NaN => NaN
  | Infinity s, Infinity t => if Bool.eqb s t then Infinity s else NaN
  | Infinity s, Fin _ => Infinity s
  | Fin _, Infinity t => Infinity t
  | Fin a, Fin b => nearest (a + b) 1
  end.

Definition sub (x y : number) : number := add x (neg y).

Definition ltb (x y : number) : bool :=
  match canon x, canon y with
  | NaN, _ | _, NaN => false
  | Infinity s, Infinity t => s && negb t
  | Infinity s, Fin _ => s
  | Fin _, Infinity t => negb t
  | Fin a, Fin b => a <? b
  end.

Definition leb (x y : number) : bool :=
  match canon x, canon y with
  | NaN, _ | _, NaN => false
  | _, _ => negb (ltb y x)
  end.

Definition nonzero (x : number) : bool :=
  match canon x with
  | NaN => false
  | Infinity _ => true
  | Fin u => negb (u =? 0)
  end.

(** The same numbers in the Standard Library's specification of IEEE 754. *)
Definition toSpecFloat (x : number) : spec_float :=
  match canon x with
  | NaN => S754_nan
  | Infinity s => S754_infinity s
  | Fin u => binary_normalize 53 1024 u (-1074) false
  end.

(** *** [Number::toString] *)

Definition decimal (z : Z) : string := JSON.num z.

Definition pow10 (e : Z) : Z := 10 ^ e.

(** The double nearest to [c * 10 ^ e]. *)
Definition nearestDecimal (c e : Z) : number :=
  if 0 <=? e then nearest (c * pow10 e * quantum) 1
  else nearest (c * quantum) (pow10 (- e)).

(** The [n] with [10 ^ (n - 1) <= x < 10 ^ n], for the double [x] of [u]
    units, [u] positive. *)
Fixpoint belowOne (fuel : nat) (u : Z) (j : Z) : Z :=
  match fuel with
  | O => j
  | S fuel' => if quantum <=? u * pow10 j then j else belowOne fuel' u (j + 1)
  end.

Definition magnitude (u : Z) : Z :=
  let whole := u / quantum in
  if 0 <? whole then Z.of_nat (String.length (decimal whole))
  else 1 - belowOne 400 u 1.

(** The two numbers of [k] digits next to [x], the nearer one first, the
    even one first when they are equally near. *)
Definition candidates (u n k : Z) : list Z :=
  let e := k - n in
  let num := if 0 <=? e then u * pow10 e else u in
  let den := if 0 <=? e then quantum else quantum * pow10 (- e) in
  let lo := num / den in
  let r := num mod den in
  if r =? 0 then [lo]
  else if 2 * r <? den then [lo; lo + 1]
  else if den <? 2 * r then [lo + 1; lo]
  else if Z.even lo then [lo; lo + 1] else [lo + 1; lo].

Definition roundTrips (u n k c : Z) : bool :=
  match nearestDecimal c (n - k) with
  | Fin v => v =? u
  | _ => false
  end.

(** The fewest digits that read back as the same double; 17 always do. *)
Fixpoint shortest (fuel : nat) (u n k : Z) : Z * Z :=
  match fuel with
  | O => (u, k)
  | S fuel' =>
      match List.filter (roundTrips u n k) (candidates u n k) with
      | c :: _ => (c, k)
      | [] => shortest fuel' u n (k + 1)
      end
  end.

Fixpoint zeros (n : nat) : string :=
  match n with
  | O => EmptyString
  | S n' => String "0" (zeros n')
  end.

Definition exponent (e : Z) : string :=
  (if e <? 0 then "e-" else "e+") ++ decimal (Z.abs e).

(** The text of the positive double of [u] units. *)
Definition positiveToString (u : Z) : string :=
  let n0 := magnitude u in
  let '(c, k) := shortest 17 u n0 1 in
  let '(s, n) := if c =? pow10 k then (pow10 (k - 1), n0 + 1) else (c, n0) in
  let digits := decimal s in
  let k := Z.of_nat (String.length digits) in
  if (k <=? n) && (n <=? 21) then digits ++ zeros (Z.to_nat (n - k))
  else if (0 <? n) && (n <=? 21) then
    substring 0 (Z.to_nat n) digits ++ "."
    ++ substring (Z.to_nat n) (Z.to_nat (k - n)) digits
  else if (-6 <? n) && (n <=? 0) then "0." ++ zeros (Z.to_nat (- n)) ++ digits
  else if k =? 1 then digits ++ exponent (n - 1)
  else substring 0 1 digits ++ "." ++ substring 1 (Z.to_nat (k - 1)) digits
       ++ exponent (n - 1).

Definition toString (x : number) : string :=
  match canon x with
  | NaN => "NaN"
  | Infinity s => if s then "-Infinity" else "Infinity"
  | Fin u =>
      if u =? 0 then "0"
      else if u <? 0 then "-" ++ positiveToString (- u)
      else positiveToString u
  end.

(** *** [StringToNumber] *)

Definition bytes (s : string) : list Z :=
  List.map (fun c => Z.of_nat (nat_of_ascii c)) (list_ascii_of_string s).

(** White space and line terminators of the language, in UTF-8. *)
Definition whiteSpace : list (list Z) :=
  [ [9]; [10]; [11]; [12]; [13]; [32]; [194; 160]; [225; 154; 128];
    [226; 128; 128]; [226; 128; 129]; [226; 128; 130]; [226; 128; 131];
    [226; 128; 132]; [226; 128; 133]; [226; 128; 134]; [226; 128; 135];
    [226; 128; 136]; [226; 128; 137]; [226; 128; 138]; [226; 128; 168];
    [226; 128; 169]; [226; 128; 175]; [226; 129; 159]; [227; 128; 128];
    [239; 187; 191] ].

Fixpoint startsWith (p l : list Z) : option (list Z) :=
  match p, l with
  | [], _ => Some l
  | a :: p', b :: l' => if a =? b then startsWith p' l' else None
  | _ :: _, [] => None
  end.

Fixpoint afterWhiteSpace (ps : list (list Z)) (l : list Z) : option (list Z) :=
  match ps with
  | [] => None
  | p :: rest =>
      match startsWith p l with
      | Some r => Some r
      | None => afterWhiteSpace rest l
      end
  end.

Fixpoint trimLeft (fuel : nat) (l : list Z) : list Z :=
  match fuel with
  | O => l
  | S fuel' =>
      match afterWhiteSpace whiteSpace l with
      | Some rest => trimLeft fuel' rest
      | None => l
      end
  end.

Definition trim (l : list Z) : list Z :=
  let l := trimLeft (List.length l) l in
  rev (trimLeft (List.length l) (rev l)).

Definition digitValue (radix c : Z) : option Z :=
  let v :=
    if (48 <=? c) && (c <=? 57) then c - 48
    else if (97 <=? c) && (c <=? 122) then c - 87
    else if (65 <=? c) && (c <=? 90) then c - 55
    else radix in
  if v <? radix then Some v else None.

(** The digits at the front of [l]: their value, their number, the rest. *)
Fixpoint digits (radix : Z) (l : list Z) (acc : Z) (count : Z) : Z * Z * list Z :=
  match l with
  | c :: rest =>
      match digitValue radix c with
      | Some v => digits radix rest (acc * radix + v) (count + 1)
      | None => (acc, count, l)
      end
  | [] => (acc, count, l)
  end.

Definition nonDecimal (radix : Z) (l : list Z) : number :=
  let '(v, count, rest) := digits radix l 0 0 in
  match rest with
  | [] => if 0 <? count then nearest (v * quantum) 1 else NaN
  | _ => NaN
  end.

(** [e], [E], an optional sign and at least one digit; nothing may follow. *)
Definition exponentPart (l : list Z) : option Z :=
  match l with
  | [] => Some 0
  | c :: rest =>
      if (c =? 101) || (c =? 69) then
        let '(negative, rest) :=
          match rest with
          | 45 :: rest' => (true, rest')
          | 43 :: rest' => (false, rest')
          | _ => (false, rest)
          end in
        let '(v, count, rest) := digits 10 rest 0 0 in
        match rest with
        | [] => if 0 <? count then Some (if negative then - v else v) else None
        | _ => None
        end
      else None
  end.

(** [Infinity], or digits with an optional point and exponent.  A literal
    far outside the range of the doubles is settled by its size. *)
Definition decimalLiteral (negative : bool) (l : list Z) : number :=
  if bool_decide (l = bytes "Infinity") then Infinity negative
  else
    let '(whole, wholeCount, rest) := digits 10 l 0 0 in
    let '(mantissa, fractionCount, rest) :=
      match rest with
      | 46 :: rest' => digits 10 rest' whole 0
      | _ => (whole, 0, rest)
      end in
    if wholeCount + fractionCount =? 0 then NaN
    else
      match exponentPart rest with
      | None => NaN
      | Some e =>
          if mantissa =? 0 then Fin 0
          else
            let e := e - fractionCount in
            let size := e + Z.of_nat (String.length (decimal mantissa)) in
            if 400 <? size then Infinity negative
            else if size <? -400 then Fin 0
            else
              let x := nearestDecimal mantissa e in
              if negative then neg x else x
      end.

Definition parse (s : string) : number :=
  match trim (bytes s) with
  | [] => Fin 0
  | 48 :: 120 :: rest | 48 :: 88 :: rest => nonDecimal 16 rest
  | 48 :: 111 :: rest | 48 :: 79 :: rest => nonDecimal 8 rest
  | 48 :: 98 :: rest | 48 :: 66 :: rest => nonDecimal 2 rest
  | 45 :: rest => decimalLiteral true rest
  | 43 :: rest => decimalLiteral false rest
  | l => decimalLiteral false l
  end.

(** *** Values and operators *)

(** [Undefined] is a property that is absent. *)
Inductive value :=
  | Undefined
  | Null
  | Bool (b : bool)
  | Num (x : number)
  | Str (s : string).

Definition zero : value := Num (Fin 0).
Definition of_Z (z : Z) : value := Num (int z).

(** [!!v] *)
Definition truthy (v : value) : bool :=
  match v with
  | Undefined | Null => false
  | Bool b => b
  | Num x => nonzero x
  | Str s => match s with EmptyString => false | _ => true end
  end.

Definition toNumber (v : value) : number :=
  match v with
  | Undefined => NaN
  | Null => Fin 0
  | Bool b => if b then int 1 else Fin 0
  | Num x => x
  | Str s => parse s
  end.

Definition toStringValue (v : value) : string :=
  match v with
  | Undefined => "undefined"
  | Null => "null"
  | Bool b => if b then "true" else "false"
  | Num x => toString x
  | Str s => s
  end.

(** [a + b]: concatenation as soon as one side is a string. *)
Definition plus (a b : value) : value :=
  match a, b with
  | Str _, _ | _, Str _ => Str (toStringValue a ++ toStringValue b)
  | _, _ => Num (add (toNumber a) (toNumber b))
  end.

(** [a - b] *)
Definition minus (a b : value) : value := Num (sub (toNumber a) (toNumber b)).

(** [a < b] and [a <= b]: two strings are compared as strings, anything
    else as numbers, and a comparison with [NaN] is false. *)
Definition lt (a b : value) : bool :=
  match a, b with
  | Str s, Str t => String.ltb s t
  | _, _ => ltb (toNumber a) (toNumber b)
  end.

Definition le (a b : value) : bool :=
  match a, b with
  | Str s, Str t => negb (String.ltb t s)
  | _, _ => leb (toNumber a) (toNumber b)
  end.

(** [JSON.stringify] of a value; an absent property is left out, and a
    number that is not finite prints as [null]. *)
Definition json (v : value) : option string :=
  match v with
  | Undefined => None
  | Null => Some "null"
  | Bool b => Some (JSON.bool b)
  | Num x =>
      Some match canon x with
           | Fin _ => toString x
           | _ => "null"
           end
  | Str s => Some (JSON.str s)
  end.

(** *** Exact values

    The value of a finite number, in units of [2^-1074]; and whether a
    difference or a sum was computed without rounding. *)
Definition units (v : value) : option Z :=
  match v with
  | Num x => match canon x with Fin u => Some u | _ => None end
  | _ => None
  end.

Definition exactDifference (a b : value) : bool :=
  match units a, units b, units (minus a b) with
  | Some x, Some y, Some z => z =? x - y
  | _, _, _ => false
  end.

Definition exactSum (a b : value) : bool :=
  match units a, units b, units (plus a b) with
  | Some x, Some y, Some z => z =? x + y
  | _, _, _ => false
  end.

End JS.

(** ** Data model *)

(** [{ id, sender, receiver, amount, timestamp: Date.now() }] *)
Module Tx.
Record t := mk {
  id : string;
  sender : string;
  receiver : string;
  amount : JS.value;
  timestamp : Z
}.

Definition stringify (tx : t) : string :=
  JSON.object
    ( [ JSON.member "id" (JSON.str (id tx));
        JSON.member "sender" (JSON.str (sender tx));
        JSON.member "receiver" (JSON.str (receiver tx)) ]
      ++ match JS.json (amount tx) with
         | Some text => [ JSON.member "amount" text ]
         | None => []
         end
      ++ [ JSON.member "timestamp" (JSON.num (timestamp tx)) ] ).
End Tx.

(** A block.  [mineBlock] builds blocks without the [isGenesis] key;
    [createGenesisBlock] puts it first. *)
Module Block.
Record t := mk {
  isGenesis : option bool;
  previousHash : string;
  timestamp : string;
  nonce : string;
  creator : string;
  merkleRoot : string;
  count : Z;
  transactions : option (list Tx.t);
  hash : string
}.

Definition with_hash (h : string) (b : t) : t :=
  mk (isGenesis b) (previousHash b) (timestamp b) (nonce b) (creator b)
     (merkleRoot b) (count b) (transactions b) h.

(** [const { hash, ...blockWithoutHash } = block; JSON.stringify(blockWithoutHash)] *)
Definition stringifyWithoutHash (b : t) : string :=
  JSON.object
    ( match isGenesis b with
      | Some g => [ JSON.member "isGenesis" (JSON.bool g) ]
      | None => []
      end
      ++ [ JSON.member "previousHash" (JSON.str (previousHash b));
           JSON.member "timestamp" (JSON.str (timestamp b));
           JSON.member "nonce" (JSON.str (nonce b));
           JSON.member "creator" (JSON.str (creator b));
           JSON.member "merkleRoot" (JSON.str (merkleRoot b));
           JSON.member "count" (JSON.num (count b)) ]
      ++ match transactions b with
         | Some txs => [ JSON.member "transactions" (JSON.array (Tx.stringify <$> txs)) ]
         | None => []
         end ).
End Block.

(** JavaScript truthiness of a string, of an optional flag and of an integer. *)
Definition truthy (s : string) : bool :=
  match s with EmptyString => false | _ => true end.

Definition flag (o : option bool) : bool := default false o.

Definition nonzero (z : Z) : bool := negb (z =? 0).

(** [m.get(k) || 0] on the heights, which are integers, and on the
    balances, which hold whatever the arithmetic produced. *)
Definition getOr0 (m : gmap string Z) (k : string) : Z := default 0 (m !! k).

Definition balanceOr0 (m : gmap string JS.value) (k : string) : JS.value :=
  match m !! k with
  | Some v => if JS.truthy v then v else JS.zero
  | None => JS.zero
  end.

(** [s.has(k)], [m.has(k)] *)
Definition has (s : gset string) (k : string) : bool := bool_decide (k ∈ s).
Definition mhas {A} (m : gmap string A) (k : string) : bool := bool_decide (is_Some (m !! k)).

(** ** The store: [class InventoryManager] *)

Inductive Message :=
  | BlockMsg (b : Block.t)
  | TxMsg (tx : Tx.t).

Record InventoryManager := mkInventory {
  blocks : gmap string Block.t;
  transactions : gmap string Tx.t;
  seenMessages : gset string;
  balances : gmap string JS.value;
  genesisCreated : bool;
  blockchainHead : option string;
  blockHeights : gmap string Z;
  propagated : list Message
}.

(** [constructor()] *)
Definition newInventory : InventoryManager :=
  mkInventory ∅ ∅ ∅ ∅ false None ∅ [].

Definition set_blocks (v : gmap string Block.t) (st : InventoryManager) :=
  mkInventory v (transactions st) (seenMessages st) (balances st)
    (genesisCreated st) (blockchainHead st) (blockHeights st) (propagated st).
Definition set_transactions (v : gmap string Tx.t) (st : InventoryManager) :=
  mkInventory (blocks st) v (seenMessages st) (balances st)
    (genesisCreated st) (blockchainHead st) (blockHeights st) (propagated st).
Definition set_seenMessages (v : gset string) (st : InventoryManager) :=
  mkInventory (blocks st) (transactions st) v (balances st)
    (genesisCreated st) (blockchainHead st) (blockHeights st) (propagated st).
Definition set_balances (v : gmap string JS.value) (st : InventoryManager) :=
  mkInventory (blocks st) (transactions st) (seenMessages st) v
    (genesisCreated st) (blockchainHead st) (blockHeights st) (propagated st).
Definition set_genesisCreated (v : bool) (st : InventoryManager) :=
  mkInventory (blocks st) (transactions st) (seenMessages st) (balances st)
    v (blockchainHead st) (blockHeights st) (propagated st).
Definition set_blockchainHead (v : option string) (st : InventoryManager) :=
  mkInventory (blocks st) (transactions st) (seenMessages st) (balances st)
    (genesisCreated st) v (blockHeights st) (propagated st).
Definition set_blockHeights (v : gmap string Z) (st : InventoryManager) :=
  mkInventory (blocks st) (transactions st) (seenMessages st) (balances st)
    (genesisCreated st) (blockchainHead st) v (propagated st).

(** [propagateBlock], [propagateTransaction]: the message is sent to every
    active peer; the store itself is not touched. *)
Definition propagateBlock (b : Block.t) (st : InventoryManager) :=
  mkInventory (blocks st) (transactions st) (seenMessages st) (balances st)
    (genesisCreated st) (blockchainHead st) (blockHeights st)
    (propagated st ++ [BlockMsg b]).
Definition propagateTransaction (tx : Tx.t) (st : InventoryManager) :=
  mkInventory (blocks st) (transactions st) (seenMessages st) (balances st)
    (genesisCreated st) (blockchainHead st) (blockHeights st)
    (propagated st ++ [TxMsg tx]).

(** [!this.blockchainHead] is false exactly when the head is a non-empty string. *)
Definition headOf (st : InventoryManager) : string := default EmptyString (blockchainHead st).

Definition zeroHash : string :=
  "0000000000000000000000000000000000000000000000000000000000000000".

(** [calculateBlockHash(block)]: the serialization without the [hash] key,
    followed by [block.nonce || "0"]. *)
Definition calculateBlockHash (block : Block.t) : string :=
  let blockString := Block.stringifyWithoutHash block in
  let nonce := if truthy (Block.nonce block) then Block.nonce block else "0" in
  sha256 (blockString ++ nonce).

(** [createGenesisBlock(nodeId)]; [now] is [new Date().toISOString()]. *)
Definition createGenesisBlock (nodeId now : string) (st : InventoryManager)
  : InventoryManager * option Block.t :=
  if genesisCreated st || (0 <? size (blocks st))%nat then (st, None)
  else
    let initialBalance := JS.of_Z 100 in
    let genesisBlock :=
      Block.mk (Some true) zeroHash now "0" nodeId EmptyString 0 (Some []) EmptyString in
    let genesisHash := calculateBlockHash genesisBlock in
    let genesisBlock := Block.with_hash genesisHash genesisBlock in
    let st := set_blocks (<[genesisHash := genesisBlock]> (blocks st)) st in
    let st := set_seenMessages ({[genesisHash]} ∪ seenMessages st) st in
    let st := set_genesisCreated true st in
    let st := set_blockHeights (<[genesisHash := 0]> (blockHeights st)) st in
    let st := set_blockchainHead (Some genesisHash) st in
    let st := set_balances (<[nodeId := initialBalance]> (balances st)) st in
    (st, Some genesisBlock).

(** [validateBlockStructure(block, calculatedHash)]: the difficulty is the
    literal prefix ['0000']; an unknown parent is accepted. *)
Definition validateBlockStructure (block : Block.t) (calculatedHash : string)
    (st : InventoryManager) : bool :=
  let hashMeetsDifficulty := String.prefix "0000" calculatedHash in
  if negb hashMeetsDifficulty then false
  else
    let previousBlockExists := mhas (blocks st) (Block.previousHash block) in
    if negb previousBlockExists then true
    else true.

(** The loop of [validateBlockTransactions] over the shadow copy. *)
Fixpoint validateTxs (tempBalances : gmap string JS.value) (txs : list Tx.t) : bool :=
  match txs with
  | [] => true
  | tx :: rest =>
      if negb (truthy (Tx.id tx)) || negb (truthy (Tx.sender tx))
         || negb (truthy (Tx.receiver tx)) || negb (JS.truthy (Tx.amount tx))
         || JS.le (Tx.amount tx) JS.zero
      then false
      else
        let senderBalance := balanceOr0 tempBalances (Tx.sender tx) in
        if JS.lt senderBalance (Tx.amount tx) then false
        else
          let tempBalances :=
            <[Tx.sender tx := JS.minus senderBalance (Tx.amount tx)]> tempBalances in
          let receiverBalance := balanceOr0 tempBalances (Tx.receiver tx) in
          let tempBalances :=
            <[Tx.receiver tx := JS.plus receiverBalance (Tx.amount tx)]> tempBalances in
          validateTxs tempBalances rest
  end.

Definition validateBlockTransactions (txs : list Tx.t) (st : InventoryManager) : bool :=
  validateTxs (balances st) txs.

(** One iteration of the loop of [processBlockTransactions]. *)
Definition processTx (st : InventoryManager) (tx : Tx.t) : InventoryManager :=
  if negb (truthy (Tx.sender tx)) || negb (truthy (Tx.receiver tx))
     || negb (JS.truthy (Tx.amount tx))
  then st
  else
    let senderBalance := balanceOr0 (balances st) (Tx.sender tx) in
    let newSenderBalance := JS.minus senderBalance (Tx.amount tx) in
    let st := set_balances (<[Tx.sender tx := newSenderBalance]> (balances st)) st in
    let receiverBalance := balanceOr0 (balances st) (Tx.receiver tx) in
    let newReceiverBalance := JS.plus receiverBalance (Tx.amount tx) in
    let st := set_balances (<[Tx.receiver tx := newReceiverBalance]> (balances st)) st in
    if truthy (Tx.id tx) && mhas (transactions st) (Tx.id tx)
    then set_transactions (delete (Tx.id tx) (transactions st)) st
    else st.

(** [processBlockTransactions(transactions)] on an array. *)
Definition processBlockTransactions (txs : list Tx.t) (st : InventoryManager)
  : InventoryManager :=
  fold_left processTx txs st.

(** One iteration of the inner roll-back loop of
    [handleChainReorganization]: both balances are read, then both written. *)
Definition rollbackTx (st : InventoryManager) (tx : Tx.t) : InventoryManager :=
  if truthy (Tx.sender tx) && truthy (Tx.receiver tx) && JS.truthy (Tx.amount tx)
  then
    let senderBalance := balanceOr0 (balances st) (Tx.sender tx) in
    let receiverBalance := balanceOr0 (balances st) (Tx.receiver tx) in
    let newSenderBalance := JS.plus senderBalance (Tx.amount tx) in
    let st := set_balances (<[Tx.sender tx := newSenderBalance]> (balances st)) st in
    let newReceiverBalance := JS.minus receiverBalance (Tx.amount tx) in
    set_balances (<[Tx.receiver tx := newReceiverBalance]> (balances st)) st
  else st.

(** [getChainToBlock(blockHash)]: at most [maxIterations] steps towards the
    genesis block, each hash put in front of [chain]. *)
Fixpoint chainLoop (maxIterations : nat) (bs : gmap string Block.t)
    (currentHash : string) (chain : list string) : list string :=
  match maxIterations with
  | O => chain
  | S n =>
      if negb (truthy currentHash) then chain
      else
        match bs !! currentHash with
        | None => chain
        | Some block =>
            let chain := currentHash :: chain in
            if flag (Block.isGenesis block) then chain
            else chainLoop n bs (Block.previousHash block) chain
        end
  end.

Definition getChainToBlock (blockHash : string) (st : InventoryManager) : list string :=
  chainLoop 1000 (blocks st) blockHash [].

(** The [while] loop that advances [commonAncestorIndex]. *)
Fixpoint commonAncestorIndex (oldChain newChain : list string) : nat :=
  match oldChain, newChain with
  | o :: oldChain', n :: newChain' =>
      if String.eqb o n then S (commonAncestorIndex oldChain' newChain') else O
  | _, _ => O
  end.

(** Body of the roll-back loop for one block hash. *)
Definition rollbackBlock (st : InventoryManager) (blockHash : string) : InventoryManager :=
  match blocks st !! blockHash with
  | Some block =>
      match Block.transactions block with
      | Some txs => fold_left rollbackTx txs st
      | None => st
      end
  | None => st
  end.

(** Body of the re-apply loop for one block hash. *)
Definition applyBlock (st : InventoryManager) (blockHash : string) : InventoryManager :=
  match blocks st !! blockHash with
  | Some block =>
      match Block.transactions block with
      | Some txs => processBlockTransactions txs st
      | None => st
      end
  | None => st
  end.

(** [handleChainReorganization(oldHead, newHead)]: the two slices, then
    the two loops. *)
Definition blocksToRollback (oldHead newHead : string) (st : InventoryManager)
  : list string :=
  let oldChain := getChainToBlock oldHead st in
  let newChain := getChainToBlock newHead st in
  rev (drop (commonAncestorIndex oldChain newChain) oldChain).

Definition blocksToApply (oldHead newHead : string) (st : InventoryManager)
  : list string :=
  let oldChain := getChainToBlock oldHead st in
  let newChain := getChainToBlock newHead st in
  drop (commonAncestorIndex oldChain newChain) newChain.

Definition rollbackChain (oldHead newHead : string) (st : InventoryManager)
  : InventoryManager :=
  fold_left rollbackBlock (blocksToRollback oldHead newHead st) st.

Definition handleChainReorganization (oldHead newHead : string) (st : InventoryManager)
  : InventoryManager :=
  let toApply := blocksToApply oldHead newHead st in
  let st := rollbackChain oldHead newHead st in
  fold_left applyBlock toApply st.

(** [applyConsensusRules(newBlockHash, newBlock)]; the loop that prints the
    path to genesis has no effect on the store. *)
Definition applyConsensusRules (newBlockHash : string) (st : InventoryManager)
  : InventoryManager * bool :=
  if negb (truthy (headOf st)) then
    (set_blockchainHead (Some newBlockHash) st, true)
  else
    let currentHeadHeight := getOr0 (blockHeights st) (headOf st) in
    let newBlockHeight := getOr0 (blockHeights st) newBlockHash in
    if currentHeadHeight <? newBlockHeight then
      let st := handleChainReorganization (headOf st) newBlockHash st in
      (set_blockchainHead (Some newBlockHash) st, true)
    else if (newBlockHeight =? currentHeadHeight) && String.ltb newBlockHash (headOf st) then
      let st := handleChainReorganization (headOf st) newBlockHash st in
      (set_blockchainHead (Some newBlockHash) st, true)
    else (st, false).

(** [this.blockHeights.get(block.previousHash) || -1], then the two branches
    of the height assignment. *)
Definition assignedHeight (previousHash : string) (st : InventoryManager) : Z :=
  let prevBlockHeight :=
    match blockHeights st !! previousHash with
    | Some h => if nonzero h then h else -1
    | None => -1
    end in
  if prevBlockHeight =? -1 then 1 else prevBlockHeight + 1.

(** [addBlock(block)] *)
Definition addBlock (block : Block.t) (st : InventoryManager) : InventoryManager * bool :=
  let originalBlockHash := Block.hash block in
  let calculatedHash := calculateBlockHash block in
  let blockHash := if truthy originalBlockHash then originalBlockHash else calculatedHash in
  if has (seenMessages st) blockHash || has (seenMessages st) calculatedHash then (st, false)
  else if flag (Block.isGenesis block) then
    let blockWithHash := Block.with_hash blockHash block in
    let st := set_blocks (<[blockHash := blockWithHash]> (blocks st)) st in
    let st := set_seenMessages ({[blockHash]} ∪ seenMessages st) st in
    let st := set_genesisCreated true st in
    let st := set_blockHeights (<[blockHash := 0]> (blockHeights st)) st in
    let st := set_blockchainHead (Some blockHash) st in
    let st :=
      if truthy (Block.creator block)
      then set_balances (<[Block.creator block := JS.of_Z 100]> (balances st)) st
      else st in
    (propagateBlock blockWithHash st, true)
  else if negb (validateBlockStructure block calculatedHash st) then (st, false)
  else
    match Block.transactions block with
    | Some txs =>
        if negb (validateBlockTransactions txs st) then (st, false)
        else
          let blockWithHash := Block.with_hash blockHash block in
          let st := set_blocks (<[blockHash := blockWithHash]> (blocks st)) st in
          let st := set_seenMessages ({[blockHash]} ∪ seenMessages st) st in
          let h := assignedHeight (Block.previousHash block) st in
          let st := set_blockHeights (<[blockHash := h]> (blockHeights st)) st in
          let st := processBlockTransactions txs st in
          let st := fst (applyConsensusRules blockHash st) in
          (propagateBlock blockWithHash st, true)
    | None => (st, false)
    end.

(** [validateTransaction(tx)] *)
Definition validateTransaction (tx : Tx.t) (st : InventoryManager) : bool :=
  if negb (truthy (Tx.sender tx)) || negb (truthy (Tx.receiver tx))
     || negb (JS.truthy (Tx.amount tx)) || JS.le (Tx.amount tx) JS.zero
  then false
  else
    let senderBalance := balanceOr0 (balances st) (Tx.sender tx) in
    if JS.lt senderBalance (Tx.amount tx) then false
    else true.

(** [addTransaction(tx)] *)
Definition addTransaction (tx : Tx.t) (st : InventoryManager) : InventoryManager * bool :=
  if has (seenMessages st) (Tx.id tx) then (st, false)
  else if negb (validateTransaction tx st) then (st, false)
  else
    let st := set_transactions (<[Tx.id tx := tx]> (transactions st)) st in
    let st := set_seenMessages ({[Tx.id tx]} ∪ seenMessages st) st in
    (propagateTransaction tx st, true).

(** [syncInventoryWithPeers()], the part that writes to the store.  The
    peer's answers are the inputs: the transactions of its [/inventory]
    and, for a block hash it lists, the array its [/getblocks?hash=]
    returned ([None] when the request failed). *)
Definition syncTransaction (st : InventoryManager) (tx : Tx.t) : InventoryManager :=
  if truthy (Tx.id tx) && negb (has (seenMessages st) (Tx.id tx)) then
    let st := set_transactions (<[Tx.id tx := tx]> (transactions st)) st in
    set_seenMessages ({[Tx.id tx]} ∪ seenMessages st) st
  else st.

Definition syncBlock (st : InventoryManager) (block : Block.t) : InventoryManager :=
  if negb (has (seenMessages st) (Block.hash block)) then
    let st := set_blocks (<[Block.hash block := block]> (blocks st)) st in
    set_seenMessages ({[Block.hash block]} ∪ seenMessages st) st
  else st.

Definition syncBlockId (st : InventoryManager) (answer : string * option (list Block.t))
  : InventoryManager :=
  let blockId := fst answer in
  if negb (mhas (blocks st) blockId) && negb (has (seenMessages st) blockId) then
    match snd answer with
    | Some bs => fold_left syncBlock bs st
    | None => st
    end
  else st.

Definition syncWithPeer (txs : list Tx.t) (answers : list (string * option (list Block.t)))
    (st : InventoryManager) : InventoryManager :=
  let st := fold_left syncTransaction txs st in
  fold_left syncBlockId answers st.

(** [handleInventorySync(syncData)]: blocks, then transactions, each through
    the validating entry point. *)
Definition handleInventorySync (bs : list Block.t) (txs : list Tx.t) (st : InventoryManager)
  : InventoryManager * (nat * nat) :=
  let '(st, addedBlocks) :=
    fold_left (fun acc b =>
                 let '(st', ok) := addBlock b (fst acc) in
                 (st', if ok then S (snd acc) else snd acc)) bs (st, O) in
  let '(st, addedTransactions) :=
    fold_left (fun acc tx =>
                 let '(st', ok) := addTransaction tx (fst acc) in
                 (st', if ok then S (snd acc) else snd acc)) txs (st, O) in
  (st, (addedBlocks, addedTransactions)).

(** ** The miner's Merkle root: [getMerkleRoot] in [miner.mjs] *)

Local Open Scope list_scope.

(** [a[i]] as an operand of [+]: a missing element prints as [undefined]. *)
Definition at_index (a : list string) (i : nat) : string := default "undefined" (a !! i).

(** [for (let i = 0; i < allTxsHashes.length; i += 2)]; the trip count is
    bounded by the length, which is the fuel. *)
Fixpoint pairLoop (fuel : nat) (allTxsHashes : list string) (i : nat)
    (newHashes : list string) : list string :=
  match fuel with
  | O => newHashes
  | S fuel' =>
      if (i <? length allTxsHashes)%nat then
        let combined :=
          (at_index allTxsHashes i ++ at_index allTxsHashes (i + 1))%string in
        pairLoop fuel' allTxsHashes (i + 2) (newHashes ++ [sha256 combined])
      else newHashes
  end.

(** One iteration of [while (allTxsHashes.length > 1)]. *)
Definition merkleStep (allTxsHashes : list string) : list string :=
  let allTxsHashes :=
    if negb (Nat.eqb (length allTxsHashes mod 2) 0)
    then allTxsHashes ++ [at_index allTxsHashes (length allTxsHashes - 1)]
    else allTxsHashes in
  pairLoop (length allTxsHashes) allTxsHashes 0 [].

(** The [while] loop; [None] when the fuel runs out before one hash is left. *)
Fixpoint merkleLoop (fuel : nat) (allTxsHashes : list string) : option (list string) :=
  if (1 <? length allTxsHashes)%nat then
    match fuel with
    | O => None
    | S fuel' => merkleLoop fuel' (merkleStep allTxsHashes)
    end
  else Some allTxsHashes.

(** [getMerkleRoot(transactions)]; a level of [n] hashes is reduced to one
    in fewer than [n] iterations. *)
Definition getMerkleRoot (txs : list Tx.t) : option string :=
  if Nat.eqb (length txs) 0 then Some EmptyString
  else
    let allTxsHashes := (fun tx => sha256 (Tx.stringify tx)) <$> txs in
    match merkleLoop (length allTxsHashes) allTxsHashes with
    | Some hs => Some (at_index hs 0)
    | None => None
    end.

(** The Merkle root in the words of the specification: hash each
    transaction into a level of leaves; while more than one element, if odd,
    duplicate the last; pair adjacent and hash their concatenation; the
    final element is the root. *)
Definition leaves (txs : list Tx.t) : list string :=
  (fun tx => sha256 (Tx.stringify tx)) <$> txs.

Definition duplicateLastIfOdd (level : list string) : list string :=
  if Nat.odd (length level) then level ++ [List.last level EmptyString] else level.

Fixpoint pairAdjacent (level : list string) : list string :=
  match level with
  | a :: b :: rest => sha256 (a ++ b)%string :: pairAdjacent rest
  | _ => []
  end.

Inductive MerkleRoot : list string -> string -> Prop :=
  | MerkleRoot_final (h : string) : MerkleRoot [h] h
  | MerkleRoot_level (level : list string) (root : string) :
      (1 < length level)%nat ->
      MerkleRoot (pairAdjacent (duplicateLastIfOdd level)) root ->
      MerkleRoot level root.

(** ** Histories of a store *)

Inductive Op :=
  | CreateGenesis (nodeId now : string)
  | AddBlock (b : Block.t)
  | AddTransaction (tx : Tx.t)
  | Sync (txs : list Tx.t) (answers : list (string * option (list Block.t))).

Definition step (st : InventoryManager) (op : Op) : InventoryManager :=
  match op with
  | CreateGenesis nodeId now => fst (createGenesisBlock nodeId now st)
  | AddBlock b => fst (addBlock b st)
  | AddTransaction tx => fst (addTransaction tx st)
  | Sync txs answers => syncWithPeer txs answers st
  end.

Definition exec (ops : list Op) (st : InventoryManager) : InventoryManager :=
  fold_left step ops st.

Definition reachable (st : InventoryManager) : Prop :=
  exists ops, exec ops newInventory = st.

(** Amounts of coins as exact values: a coin is [JS.quantum] units, and a
    value that is not a finite number counts as nothing. *)
Definition coins (z : Z) : Z := z * JS.quantum.

Definition unitsOf (v : JS.value) : Z := default 0 (JS.units v).

(** The sum over [balances], in units. *)
Definition balanceSum (m : gmap string JS.value) : Z :=
  map_fold (fun _ v acc => unitsOf v + acc) 0 m.

(** Every balance is a finite number. *)
Definition numeric (m : gmap string JS.value) : Prop :=
  forall k v, m !! k = Some v -> is_Some (JS.units v).

(** Whether an operation makes the store accept a genesis block. *)
Definition acceptsGenesis (st : InventoryManager) (op : Op) : bool :=
  match op with
  | CreateGenesis nodeId now =>
      match snd (createGenesisBlock nodeId now st) with Some _ => true | None => false end
  | AddBlock b => flag (Block.isGenesis b) && snd (addBlock b st)
  | _ => false
  end.

Fixpoint genesisCount (ops : list Op) (st : InventoryManager) : nat :=
  match ops with
  | [] => O
  | op :: rest =>
      ((if acceptsGenesis st op then 1 else 0) + genesisCount rest (step st op))%nat
  end.

(** The identity under which [addBlock] files a block:
    [originalBlockHash || calculatedHash]. *)
Definition blockId (b : Block.t) : string :=
  if truthy (Block.hash b) then Block.hash b else calculateBlockHash b.

(** The transactions stored under a hash, and those of a list of hashes. *)
Definition txsOf (st : InventoryManager) (h : string) : list Tx.t :=
  match blocks st !! h with
  | Some b => default [] (Block.transactions b)
  | None => []
  end.

Definition txsOfChain (st : InventoryManager) (hs : list string) : list Tx.t :=
  concat (txsOf st <$> hs).

(** A transaction that both balance loops act on, and one that moves coins
    between two distinct accounts. *)
Definition effective (tx : Tx.t) : bool :=
  truthy (Tx.sender tx) && truthy (Tx.receiver tx) && JS.truthy (Tx.amount tx).

Definition selfTransfer (tx : Tx.t) : bool := String.eqb (Tx.sender tx) (Tx.receiver tx).

Definition noSelfTransfer (txs : list Tx.t) : bool :=
  forallb (fun tx => negb (selfTransfer tx)) txs.

Definition blockNoSelfTransfer (b : Block.t) : bool :=
  noSelfTransfer (default [] (Block.transactions b)).

(** What a list of transactions takes from, and gives to, an account, in
    units. *)
Fixpoint outflow (a : string) (txs : list Tx.t) : Z :=
  match txs with
  | [] => 0
  | tx :: rest =>
      (if effective tx && String.eqb (Tx.sender tx) a then unitsOf (Tx.amount tx) else 0)
      + outflow a rest
  end.

Fixpoint inflow (a : string) (txs : list Tx.t) : Z :=
  match txs with
  | [] => 0
  | tx :: rest =>
      (if effective tx && String.eqb (Tx.receiver tx) a then unitsOf (Tx.amount tx) else 0)
      + inflow a rest
  end.

(** What [validateTransaction] and the [seen] test of [addTransaction] ask. *)
Definition admissible (tx : Tx.t) (st : InventoryManager) : Prop :=
  (Tx.id tx ∉ seenMessages st)
  /\ Tx.sender tx <> EmptyString
  /\ Tx.receiver tx <> EmptyString
  /\ JS.truthy (Tx.amount tx) = true
  /\ JS.le (Tx.amount tx) JS.zero = false
  /\ JS.lt (balanceOr0 (balances st) (Tx.sender tx)) (Tx.amount tx) = false.

(** What the code between validation and the consensus check leaves alone. *)
Definition chainFrame (st st' : InventoryManager) : Prop :=
  blocks st' = blocks st
  /\ seenMessages st' = seenMessages st
  /\ genesisCreated st' = genesisCreated st
  /\ blockchainHead st' = blockchainHead st
  /\ blockHeights st' = blockHeights st
  /\ propagated st' = propagated st.

(** The store right after [addBlock] has filed a regular block, before its
    transactions are processed: [blocks.set], [seenMessages.add], and the
    height assignment. *)
Definition fileBlock (b : Block.t) (st : InventoryManager) : InventoryManager :=
  let st := set_blocks (<[blockId b := Block.with_hash (blockId b) b]> (blocks st)) st in
  let st := set_seenMessages ({[blockId b]} ∪ seenMessages st) st in
  set_blockHeights
    (<[blockId b := assignedHeight (Block.previousHash b) st]> (blockHeights st)) st.

(** [heightOf[h]] as the consensus check reads it: [blockHeights.get(h) || 0]. *)
Definition heightOf (st : InventoryManager) (h : string) : Z := getOr0 (blockHeights st) h.

(** Every head the store has had was marked as seen. *)
Definition headSeen (st : InventoryManager) : Prop :=
  forall h, blockchainHead st = Some h -> h ∈ seenMessages st.

(** ** A recorded network run

    Blocks as the miner produces them (no [isGenesis] key), mined for the
    four-zero difficulty on top of the genesis block that
    [createGenesisBlock "n1"] builds at [genesisTime]. *)

Definition genesisTime : string := "2025-03-05T12:00:00.000Z".
Definition genesisHash : string :=
  "d705fd934d806c87cb03778d20570f56b165936df6b557bf0947888289b0c87d".

Definition tx1 : Tx.t := Tx.mk "tx_1" "n1" "n2" (JS.of_Z 30) 1741176657558.
Definition txSelf : Tx.t := Tx.mk "tx_2" "n1" "n1" (JS.of_Z 5) 1741176657600.

(** Two competing children of the genesis block; [blockB] has the smaller hash. *)
Definition blockA : Block.t :=
  Block.mk None genesisHash "2025-03-05T12:01:01.000Z" "115705" "n1"
    "6a44c9b8df361a1b2420951289da8a9250be57f99769d7d9f9bdcc13200319e4" 1 (Some [tx1])
    "0000926c13959c270ad38cdd55f41f2a94b0df28c883c505dac1dc282c842538".

Definition blockB : Block.t :=
  Block.mk None genesisHash "2025-03-05T12:01:00.000Z" "921501" "n2"
    EmptyString 0 (Some [])
    "0000021afc8dc47b41a8bcd11e49ac7b34cc5ca2ba6ceb93bc68027109b95111".

(** A child of the genesis block that carries a transfer from [n1] to itself. *)
Definition blockS : Block.t :=
  Block.mk None genesisHash "2025-03-05T12:01:02.000Z" "5770" "n1"
    "0aee3c3235d3c74c66cc6306719e7e90698f98bb98e529cfad45e57cc99c349e" 1 (Some [txSelf])
    "00009e7083bd5077f7008992a7939b4634cf98be415596530d6653e3d7379c83".

(** [blockP] extends [blockA]; [blockC] extends [blockP]. *)
Definition blockP : Block.t :=
  Block.mk None (Block.hash blockA) "2025-03-05T12:02:00.000Z" "13212" "n1"
    EmptyString 0 (Some [])
    "0000d1824031d989b4e013a85acdb4bd9d50211dfd5cfd4f148e24220462b3fd".

Definition blockC : Block.t :=
  Block.mk None (Block.hash blockP) "2025-03-05T12:03:00.000Z" "66984" "n1"
    EmptyString 0 (Some [])
    "0000645887a7a3e8c54b5d7df864eec76622c90ef70ee8e52d13c2b6bcd9f6a1".

(** A block that was never mined: nonce 1, no leading zeros. *)
Definition blockX : Block.t :=
  Block.mk None genesisHash "2025-03-05T12:04:00.000Z" "1" "n9"
    EmptyString 0 (Some [])
    "a559f5b0a8b07f31325d0f080960210baa7f21af89f016fa0b8bbb66d88d4453".

(** A block that only the periodic synchronisation brings in: [x] sends
    [2^53] coins to [y], then [z] sends one; and a mined child of it. *)
Definition txBig : Tx.t := Tx.mk "tx_7" "x" "y" (JS.of_Z (2 ^ 53)) 1741176657900.
Definition txOne : Tx.t := Tx.mk "tx_8" "z" "y" (JS.of_Z 1) 1741176657901.

Definition blockBig : Block.t :=
  Block.mk None genesisHash "2025-03-05T12:08:00.000Z" "1" "n9"
    EmptyString 2 (Some [txBig; txOne])
    "11857f04034c6e9a02a627a1f83f5933bc4dba6b7064180c7ab5d0e7ae581731".

Definition blockChild : Block.t :=
  Block.mk None (Block.hash blockBig) "2025-03-05T12:09:00.000Z" "70465" "n1"
    EmptyString 0 (Some [])
    "00001d37e4057a6b6b570590fa4d2596f32941f8426a7f9c83538641c342baa9".

(** A transaction whose amount is a text, from an account that holds
    nothing, and a mined block that carries it. *)
Definition txText : Tx.t := Tx.mk "tx_9" "n9" "n2" (JS.Str "abc") 1741176657800.

Definition blockText : Block.t :=
  Block.mk None genesisHash "2025-03-05T12:10:00.000Z" "44562" "n9"
    "da5334c02e11cb781f93dddfccc01199551cd7e4ee1b545594dc0fa1e0a9416a" 1 (Some [txText])
    "0000518eb4eaa8fe3c587742f3b3da19096edc67777e71915e56b3c22bd5cd10".

(** [blockA] with another hash written into its [hash] field. *)
Definition blockForged : Block.t :=
  Block.with_hash "ffffffffffffffffffffffffffffffffffffffffffffffffffffffffdeadbeef" blockA.

(** A second genesis block, by [n2], and one that names no creator and
    carries no [hash] field. *)
Definition genesis2 : Block.t :=
  Block.mk (Some true) zeroHash "2025-03-05T12:05:00.000Z" "0" "n2"
    EmptyString 0 (Some [])
    "f7811a0ee4cd8e6e02d4cc88e8bca4660462d92ff800aee6ea653ad3104d3aa5".

Definition genesisAnonymous : Block.t :=
  Block.mk (Some true) zeroHash "2025-03-05T12:06:00.000Z" "0" EmptyString
    EmptyString 0 (Some []) EmptyString.

(** A genesis block by [n5] that carries no [hash] field. *)
Definition genesis3 : Block.t :=
  Block.mk (Some true) zeroHash "2025-03-05T12:07:00.000Z" "0" "n5"
    EmptyString 0 (Some []) EmptyString.

(** The first node after it created its genesis block; after it admitted
    [tx1]; and after [blockA] confirmed it. *)
Definition store0 : InventoryManager := exec [CreateGenesis "n1" genesisTime] newInventory.
Definition store1 : InventoryManager := exec [AddTransaction tx1] store0.
Definition storeA : InventoryManager := exec [AddBlock blockA] store1.

(** Heights are recorded for stored blocks only, stored blocks were seen,
    and no recorded height is negative. *)
Definition indexed (st : InventoryManager) : Prop :=
  dom (blockHeights st) ⊆ dom (blocks st)
  /\ dom (blocks st) ⊆ seenMessages st
  /\ (forall k v, blockHeights st !! k = Some v -> 0 <= v).

(** A history with a reorganization and three genesis blocks, one of them
    without a creator. *)
Definition recordedRun : list Op :=
  [ CreateGenesis "n1" genesisTime; AddTransaction tx1; AddBlock blockA; AddBlock blockB;
    AddBlock genesisAnonymous; AddBlock genesis3 ].

(** A history whose reorganization adds one coin to [2^53] coins. *)
Definition roundingRun : list Op :=
  [ CreateGenesis "n1" genesisTime;
    Sync [] [(Block.hash blockBig, Some [blockBig])];
    AddBlock blockChild ].

(** The store after [blockA], then the orphan [blockC], then its parent [blockP]. *)
Definition storeOrphan : InventoryManager := exec [AddBlock blockC; AddBlock blockP] storeA.

(** The height invariant of the specification: a stored regular block whose
    parent is stored is one above its parent. *)
Definition heightInvariant (st : InventoryManager) : Prop :=
  forall h b,
    blocks st !! h = Some b -> flag (Block.isGenesis b) = false ->
    is_Some (blocks st !! Block.previousHash b) ->
    heightOf st h = heightOf st (Block.previousHash b) + 1.

(** The proof-of-work invariant of the specification: the recomputed hash of
    every stored regular block has four leading zeros. *)
Definition powInvariant (st : InventoryManager) : Prop :=
  forall h b,
    blocks st !! h = Some b -> flag (Block.isGenesis b) = false ->
    String.prefix "0000" (calculateBlockHash b) = true.

(** The transactions of the blocks that a reorganization rolls back. *)
Definition abandonedTxs (oldHead newHead : string) (st : InventoryManager) : list Tx.t :=
  txsOfChain st (blocksToRollback oldHead newHead st).

(** Balance conservation as the specification states it: after every
    history the balances add up to 100 per accepted genesis block. *)
Definition balanceConservation : Prop :=
  forall ops,
    balanceSum (balances (exec ops newInventory))
    = coins (100 * Z.of_nat (genesisCount ops newInventory)).

(** No block that an operation brings in carries a transfer from an account
    to itself. *)
Definition cleanOp (op : Op) : bool :=
  match op with
  | AddBlock b => blockNoSelfTransfer b
  | Sync _ answers =>
      forallb (fun answer => forallb blockNoSelfTransfer (default [] (snd answer))) answers
  | _ => true
  end.

Definition storedClean (st : InventoryManager) : Prop :=
  forall h b, blocks st !! h = Some b -> blockNoSelfTransfer b = true.

(** Whether an operation endows an account: [createGenesisBlock] when it
    files its block, [addBlock] on a genesis block that names a creator. *)
Definition endows (st : InventoryManager) (op : Op) : bool :=
  match op with
  | CreateGenesis _ _ => acceptsGenesis st op
  | AddBlock b => acceptsGenesis st op && truthy (Block.creator b)
  | _ => false
  end.

Fixpoint endowmentCount (ops : list Op) (st : InventoryManager) : nat :=
  match ops with
  | [] => O
  | op :: rest =>
      ((if endows st op then 1 else 0) + endowmentCount rest (step st op))%nat
  end.

(** The account that an operation endows holds nothing yet. *)
Definition freshGenesisOp (st : InventoryManager) (op : Op) : bool :=
  match op with
  | CreateGenesis nodeId _ =>
      implb (endows st op) (unitsOf (default JS.zero (balances st !! nodeId)) =? 0)
  | AddBlock b =>
      implb (endows st op)
        (unitsOf (default JS.zero (balances st !! Block.creator b)) =? 0)
  | _ => true
  end.

Fixpoint freshGenesis (ops : list Op) (st : InventoryManager) : bool :=
  match ops with
  | [] => true
  | op :: rest => freshGenesisOp st op && freshGenesis rest (step st op)
  end.

(** The store after [blockB] has taken the head from [blockA]. *)
Definition storeB : InventoryManager := exec [AddBlock blockB] storeA.

(** ** Queries of the store *)

(** [getBlock(hash)] *)
Definition getBlock (h : string) (st : InventoryManager) : option Block.t := blocks st !! h.

(** [getBalance(nodeId)] *)
Definition getBalance (nodeId : string) (st : InventoryManager) : JS.value :=
  balanceOr0 (balances st) nodeId.

(** [getMainChain()]: the blocks of the hashes from genesis to the head,
    [filter(Boolean)] dropping the hashes without a block. *)
Definition getMainChain (st : InventoryManager) : list Block.t :=
  if negb (truthy (headOf st)) then []
  else omap (fun h => blocks st !! h) (getChainToBlock (headOf st) st).

(** ** The miner: [mineBlock] in [miner.mjs]

    The answers of the local node ([/inventory], [/getblocks]) and the clock
    are inputs; the search for the nonce, which the source runs in
    [while (true)], takes the number of nonces to try. *)

Definition MAX_TX_PER_BLOCK : nat := 10.

(** [if (pendingTxs.length > MAX_TX_PER_BLOCK) pendingTxs = pendingTxs.slice(0, MAX_TX_PER_BLOCK)] *)
Definition limitTransactions (pendingTxs : list Tx.t) : list Tx.t :=
  if (MAX_TX_PER_BLOCK <? length pendingTxs)%nat
  then take MAX_TX_PER_BLOCK pendingTxs
  else pendingTxs.

(** The choice of [prevHash]: the argument when it is given; otherwise the
    hash of the last block of [/getblocks], the zero hash when that list is
    empty, and the empty string when the request failed ([None]). *)
Definition choosePrevHash (previousHash : string) (blocksData : option (list Block.t)) : string :=
  if truthy previousHash then previousHash
  else
    match blocksData with
    | Some bs =>
        match List.last (Some <$> bs) None with
        | Some prevBlock => Block.hash prevBlock
        | None => zeroHash
        end
    | None => EmptyString
    end.

(** The block literal of one iteration, with [nonce.toString()]. *)
Definition candidateBlock (nodeId prevHash timestamp merkleRoot : string)
    (pendingTxs : list Tx.t) (nonce : Z) : Block.t :=
  Block.mk None prevHash timestamp (JSON.num nonce) nodeId merkleRoot
    (Z.of_nat (length pendingTxs)) (Some pendingTxs) EmptyString.

(** [sha256(JSON.stringify({...block, hash: undefined}) + nonce)]: a key
    whose value is [undefined] is left out, and the number is appended in
    decimal. *)
Definition minerHash (block : Block.t) (nonce : Z) : string :=
  sha256 (Block.stringifyWithoutHash block ++ JSON.num nonce)%string.

(** ['0'.repeat(difficulty)] *)
Fixpoint zeros (difficulty : nat) : string :=
  match difficulty with
  | O => EmptyString
  | S d => String "0" (zeros d)
  end.

(** The search loop: [nonce++], build, hash, test the prefix. *)
Fixpoint mineLoop (tries : nat) (candidate : Z -> Block.t) (prefix : string) (nonce : Z)
  : option Block.t :=
  match tries with
  | O => None
  | S tries' =>
      let nonce := nonce + 1 in
      let block := candidate nonce in
      let hash := minerHash block nonce in
      if String.prefix prefix hash then Some (Block.with_hash hash block)
      else mineLoop tries' candidate prefix nonce
  end.

Inductive Mining :=
  | NothingToMine
  | StillSearching
  | Mined (block : Block.t).

(** [mineBlock], up to the block it posts to the local node: the pending
    transactions of [/inventory] are looked at first, then the parent, then
    the search starts from nonce 0. *)
Definition mineBlock (nodeId previousHash : string) (blocksData : option (list Block.t))
    (timestamp : string) (difficulty : nat) (pendingTxs : list Tx.t) (tries : nat) : Mining :=
  if Nat.eqb (length pendingTxs) 0 then NothingToMine
  else
    let pendingTxs := limitTransactions pendingTxs in
    let prevHash := choosePrevHash previousHash blocksData in
    match getMerkleRoot pendingTxs with
    | Some merkleRoot =>
        match mineLoop tries (candidateBlock nodeId prevHash timestamp merkleRoot pendingTxs)
                (zeros difficulty) 0 with
        | Some block => Mined block
        | None => StillSearching
        end
    | None => StillSearching
    end.

(** ** Further invariants and notions for the properties below *)

(** The pending pool holds seen transactions only. *)
Definition pendingSeen (st : InventoryManager) : Prop :=
  dom (transactions st) ⊆ seenMessages st.

(** The head is a stored block with a recorded height. *)
Definition headStored (st : InventoryManager) : Prop :=
  forall h, blockchainHead st = Some h ->
            is_Some (blocks st !! h) /\ is_Some (blockHeights st !! h).

(** Every balance is non-negative. *)
Definition solvent (m : gmap string JS.value) : Prop :=
  forall a, 0 <= unitsOf (balanceOr0 m a).

(** *** Balance updates that are computed without rounding

    [processBlockTransactions] and the roll-back loop subtract and add
    doubles.  An update is exact when the balance, the amount and the
    result are finite numbers and the result is the true difference or sum;
    a run is exact when every update of every accepted block, and of every
    reorganization it causes, is. *)
Definition exactProcessTx (st : InventoryManager) (tx : Tx.t) : bool :=
  if effective tx then
    let senderBalance := balanceOr0 (balances st) (Tx.sender tx) in
    let afterSender :=
      <[Tx.sender tx := JS.minus senderBalance (Tx.amount tx)]> (balances st) in
    JS.exactDifference senderBalance (Tx.amount tx)
    && JS.exactSum (balanceOr0 afterSender (Tx.receiver tx)) (Tx.amount tx)
  else true.

Definition exactRollbackTx (st : InventoryManager) (tx : Tx.t) : bool :=
  if effective tx then
    JS.exactSum (balanceOr0 (balances st) (Tx.sender tx)) (Tx.amount tx)
    && JS.exactDifference (balanceOr0 (balances st) (Tx.receiver tx)) (Tx.amount tx)
  else true.

Fixpoint exactly (update : InventoryManager -> Tx.t -> InventoryManager)
    (exact : InventoryManager -> Tx.t -> bool) (txs : list Tx.t) (st : InventoryManager)
  : bool :=
  match txs with
  | [] => true
  | tx :: rest => exact st tx && exactly update exact rest (update st tx)
  end.

Definition exactlyApplied : list Tx.t -> InventoryManager -> bool :=
  exactly processTx exactProcessTx.

Definition exactlyRolledBack : list Tx.t -> InventoryManager -> bool :=
  exactly rollbackTx exactRollbackTx.

(** The transactions of the blocks that a reorganization applies. *)
Definition adoptedTxs (oldHead newHead : string) (st : InventoryManager) : list Tx.t :=
  txsOfChain st (blocksToApply oldHead newHead st).

Definition exactReorganization (oldHead newHead : string) (st : InventoryManager) : bool :=
  exactlyRolledBack (abandonedTxs oldHead newHead st) st
  && exactlyApplied (adoptedTxs oldHead newHead st) (rollbackChain oldHead newHead st).

(** Whether [applyConsensusRules] reorganizes for the new block. *)
Definition reorganizes (newBlockHash : string) (st : InventoryManager) : bool :=
  truthy (headOf st)
  && ((heightOf st (headOf st) <? heightOf st newBlockHash)
      || ((heightOf st newBlockHash =? heightOf st (headOf st))
          && String.ltb newBlockHash (headOf st))).

Definition exactAddBlock (b : Block.t) (st : InventoryManager) : bool :=
  if snd (addBlock b st) && negb (flag (Block.isGenesis b)) then
    let txs := default [] (Block.transactions b) in
    exactlyApplied txs (fileBlock b st)
    && (let st := processBlockTransactions txs (fileBlock b st) in
        if reorganizes (blockId b) st
        then exactReorganization (headOf st) (blockId b) st
        else true)
  else true.

Definition exactOp (st : InventoryManager) (op : Op) : bool :=
  match op with
  | AddBlock b => exactAddBlock b st
  | _ => true
  end.

Fixpoint exactRun (ops : list Op) (st : InventoryManager) : bool :=
  match ops with
  | [] => true
  | op :: rest => exactOp st op && exactRun rest (step st op)
  end.

(** Each hash of the list is stored, and each one after the first is a
    regular block whose [previousHash] is the hash before it. *)
Fixpoint linked (bs : gmap string Block.t) (chain : list string) : Prop :=
  match chain with
  | [] => True
  | h :: rest =>
      is_Some (bs !! h)
      /\ match rest with
         | [] => True
         | h' :: _ =>
             exists b', bs !! h' = Some b' /\ flag (Block.isGenesis b') = false
                        /\ Block.previousHash b' = h
         end
      /\ linked bs rest
  end.

(** The chain to [h] starts at a genesis block and was walked without
    running out of iterations. *)
Definition anchored (h : string) (st : InventoryManager) : Prop :=
  (length (getChainToBlock h st) < 1000)%nat
  /\ exists g bg, head (getChainToBlock h st) = Some g
                  /\ blocks st !! g = Some bg /\ flag (Block.isGenesis bg) = true.

(** Every block is stored under its own [hash] field. *)
Definition keyed (st : InventoryManager) : Prop :=
  forall h b, blocks st !! h = Some b -> Block.hash b = h.

(** The head is never the empty hash. *)
Definition headNamed (st : InventoryManager) : Prop :=
  blockchainHead st <> Some EmptyString.

(** * Properties *)

#[local] Set Warnings "-clear-no-such-hyp".

Arguments sha256 : simpl never.
Arguments calculateBlockHash : simpl never.
Arguments getChainToBlock : simpl never.
Arguments handleChainReorganization : simpl never.
Arguments JS.nearest : simpl never.
Arguments JS.canon : simpl never.
Arguments JS.int : simpl never.
Arguments JS.add : simpl never.
Arguments JS.sub : simpl never.
Arguments JS.ltb : simpl never.
Arguments JS.leb : simpl never.
Arguments JS.nonzero : simpl never.
Arguments JS.parse : simpl never.
Arguments JS.toString : simpl never.
Arguments JS.of_Z : simpl never.

(** ** Test vectors of the primitives *)

Example sha256_abc :
  sha256 "abc" = "ba7816bf8f01cfea414140de5dae2223b00361a396177a9cb410ff61f20015ad".
Proof. vm_compute. reflexivity. Qed.

Example sha256_empty :
  sha256 EmptyString = "e3b0c44298fc1c149afbf4c8996fb92427ae41e4649b934ca495991b7852b855".
Proof. vm_compute. reflexivity. Qed.

Example sha256_two_blocks :
  sha256 "abcdbcdecdefdefgefghfghighijhijkijkljklmklmnlmnomnopnopq"
  = "248d6a61d20638b8e5c026930c3e6039a33ce45964ff2167f6ecedd419db06c1".
Proof. vm_compute. reflexivity. Qed.

(** The recorded blocks carry the hashes that Node computes for them, and
    the Merkle roots that [getMerkleRoot] returns. *)
Example genesis_hash_recorded :
  (blockchainHead store0, balances store0 !! "n1")
  = (Some genesisHash, Some (JS.of_Z 100)).
Proof. vm_compute. reflexivity. Qed.

Example mined_hashes_recorded :
  (fun b => String.eqb (calculateBlockHash b) (Block.hash b))
    <$> [blockA; blockB; blockS; blockP; blockC; blockX; genesis2;
         blockBig; blockChild; blockText]
  = [true; true; true; true; true; true; true; true; true; true].
Proof. vm_compute. reflexivity. Qed.

Example merkle_root_one : getMerkleRoot [tx1] = Some (Block.merkleRoot blockA).
Proof. vm_compute. reflexivity. Qed.

Example merkle_root_three :
  getMerkleRoot [tx1; txSelf; Tx.mk "tx_3" "n2" "n3" (JS.of_Z 7) 1741176657700]
  = Some "1267073a1b8fded3562656e12845a4adee888abc790bc59dfd37afaf98f19565".
Proof. vm_compute. reflexivity. Qed.

(** Doubles: [2^53 + 1] is not a double, [0.1 + 0.2] is the double after
    [0.3], the largest double overflows when doubled, and the texts are
    those of [Number::toString]. *)
Example double_rounds_above_2_53 :
  (JS.add (JS.int (2 ^ 53)) (JS.int 1), JS.add (JS.int (2 ^ 53)) (JS.int 3),
   JS.sub (JS.int 100) (JS.int 30), JS.add (JS.Infinity false) (JS.Infinity true))
  = (JS.int (2 ^ 53), JS.int (2 ^ 53 + 4), JS.int 70, JS.NaN).
Proof. vm_compute. reflexivity. Qed.

Example double_texts :
  (fun s => JS.toString (JS.parse s))
    <$> [ "30"; "0.1"; "1e21"; "123456789012345680000"; "0.000001"; "1e-7";
          "9007199254740993"; "5e-324"; "1.7976931348623157e308"; "2e308";
          "-4.35"; "0x1f"; " 12 "; "abc"; "1e" ]
  = [ "30"; "0.1"; "1e+21"; "123456789012345680000"; "0.000001"; "1e-7";
      "9007199254740992"; "5e-324"; "1.7976931348623157e+308"; "Infinity";
      "-4.35"; "31"; "12"; "NaN"; "NaN" ].
Proof. vm_compute. reflexivity. Qed.

Example double_tenth_plus_fifth :
  JS.toString (JS.add (JS.parse "0.1") (JS.parse "0.2")) = "0.30000000000000004".
Proof. vm_compute. reflexivity. Qed.

(** The sums and differences agree with those of the Standard Library's
    specification of IEEE 754 ([SFadd], [SFsub]) on binary64. *)
Example double_agrees_with_SpecFloat :
  let cases :=
    (fun '(a, b) => (JS.parse a, JS.parse b))
      <$> [ ("100", "30"); ("0.1", "0.2"); ("9007199254740992", "1");
            ("9007199254740992", "3"); ("1e308", "1e308"); ("5e-324", "5e-324");
            ("2.2250738585072014e-308", "5e-324"); ("1.7976931348623157e308", "1e292");
            ("123.456", "-0.001"); ("1e21", "-1"); ("4.35", "100"); ("1e-7", "1e7") ] in
  (fun '(x, y) => (JS.toSpecFloat (JS.add x y), JS.toSpecFloat (JS.sub x y))) <$> cases
  = (fun '(x, y) =>
       (SFadd 53 1024 (JS.toSpecFloat x) (JS.toSpecFloat y),
        SFsub 53 1024 (JS.toSpecFloat x) (JS.toSpecFloat y))) <$> cases.
Proof. vm_compute. reflexivity. Qed.

(** What the operators do with an amount that is not a number. *)
Example operators_on_text :
  (JS.truthy (JS.Str "abc"), JS.le (JS.Str "abc") JS.zero, JS.lt JS.zero (JS.Str "abc"),
   JS.minus JS.zero (JS.Str "abc"), JS.plus JS.zero (JS.Str "abc"),
   JS.plus (JS.of_Z 100) (JS.Str "5"), JS.minus (JS.of_Z 100) (JS.Str "5"),
   JS.lt (JS.of_Z 100) (JS.Str "5"), JS.plus (JS.of_Z 1) (JS.Bool true))
  = (true, false, false, JS.Num JS.NaN, JS.Str "0abc",
     JS.Str "1005", JS.of_Z 95, false, JS.of_Z 2).
Proof. vm_compute. reflexivity. Qed.

(** ** Truthiness and lookups *)

Lemma truthy_true (s : string) : truthy s = true <-> s <> EmptyString.
Proof. destruct s; simpl; split; congruence. Qed.

Lemma truthy_false (s : string) : truthy s = false <-> s = EmptyString.
Proof. destruct s; simpl; split; congruence. Qed.

Lemma nonzero_true (z : Z) : nonzero z = true <-> z <> 0.
Proof. unfold nonzero. rewrite negb_true_iff, Z.eqb_neq. tauto. Qed.

Lemma has_true (s : gset string) (k : string) : has s k = true <-> k ∈ s.
Proof. unfold has. apply bool_decide_eq_true. Qed.

Lemma has_false (s : gset string) (k : string) : has s k = false <-> k ∉ s.
Proof. unfold has. apply bool_decide_eq_false. Qed.

Lemma getOr0_insert_eq (m : gmap string Z) (k : string) (v : Z) :
  getOr0 (<[k := v]> m) k = v.
Proof. unfold getOr0. by rewrite lookup_insert_eq. Qed.

Lemma getOr0_insert_ne (m : gmap string Z) (k k' : string) (v : Z) :
  k <> k' -> getOr0 (<[k := v]> m) k' = getOr0 m k'.
Proof. intros Hne. unfold getOr0. by rewrite lookup_insert_ne. Qed.

(** ** Values and their exact readings *)

Lemma canon_zero : JS.canon (JS.Fin 0) = JS.Fin 0.
Proof. vm_compute. reflexivity. Qed.

Lemma units_zero : JS.units JS.zero = Some 0.
Proof. vm_compute. reflexivity. Qed.

Lemma units_Num (v : JS.value) (u : Z) :
  JS.units v = Some u -> exists x, v = JS.Num x /\ JS.canon x = JS.Fin u.
Proof.
  destruct v as [| | b | x | s]; try discriminate. simpl.
  destruct (JS.canon x) as [| s | w] eqn:Hx; try discriminate.
  intros [= ->]. eauto.
Qed.

(** A finite number is truthy exactly when it is not zero, and finite
    numbers compare as their values do. *)
Lemma units_truthy (v : JS.value) (u : Z) :
  JS.units v = Some u -> JS.truthy v = negb (u =? 0).
Proof.
  intros Hv. apply units_Num in Hv as (x & -> & Hx).
  simpl. unfold JS.nonzero. by rewrite Hx.
Qed.

Lemma units_lt (a b : JS.value) (x y : Z) :
  JS.units a = Some x -> JS.units b = Some y -> JS.lt a b = (x <? y).
Proof.
  intros Ha Hb.
  apply units_Num in Ha as (na & -> & Hna). apply units_Num in Hb as (nb & -> & Hnb).
  simpl. unfold JS.ltb. by rewrite Hna, Hnb.
Qed.

Lemma units_le (a b : JS.value) (x y : Z) :
  JS.units a = Some x -> JS.units b = Some y -> JS.le a b = (x <=? y).
Proof.
  intros Ha Hb.
  apply units_Num in Ha as (na & -> & Hna). apply units_Num in Hb as (nb & -> & Hnb).
  simpl. unfold JS.leb, JS.ltb. rewrite Hna, Hnb.
  destruct (Z.leb_spec x y), (Z.ltb_spec y x); simpl; lia.
Qed.

(** A value that is falsy counts as nothing. *)
Lemma unitsOf_falsy (v : JS.value) : JS.truthy v = false -> unitsOf v = 0.
Proof.
  unfold unitsOf. destruct v as [| | b | x | s]; try done. simpl.
  unfold JS.nonzero. destruct (JS.canon x) as [| s | u]; try done.
  intros Hu. apply negb_false_iff, Z.eqb_eq in Hu. by subst u.
Qed.

Lemma unitsOf_units (v : JS.value) (u : Z) : JS.units v = Some u -> unitsOf v = u.
Proof. unfold unitsOf. by intros ->. Qed.

Lemma unitsOf_zero : unitsOf JS.zero = 0.
Proof. apply unitsOf_units, units_zero. Qed.

(** [balances.get(k) || 0] has the value of what is stored. *)
Lemma unitsOf_balanceOr0 (m : gmap string JS.value) (k : string) :
  unitsOf (balanceOr0 m k) = unitsOf (default JS.zero (m !! k)).
Proof.
  unfold balanceOr0. destruct (m !! k) as [v |]; simpl; [| done].
  destruct (JS.truthy v) eqn:Hv; [done |].
  by rewrite unitsOf_zero, (unitsOf_falsy v Hv).
Qed.

Lemma balanceOr0_insert_ne (m : gmap string JS.value) (k k' : string) (v : JS.value) :
  k <> k' -> balanceOr0 (<[k := v]> m) k' = balanceOr0 m k'.
Proof. intros Hne. unfold balanceOr0. by rewrite lookup_insert_ne. Qed.

Lemma balanceOr0_insert_units (m : gmap string JS.value) (k : string) (v : JS.value) :
  JS.units (balanceOr0 (<[k := v]> m) k)
  = if JS.truthy v then JS.units v else Some 0.
Proof.
  unfold balanceOr0. rewrite lookup_insert_eq.
  destruct (JS.truthy v); [done | apply units_zero].
Qed.

Lemma units_balanceOr0_insert (m : gmap string JS.value) (k : string) (v : JS.value)
    (u : Z) :
  JS.units v = Some u -> JS.units (balanceOr0 (<[k := v]> m) k) = Some u.
Proof.
  intros Hv. rewrite balanceOr0_insert_units.
  rewrite (units_truthy v u Hv).
  destruct (Z.eqb_spec u 0) as [-> | _]; simpl; [done | exact Hv].
Qed.

(** What an exact difference and an exact sum give. *)
Lemma exactDifference_units (a b : JS.value) :
  JS.exactDifference a b = true ->
  exists x y, JS.units a = Some x /\ JS.units b = Some y
              /\ JS.units (JS.minus a b) = Some (x - y).
Proof.
  unfold JS.exactDifference.
  destruct (JS.units a) as [x |]; [| discriminate].
  destruct (JS.units b) as [y |]; [| discriminate].
  destruct (JS.units (JS.minus a b)) as [z |]; [| discriminate].
  intros Hz. apply Z.eqb_eq in Hz. subst z. eauto.
Qed.

Lemma exactSum_units (a b : JS.value) :
  JS.exactSum a b = true ->
  exists x y, JS.units a = Some x /\ JS.units b = Some y
              /\ JS.units (JS.plus a b) = Some (x + y).
Proof.
  unfold JS.exactSum.
  destruct (JS.units a) as [x |]; [| discriminate].
  destruct (JS.units b) as [y |]; [| discriminate].
  destruct (JS.units (JS.plus a b)) as [z |]; [| discriminate].
  intros Hz. apply Z.eqb_eq in Hz. subst z. eauto.
Qed.

(** ** Transaction admission *)

Lemma validateTransaction_true (tx : Tx.t) (st : InventoryManager) :
  validateTransaction tx st = true <->
  Tx.sender tx <> EmptyString /\ Tx.receiver tx <> EmptyString
  /\ JS.truthy (Tx.amount tx) = true
  /\ JS.le (Tx.amount tx) JS.zero = false
  /\ JS.lt (balanceOr0 (balances st) (Tx.sender tx)) (Tx.amount tx) = false.
Proof.
  unfold validateTransaction.
  destruct (truthy (Tx.sender tx)) eqn:Hs; simpl.
  2:{ apply truthy_false in Hs. split; [discriminate | tauto]. }
  destruct (truthy (Tx.receiver tx)) eqn:Hr; simpl.
  2:{ apply truthy_false in Hr. split; [discriminate | tauto]. }
  apply truthy_true in Hs. apply truthy_true in Hr.
  destruct (JS.truthy (Tx.amount tx)) eqn:Hn; simpl.
  2:{ split; [discriminate | intros (_ & _ & ? & _); discriminate]. }
  destruct (JS.le (Tx.amount tx) JS.zero) eqn:Hle.
  { split; [discriminate | intros (_ & _ & _ & ? & _); discriminate]. }
  destruct (JS.lt (balanceOr0 (balances st) (Tx.sender tx)) (Tx.amount tx)) eqn:Hb.
  - split; [discriminate | intros (_ & _ & _ & _ & ?); discriminate].
  - tauto.
Qed.

Lemma addTransaction_accepts (tx : Tx.t) (st : InventoryManager) :
  snd (addTransaction tx st) = true <-> admissible tx st.
Proof.
  unfold addTransaction, admissible.
  destruct (has (seenMessages st) (Tx.id tx)) eqn:Hseen; simpl.
  { apply has_true in Hseen. split; [discriminate | tauto]. }
  apply has_false in Hseen.
  destruct (validateTransaction tx st) eqn:Hv; simpl.
  - apply validateTransaction_true in Hv. tauto.
  - split; [discriminate |].
    intros (_ & H). apply validateTransaction_true in H. congruence.
Qed.


Lemma addTransaction_chain (tx : Tx.t) (st : InventoryManager) :
  blocks (fst (addTransaction tx st)) = blocks st
  /\ blockHeights (fst (addTransaction tx st)) = blockHeights st
  /\ blockchainHead (fst (addTransaction tx st)) = blockchainHead st
  /\ balances (fst (addTransaction tx st)) = balances st
  /\ genesisCreated (fst (addTransaction tx st)) = genesisCreated st.
Proof.
  unfold addTransaction.
  destruct (has (seenMessages st) (Tx.id tx)); [done |].
  by destruct (negb (validateTransaction tx st)).
Qed.

(** C10.  [addTransaction] never touches the blocks, their heights, the head
    or the balances; [pending] and [seen] change only when it returns
    [true]. *)
Theorem addTransaction_frame (tx : Tx.t) (st : InventoryManager) :
  blocks (fst (addTransaction tx st)) = blocks st
  /\ blockHeights (fst (addTransaction tx st)) = blockHeights st
  /\ blockchainHead (fst (addTransaction tx st)) = blockchainHead st
  /\ balances (fst (addTransaction tx st)) = balances st
  /\ genesisCreated (fst (addTransaction tx st)) = genesisCreated st
  /\ (snd (addTransaction tx st) = false -> fst (addTransaction tx st) = st).
Proof.
  unfold addTransaction.
  destruct (has (seenMessages st) (Tx.id tx)); simpl; [done |].
  destruct (validateTransaction tx st); simpl; [| done].
  repeat split; discriminate.
Qed.

(** ** The sum over the balance map *)

Lemma balanceSum_empty : balanceSum ∅ = 0.
Proof. unfold balanceSum. apply map_fold_empty. Qed.

Lemma balanceSum_insert_fresh (m : gmap string JS.value) (k : string) (v : JS.value) :
  m !! k = None -> balanceSum (<[k := v]> m) = unitsOf v + balanceSum m.
Proof.
  intros Hk. unfold balanceSum.
  apply (map_fold_insert_L (fun _ v acc => unitsOf v + acc)); [| done].
  intros; lia.
Qed.

Lemma balanceSum_delete (m : gmap string JS.value) (k : string) (v : JS.value) :
  m !! k = Some v -> balanceSum m = unitsOf v + balanceSum (delete k m).
Proof.
  intros Hk. unfold balanceSum.
  apply (map_fold_delete_L (fun _ v acc => unitsOf v + acc)); [| done].
  intros; lia.
Qed.

Lemma balanceSum_insert (m : gmap string JS.value) (k : string) (v : JS.value) :
  balanceSum (<[k := v]> m) = balanceSum m - unitsOf (balanceOr0 m k) + unitsOf v.
Proof.
  rewrite unitsOf_balanceOr0. destruct (m !! k) as [old |] eqn:Hk; simpl.
  - rewrite <- insert_delete_eq.
    rewrite balanceSum_insert_fresh by apply lookup_delete_eq.
    rewrite (balanceSum_delete m k old Hk). lia.
  - rewrite balanceSum_insert_fresh by done. rewrite unitsOf_zero. lia.
Qed.

(** ** Frames of the balance loops *)

Lemma chainFrame_refl (st : InventoryManager) : chainFrame st st.
Proof. by unfold chainFrame. Qed.

Lemma chainFrame_trans (a b c : InventoryManager) :
  chainFrame a b -> chainFrame b c -> chainFrame a c.
Proof.
  unfold chainFrame.
  intros (?&?&?&?&?&?) (?&?&?&?&?&?). repeat split; congruence.
Qed.

Lemma fold_left_chainFrame {B} (f : InventoryManager -> B -> InventoryManager)
    (l : list B) (st : InventoryManager) :
  (forall s x, chainFrame s (f s x)) -> chainFrame st (fold_left f l st).
Proof.
  intros Hf. revert st.
  induction l as [| x l IH]; intros st; simpl.
  - apply chainFrame_refl.
  - eapply chainFrame_trans; [apply Hf | apply IH].
Qed.

Lemma processTx_frame (st : InventoryManager) (tx : Tx.t) :
  chainFrame st (processTx st tx).
Proof.
  unfold processTx, chainFrame.
  destruct (negb (truthy (Tx.sender tx)) || negb (truthy (Tx.receiver tx))
            || negb (JS.truthy (Tx.amount tx))); [done |].
  match goal with |- context [if ?c then _ else _] => destruct c end; done.
Qed.

Lemma rollbackTx_frame (st : InventoryManager) (tx : Tx.t) :
  chainFrame st (rollbackTx st tx) /\ transactions (rollbackTx st tx) = transactions st.
Proof.
  unfold rollbackTx, chainFrame.
  destruct (truthy (Tx.sender tx) && truthy (Tx.receiver tx) && JS.truthy (Tx.amount tx));
    done.
Qed.

Lemma processBlockTransactions_frame (txs : list Tx.t) (st : InventoryManager) :
  chainFrame st (processBlockTransactions txs st).
Proof. apply fold_left_chainFrame, processTx_frame. Qed.

Lemma rollbackTxs_frame (txs : list Tx.t) (st : InventoryManager) :
  chainFrame st (fold_left rollbackTx txs st).
Proof. apply fold_left_chainFrame. intros s x. apply rollbackTx_frame. Qed.

Lemma rollbackTxs_pending (txs : list Tx.t) (st : InventoryManager) :
  transactions (fold_left rollbackTx txs st) = transactions st.
Proof.
  revert st. induction txs as [| tx txs IH]; intros st; simpl; [done |].
  rewrite IH. apply rollbackTx_frame.
Qed.

Lemma rollbackBlock_frame (st : InventoryManager) (h : string) :
  chainFrame st (rollbackBlock st h).
Proof.
  unfold rollbackBlock.
  destruct (blocks st !! h) as [b |]; [| apply chainFrame_refl].
  destruct (Block.transactions b); [apply rollbackTxs_frame | apply chainFrame_refl].
Qed.

Lemma applyBlock_frame (st : InventoryManager) (h : string) :
  chainFrame st (applyBlock st h).
Proof.
  unfold applyBlock.
  destruct (blocks st !! h) as [b |]; [| apply chainFrame_refl].
  destruct (Block.transactions b);
    [apply processBlockTransactions_frame | apply chainFrame_refl].
Qed.

Lemma rollbackChain_frame (oldHead newHead : string) (st : InventoryManager) :
  chainFrame st (rollbackChain oldHead newHead st).
Proof. apply fold_left_chainFrame, rollbackBlock_frame. Qed.

Lemma handleChainReorganization_frame (oldHead newHead : string) (st : InventoryManager) :
  chainFrame st (handleChainReorganization oldHead newHead st).
Proof.
  unfold handleChainReorganization.
  eapply chainFrame_trans; [apply rollbackChain_frame |].
  apply fold_left_chainFrame, applyBlock_frame.
Qed.

(** ** The shape of [addBlock] *)

Lemma addBlock_rejected (b : Block.t) (st : InventoryManager) :
  snd (addBlock b st) = false -> fst (addBlock b st) = st.
Proof.
  unfold addBlock.
  destruct (has _ _ || has _ _); [done |].
  destruct (flag (Block.isGenesis b)); [discriminate |].
  destruct (negb (validateBlockStructure b _ st)); [done |].
  destruct (Block.transactions b) as [txs |]; [| done].
  destruct (negb (validateBlockTransactions txs st)); [done | discriminate].
Qed.

Lemma validateBlockStructure_pow (b : Block.t) (h : string) (st : InventoryManager) :
  validateBlockStructure b h st = String.prefix "0000" h.
Proof.
  unfold validateBlockStructure.
  destruct (String.prefix "0000" h); simpl; [| done].
  by destruct (negb (mhas (blocks st) (Block.previousHash b))).
Qed.

(** A block is accepted exactly when neither its claimed nor its recomputed
    hash was seen and it is a genesis block, or a regular block whose
    recomputed hash has four leading zeros and whose transactions validate. *)
Lemma addBlock_accepts (b : Block.t) (st : InventoryManager) :
  snd (addBlock b st) = true <->
  (blockId b ∉ seenMessages st) /\ (calculateBlockHash b ∉ seenMessages st)
  /\ (flag (Block.isGenesis b) = true
      \/ (flag (Block.isGenesis b) = false
          /\ String.prefix "0000" (calculateBlockHash b) = true
          /\ exists txs, Block.transactions b = Some txs
                         /\ validateTxs (balances st) txs = true)).
Proof.
  unfold addBlock. fold (blockId b).
  destruct (has (seenMessages st) (blockId b)) eqn:H1; simpl.
  { apply has_true in H1. split; [discriminate | tauto]. }
  destruct (has (seenMessages st) (calculateBlockHash b)) eqn:H2; simpl.
  { apply has_true in H2. split; [discriminate | tauto]. }
  apply has_false in H1. apply has_false in H2.
  destruct (flag (Block.isGenesis b)) eqn:Hg; simpl; [tauto |].
  rewrite validateBlockStructure_pow.
  destruct (String.prefix "0000" (calculateBlockHash b)) eqn:Hp; simpl.
  2:{ split; [discriminate |]. intros (_ & _ & [? | (_ & ? & _)]); discriminate. }
  destruct (Block.transactions b) as [txs |] eqn:Ht.
  2:{ split; [discriminate |].
      intros (_ & _ & [? | (_ & _ & txs & ? & _)]); discriminate. }
  unfold validateBlockTransactions.
  destruct (validateTxs (balances st) txs) eqn:Hv; simpl.
  - split; [| done]. intros _. repeat split; try done. right. eauto.
  - split; [discriminate |].
    intros (_ & _ & [? | (_ & _ & txs' & ? & ?)]); [discriminate | congruence].
Qed.

Lemma addBlock_genesis (b : Block.t) (st : InventoryManager) :
  snd (addBlock b st) = true -> flag (Block.isGenesis b) = true ->
  let st' := fst (addBlock b st) in
  blocks st' = <[blockId b := Block.with_hash (blockId b) b]> (blocks st)
  /\ seenMessages st' = {[blockId b]} ∪ seenMessages st
  /\ genesisCreated st' = true
  /\ blockHeights st' = <[blockId b := 0]> (blockHeights st)
  /\ blockchainHead st' = Some (blockId b)
  /\ balances st' = (if truthy (Block.creator b)
                     then <[Block.creator b := JS.of_Z 100]> (balances st) else balances st)
  /\ transactions st' = transactions st.
Proof.
  unfold addBlock. fold (blockId b). intros Hok Hg. rewrite Hg in *.
  destruct (has _ _ || has _ _); [discriminate |]. simpl.
  destruct (truthy (Block.creator b)); simpl; done.
Qed.

Lemma addBlock_regular (b : Block.t) (st : InventoryManager) :
  snd (addBlock b st) = true -> flag (Block.isGenesis b) = false ->
  exists txs,
    Block.transactions b = Some txs
    /\ validateTxs (balances st) txs = true
    /\ fst (addBlock b st)
       = propagateBlock (Block.with_hash (blockId b) b)
           (fst (applyConsensusRules (blockId b)
                   (processBlockTransactions txs (fileBlock b st)))).
Proof.
  intros Hok Hg.
  pose proof (proj1 (addBlock_accepts b st) Hok) as (H1 & H2 & [Hg' | (_ & Hp & txs & Ht & Hv)]);
    [congruence |].
  exists txs. split; [done |]. split; [done |].
  unfold addBlock. fold (blockId b).
  apply has_false in H1. apply has_false in H2. rewrite H1, H2, Hg. simpl.
  rewrite validateBlockStructure_pow, Hp, Ht. simpl.
  unfold validateBlockTransactions. rewrite Hv. simpl. reflexivity.
Qed.

Lemma applyConsensusRules_frame (h : string) (st : InventoryManager) :
  let st' := fst (applyConsensusRules h st) in
  blocks st' = blocks st /\ seenMessages st' = seenMessages st
  /\ genesisCreated st' = genesisCreated st /\ blockHeights st' = blockHeights st
  /\ propagated st' = propagated st.
Proof.
  unfold applyConsensusRules.
  pose proof (handleChainReorganization_frame (headOf st) h st) as Hframe.
  revert Hframe. generalize (handleChainReorganization (headOf st) h st).
  intros reorganized (?&?&?&?&?&?).
  destruct (negb (truthy (headOf st))); [by cbn |].
  destruct (_ <? _); [by cbn |].
  destruct (_ && _); by cbn.
Qed.

(** The head after the consensus check. *)
Lemma applyConsensusRules_head (h : string) (st : InventoryManager) :
  blockchainHead (fst (applyConsensusRules h st))
  = if negb (truthy (headOf st)) then Some h
    else if heightOf st (headOf st) <? heightOf st h then Some h
    else if (heightOf st h =? heightOf st (headOf st)) && String.ltb h (headOf st)
         then Some h
         else blockchainHead st.
Proof.
  unfold applyConsensusRules, heightOf.
  generalize (handleChainReorganization (headOf st) h st). intros reorganized.
  destruct (negb (truthy (headOf st))); [by cbn |].
  destruct (_ <? _); [by cbn |].
  destruct (_ && _); by cbn.
Qed.

Lemma fileBlock_fields (b : Block.t) (st : InventoryManager) :
  blocks (fileBlock b st) = <[blockId b := Block.with_hash (blockId b) b]> (blocks st)
  /\ seenMessages (fileBlock b st) = {[blockId b]} ∪ seenMessages st
  /\ blockHeights (fileBlock b st)
     = <[blockId b := assignedHeight (Block.previousHash b) st]> (blockHeights st)
  /\ blockchainHead (fileBlock b st) = blockchainHead st
  /\ balances (fileBlock b st) = balances st
  /\ transactions (fileBlock b st) = transactions st
  /\ genesisCreated (fileBlock b st) = genesisCreated st.
Proof. unfold fileBlock. simpl. repeat split. Qed.

(** [createGenesisBlock] either declines, or files the genesis block on a
    store that has no block yet. *)
Lemma createGenesisBlock_cases (nodeId now : string) (st : InventoryManager) :
  (genesisCreated st || (0 <? size (blocks st))%nat = true
   /\ createGenesisBlock nodeId now st = (st, None))
  \/ (genesisCreated st = false /\ blocks st = ∅
      /\ exists g blk,
           Block.transactions blk = Some []
           /\ createGenesisBlock nodeId now st
              = (mkInventory (<[g := blk]> (blocks st)) (transactions st)
                   ({[g]} ∪ seenMessages st) (<[nodeId := JS.of_Z 100]> (balances st))
                   true (Some g) (<[g := 0]> (blockHeights st)) (propagated st),
                 Some blk)).
Proof.
  unfold createGenesisBlock.
  destruct (genesisCreated st || (0 <? size (blocks st))%nat) eqn:Hguard; [by left |].
  right. apply orb_false_iff in Hguard as [Hcreated Hsize].
  apply Nat.ltb_ge in Hsize.
  split; [done |]. split; [apply map_size_empty_iff; lia |].
  eexists _, _. split; [| reflexivity]. reflexivity.
Qed.

(** ** The head was seen: an invariant of every history *)

Lemma syncTransaction_frame (st : InventoryManager) (tx : Tx.t) :
  let st' := syncTransaction st tx in
  blocks st' = blocks st /\ blockHeights st' = blockHeights st
  /\ blockchainHead st' = blockchainHead st /\ balances st' = balances st
  /\ seenMessages st ⊆ seenMessages st'.
Proof.
  unfold syncTransaction.
  destruct (_ && _); simpl; repeat split; set_solver.
Qed.

Lemma syncBlock_frame (st : InventoryManager) (b : Block.t) :
  let st' := syncBlock st b in
  blockHeights st' = blockHeights st
  /\ blockchainHead st' = blockchainHead st /\ balances st' = balances st
  /\ seenMessages st ⊆ seenMessages st'.
Proof.
  unfold syncBlock.
  destruct (negb _); simpl; repeat split; set_solver.
Qed.

Lemma syncWithPeer_frame (txs : list Tx.t)
    (answers : list (string * option (list Block.t))) (st : InventoryManager) :
  let st' := syncWithPeer txs answers st in
  blockHeights st' = blockHeights st
  /\ blockchainHead st' = blockchainHead st /\ balances st' = balances st
  /\ seenMessages st ⊆ seenMessages st'.
Proof.
  set (R := fun s s' : InventoryManager =>
              blockHeights s' = blockHeights s
              /\ blockchainHead s' = blockchainHead s /\ balances s' = balances s
              /\ seenMessages s ⊆ seenMessages s').
  assert (Hrefl : forall s, R s s) by (intros s; unfold R; set_solver).
  assert (Htrans : forall a b c, R a b -> R b c -> R a c).
  { unfold R. intros a b c (?&?&?&?) (?&?&?&?).
    repeat split; try congruence. set_solver. }
  assert (Hfold : forall B (f : InventoryManager -> B -> InventoryManager) l s,
             (forall s x, R s (f s x)) -> R s (fold_left f l s)).
  { intros B f l. induction l as [| x l IH]; intros s Hf; simpl; [apply Hrefl |].
    eapply Htrans; [apply Hf | by apply IH]. }
  change (R st (syncWithPeer txs answers st)). unfold syncWithPeer.
  eapply Htrans.
  - apply Hfold. intros s x. pose proof (syncTransaction_frame s x) as (?&?&?&?&?).
    by unfold R.
  - apply Hfold. intros s [blockId' answer]. unfold syncBlockId. simpl.
    destruct (_ && _); [| apply Hrefl].
    destruct answer as [bs |]; [| apply Hrefl].
    apply Hfold. intros s' x. apply syncBlock_frame.
Qed.

Lemma step_headSeen (st : InventoryManager) (op : Op) :
  headSeen st -> headSeen (step st op).
Proof.
  unfold headSeen. intros Hinv.
  destruct op as [nodeId now | b | tx | txs answers]; simpl.
  - destruct (createGenesisBlock_cases nodeId now st)
      as [[_ ->] | (_ & _ & g & blk & _ & ->)]; simpl; [done |].
    intros h [= Hid]. subst h. set_solver.
  - destruct (snd (addBlock b st)) eqn:Hok.
    2:{ by rewrite (addBlock_rejected b st Hok). }
    destruct (flag (Block.isGenesis b)) eqn:Hg.
    + destruct (addBlock_genesis b st Hok Hg) as (_ & Hs & _ & _ & Hh & _).
      rewrite Hs, Hh. intros h [= Hid]. subst h. set_solver.
    + destruct (addBlock_regular b st Hok Hg) as (txs & _ & _ & ->).
      simpl.
      set (st2 := processBlockTransactions txs (fileBlock b st)).
      pose proof (processBlockTransactions_frame txs (fileBlock b st))
        as (_ & Hs2 & _ & Hh2 & _).
      pose proof (applyConsensusRules_frame (blockId b) st2) as (_ & Hs3 & _).
      fold st2 in Hs2, Hh2. simpl in Hs3. rewrite Hs3, Hs2.
      rewrite applyConsensusRules_head.
      assert (Hold : forall h, blockchainHead st2 = Some h ->
                               h ∈ seenMessages (fileBlock b st)).
      { intros h. rewrite Hh2. unfold fileBlock. simpl. intros Hh.
        apply Hinv in Hh. set_solver. }
      assert (Hnew : blockId b ∈ seenMessages (fileBlock b st)).
      { unfold fileBlock. simpl. set_solver. }
      repeat match goal with |- context [if ?c then _ else _] => destruct c end;
        first [ by intros h [= Hid]; subst h | exact Hold ].
  - pose proof (addTransaction_chain tx st) as (_ & _ & Hh & _).
    rewrite Hh. intros h Hhead. apply Hinv in Hhead.
    unfold addTransaction.
    destruct (has _ _); simpl; [done |].
    destruct (negb _); simpl; [done | set_solver].
  - pose proof (syncWithPeer_frame txs answers st) as (_ & Hh & _ & Hs).
    simpl in Hh, Hs. rewrite Hh. intros h Hhead. apply Hinv in Hhead. set_solver.
Qed.

Lemma exec_invariant (P : InventoryManager -> Prop) (ops : list Op) (st : InventoryManager) :
  (forall s op, P s -> P (step s op)) -> P st -> P (exec ops st).
Proof.
  intros Hstep. revert st.
  induction ops as [| op ops IH]; intros st Hst; simpl; [done |].
  apply IH, Hstep, Hst.
Qed.

Lemma reachable_headSeen (st : InventoryManager) : reachable st -> headSeen st.
Proof.
  intros [ops <-]. apply exec_invariant; [apply step_headSeen |].
  intros h. discriminate.
Qed.

Lemma reachable_new : reachable newInventory.
Proof. by exists []. Qed.

Lemma reachable_exec (ops : list Op) (st : InventoryManager) :
  reachable st -> reachable (exec ops st).
Proof.
  intros [ops0 <-]. exists (ops0 ++ ops). unfold exec. apply fold_left_app.
Qed.

Lemma reachable_storeA : reachable storeA.
Proof. repeat apply reachable_exec. apply reachable_new. Qed.

(** ** Consensus rule *)

Lemma addBlock_regular_head (b : Block.t) (st : InventoryManager) :
  snd (addBlock b st) = true -> flag (Block.isGenesis b) = false ->
  let st' := fst (addBlock b st) in
  blocks st' = <[blockId b := Block.with_hash (blockId b) b]> (blocks st)
  /\ blockHeights st'
     = <[blockId b := assignedHeight (Block.previousHash b) st]> (blockHeights st)
  /\ seenMessages st' = {[blockId b]} ∪ seenMessages st
  /\ blockchainHead st'
     = if negb (truthy (headOf st)) then Some (blockId b)
       else if heightOf st' (headOf st) <? heightOf st' (blockId b) then Some (blockId b)
       else if (heightOf st' (blockId b) =? heightOf st' (headOf st))
               && String.ltb (blockId b) (headOf st)
            then Some (blockId b)
            else blockchainHead st.
Proof.
  intros Hok Hg st'.
  destruct (addBlock_regular b st Hok Hg) as (txs & _ & _ & Heq).
  set (st2 := processBlockTransactions txs (fileBlock b st)) in Heq.
  pose proof (processBlockTransactions_frame txs (fileBlock b st))
    as (Hb2 & Hs2 & _ & Hh2 & Hh2' & _).
  fold st2 in Hb2, Hs2, Hh2, Hh2'.
  pose proof (applyConsensusRules_frame (blockId b) st2) as (Hb3 & Hs3 & _ & Hh3 & _).
  simpl in Hb3, Hs3, Hh3.
  pose proof (fileBlock_fields b st) as (Fb & Fs & Fh & Fhead & _).
  assert (Hblocks : blocks st' = <[blockId b := Block.with_hash (blockId b) b]> (blocks st)).
  { subst st'. rewrite Heq. simpl. by rewrite Hb3, Hb2, Fb. }
  assert (Hheights : blockHeights st'
            = <[blockId b := assignedHeight (Block.previousHash b) st]> (blockHeights st)).
  { subst st'. rewrite Heq. simpl. by rewrite Hh3, Hh2', Fh. }
  assert (Hseen : seenMessages st' = {[blockId b]} ∪ seenMessages st).
  { subst st'. rewrite Heq. simpl. by rewrite Hs3, Hs2, Fs. }
  split; [done |]. split; [done |]. split; [done |].
  assert (Hhead : headOf st2 = headOf st).
  { unfold headOf. by rewrite Hh2, Fhead. }
  assert (Hht : forall k, heightOf st2 k = heightOf st' k).
  { intros k. unfold heightOf. by rewrite Hheights, Hh2', Fh. }
  transitivity (blockchainHead (fst (applyConsensusRules (blockId b) st2))).
  { subst st'. by rewrite Heq. }
  rewrite applyConsensusRules_head.
  by rewrite Hhead, !Hht, Hh2, Fhead.
Qed.

(** C1.  On a store that a history of operations has produced, when
    [addBlock] accepts a regular block [b] and a head exists, [b] becomes
    the head exactly when its height is greater than the head's, or equal
    with a hash that is smaller in the lexicographic order; otherwise the
    head stays, and in both cases [b] is stored under its hash. *)
Theorem consensus_rule (b : Block.t) (st : InventoryManager) :
  reachable st ->
  snd (addBlock b st) = true ->
  flag (Block.isGenesis b) = false ->
  truthy (headOf st) = true ->
  let st' := fst (addBlock b st) in
  let wins :=
    heightOf st (headOf st) < heightOf st' (blockId b)
    \/ (heightOf st' (blockId b) = heightOf st (headOf st)
        /\ String.ltb (blockId b) (headOf st) = true) in
  (blockchainHead st' = Some (blockId b) <-> wins)
  /\ (~ wins -> blockchainHead st' = blockchainHead st)
  /\ blocks st' !! blockId b = Some (Block.with_hash (blockId b) b).
Proof.
  intros Hreach Hok Hg Hhead st' wins.
  pose proof (addBlock_regular_head b st Hok Hg) as (Hb & Hh & _ & Hd).
  fold st' in Hb, Hh, Hd.
  assert (Hne : headOf st <> blockId b).
  { intros Heq.
    apply addBlock_accepts in Hok as (Hunseen & _).
    apply Hunseen. apply (reachable_headSeen st Hreach).
    unfold headOf in Heq, Hhead. destruct (blockchainHead st); [| done].
    simpl in Heq. by subst. }
  assert (Hsame : heightOf st' (headOf st) = heightOf st (headOf st)).
  { unfold heightOf. rewrite Hh. by apply getOr0_insert_ne. }
  assert (Hcur : blockchainHead st = Some (headOf st)).
  { unfold headOf in *. destruct (blockchainHead st); [done | discriminate]. }
  rewrite Hhead, Hsame in Hd. simpl in Hd.
  split; [| split].
  - rewrite Hd. subst wins.
    destruct (heightOf st (headOf st) <? heightOf st' (blockId b)) eqn:Hlt.
    { apply Z.ltb_lt in Hlt. split; [tauto | done]. }
    apply Z.ltb_ge in Hlt.
    destruct (heightOf st' (blockId b) =? heightOf st (headOf st)) eqn:Heq; simpl.
    + apply Z.eqb_eq in Heq.
      destruct (String.ltb (blockId b) (headOf st)) eqn:Hlex; [tauto |].
      rewrite Hcur. split.
      * intros [= Hbad]. congruence.
      * intros [? | [_ ?]]; [lia | discriminate].
    + apply Z.eqb_neq in Heq. rewrite Hcur. split.
      * intros [= Hbad]. congruence.
      * intros [? | [? _]]; [lia | congruence].
  - intros Hnot. rewrite Hd. subst wins.
    destruct (heightOf st (headOf st) <? heightOf st' (blockId b)) eqn:Hlt.
    { apply Z.ltb_lt in Hlt. tauto. }
    destruct (heightOf st' (blockId b) =? heightOf st (headOf st)) eqn:Heq; simpl; [| done].
    apply Z.eqb_eq in Heq.
    destruct (String.ltb (blockId b) (headOf st)) eqn:Hlex; [tauto | done].
  - rewrite Hb. apply lookup_insert_eq.
Qed.

(** The rule at work: [blockB] ties with the head [blockA] at height 1 and
    has the smaller hash, so it becomes the head. *)
Lemma consensus_rule_witness :
  reachable storeA
  /\ snd (addBlock blockB storeA) = true
  /\ flag (Block.isGenesis blockB) = false
  /\ truthy (headOf storeA) = true
  /\ heightOf (fst (addBlock blockB storeA)) (blockId blockB) = heightOf storeA (headOf storeA)
  /\ String.ltb (blockId blockB) (headOf storeA) = true
  /\ blockchainHead (fst (addBlock blockB storeA)) = Some (blockId blockB).
Proof.
  pose proof reachable_storeA as Hreach.
  assert (Hok : snd (addBlock blockB storeA) = true) by (vm_compute; reflexivity).
  assert (Hg : flag (Block.isGenesis blockB) = false) by reflexivity.
  assert (Hhead : truthy (headOf storeA) = true) by (vm_compute; reflexivity).
  assert (Heq : heightOf (fst (addBlock blockB storeA)) (blockId blockB)
                = heightOf storeA (headOf storeA)) by (vm_compute; reflexivity).
  assert (Hlex : String.ltb (blockId blockB) (headOf storeA) = true)
    by (vm_compute; reflexivity).
  repeat (split; [assumption |]).
  apply (proj1 (consensus_rule blockB storeA Hreach Hok Hg Hhead)).
  right. split; assumption.
Defined.

(** ** Merkle root *)

Lemma pairAdjacent_length (n : nat) (level : list string) :
  length level = (2 * n)%nat -> length (pairAdjacent level) = n.
Proof.
  revert level. induction n as [| n IH]; intros level Hlen.
  - by destruct level.
  - destruct level as [| a [| b rest]]; simpl in Hlen; try lia.
    simpl. f_equal. apply IH. lia.
Qed.

(** The index loop reads the pairs that the structural recursion reads. *)
Lemma pairLoop_pairAdjacent (hs : list string) (n : nat) :
  forall (fuel i : nat) (newHashes : list string),
    length hs = (i + 2 * n)%nat -> (n <= fuel)%nat ->
    pairLoop fuel hs i newHashes = newHashes ++ pairAdjacent (drop i hs).
Proof.
  induction n as [| n IH]; intros fuel i acc Hlen Hfuel.
  - rewrite drop_ge by lia. rewrite app_nil_r.
    destruct fuel; simpl; [done |].
    destruct (i <? length hs)%nat eqn:Hi; [| done].
    apply Nat.ltb_lt in Hi. lia.
  - destruct fuel as [| fuel]; [lia |]. simpl.
    destruct (i <? length hs)%nat eqn:Hi.
    2:{ apply Nat.ltb_ge in Hi. lia. }
    destruct (lookup_lt_is_Some_2 hs i) as [a Ha]; [lia |].
    destruct (lookup_lt_is_Some_2 hs (i + 1)) as [b Hb]; [lia |].
    rewrite (IH fuel (i + 2)%nat) by lia.
    rewrite (drop_S hs a i Ha).
    replace (S i) with (i + 1)%nat by lia.
    rewrite (drop_S hs b (i + 1) Hb).
    replace (S (i + 1)) with (i + 2)%nat by lia.
    unfold at_index. rewrite Ha, Hb. simpl.
    by rewrite <- app_assoc.
Qed.

Lemma odd_mod2 (n : nat) : negb (Nat.eqb (n mod 2) 0) = Nat.odd n.
Proof.
  pose proof (Nat.div_mod_eq n 2) as Hdiv.
  pose proof (Nat.mod_upper_bound n 2) as Hlt.
  destruct (Nat.odd n) eqn:Hodd.
  - apply Nat.odd_spec in Hodd as [m Hm].
    apply negb_true_iff, Nat.eqb_neq. lia.
  - apply negb_false_iff, Nat.eqb_eq.
    assert (Heven : Nat.even n = true).
    { rewrite <- Nat.negb_odd, Hodd. reflexivity. }
    apply Nat.even_spec in Heven as [m Hm]. lia.
Qed.

Lemma at_index_last (level : list string) (d : string) :
  level <> [] -> at_index level (length level - 1) = List.last level d.
Proof.
  induction level as [| a rest IH]; [done |]. intros _.
  destruct rest as [| b rest']; [done |].
  change (List.last (a :: b :: rest') d) with (List.last (b :: rest') d).
  rewrite <- IH by done.
  unfold at_index. simpl. by rewrite Nat.sub_0_r.
Qed.

Lemma duplicateLastIfOdd_length (level : list string) :
  exists n, length (duplicateLastIfOdd level) = (2 * n)%nat
            /\ (length level <= 2 * n <= length level + 1)%nat.
Proof.
  unfold duplicateLastIfOdd.
  destruct (Nat.odd (length level)) eqn:Hodd.
  - apply Nat.odd_spec in Hodd as [m Hm].
    exists (S m). rewrite length_app. simpl. lia.
  - assert (Heven : Nat.even (length level) = true).
    { rewrite <- Nat.negb_odd, Hodd. reflexivity. }
    apply Nat.even_spec in Heven as [m Hm]. exists m. lia.
Qed.

(** One iteration of the miner's [while] loop is one level of the
    specification's reduction. *)
Lemma merkleStep_level (level : list string) :
  merkleStep level = pairAdjacent (duplicateLastIfOdd level).
Proof.
  unfold merkleStep.
  assert (Hpad : (if negb (Nat.eqb (length level mod 2) 0)
                  then level ++ [at_index level (length level - 1)]
                  else level) = duplicateLastIfOdd level).
  { unfold duplicateLastIfOdd. rewrite odd_mod2.
    destruct (Nat.odd (length level)) eqn:Hodd; [| done].
    rewrite (at_index_last level EmptyString); [done |].
    intros ->. discriminate. }
  rewrite Hpad.
  destruct (duplicateLastIfOdd_length level) as (n & Hn & _).
  rewrite (pairLoop_pairAdjacent _ n) by lia.
  by rewrite drop_0.
Qed.

Lemma merkleStep_length (level : list string) :
  (1 < length level)%nat ->
  (1 <= length (merkleStep level) < length level)%nat.
Proof.
  intros Hlen. rewrite merkleStep_level.
  destruct (duplicateLastIfOdd_length level) as (n & Hn & Hbound).
  rewrite (pairAdjacent_length n) by done. lia.
Qed.

(** With as much fuel as there are leaves the loop ends on one hash, the
    root of the specification's reduction. *)
Lemma merkleLoop_root (fuel : nat) :
  forall level : list string,
    (1 <= length level <= fuel)%nat ->
    exists root, merkleLoop fuel level = Some [root] /\ MerkleRoot level root.
Proof.
  induction fuel as [| fuel IH]; intros level Hlen; [lia |].
  simpl. destruct (1 <? length level)%nat eqn:Hmore.
  - apply Nat.ltb_lt in Hmore.
    pose proof (merkleStep_length level Hmore) as Hstep.
    destruct (IH (merkleStep level)) as (root & Hloop & Hroot); [lia |].
    exists root. split; [done |].
    apply MerkleRoot_level; [done |]. by rewrite <- merkleStep_level.
  - apply Nat.ltb_ge in Hmore.
    destruct level as [| h [| h' rest]]; simpl in *; try lia.
    exists h. split; [done | constructor].
Qed.

(** The reduction of the specification has one result. *)
Lemma MerkleRoot_unique (level : list string) (r1 r2 : string) :
  MerkleRoot level r1 -> MerkleRoot level r2 -> r1 = r2.
Proof.
  intros H1. revert r2.
  induction H1 as [h | level root Hlen _ IH]; intros r2 H2.
  - inversion H2 as [| ? ? Hlen' _]; subst; [done |]. simpl in Hlen'. lia.
  - inversion H2 as [| ? ? _ Hrest]; subst; [simpl in Hlen; lia |].
    by apply IH.
Qed.

(** C9.  [getMerkleRoot] returns the empty string for no transactions; for
    a non-empty list it returns, without running out of iterations, the
    hash that remains when the leaves (the hash of each transaction's JSON)
    are reduced level by level, the last hash duplicated on odd levels and
    adjacent pairs hashed together; that hash is unique. *)
Theorem getMerkleRoot_spec :
  getMerkleRoot [] = Some EmptyString
  /\ forall (tx : Tx.t) (txs : list Tx.t),
       exists root,
         getMerkleRoot (tx :: txs) = Some root
         /\ MerkleRoot (leaves (tx :: txs)) root
         /\ forall root', MerkleRoot (leaves (tx :: txs)) root' -> root' = root.
Proof.
  split; [reflexivity |].
  intros tx txs.
  destruct (merkleLoop_root (length (leaves (tx :: txs))) (leaves (tx :: txs)))
    as (root & Hloop & Hroot).
  { unfold leaves. rewrite length_fmap. simpl. lia. }
  exists root. split; [| split].
  - unfold getMerkleRoot. fold (leaves (tx :: txs)).
    change (Nat.eqb (length (tx :: txs)) 0) with false. cbv iota.
    by rewrite Hloop.
  - exact Hroot.
  - intros root' Hroot'. by apply (MerkleRoot_unique _ _ _ Hroot' Hroot).
Qed.

(** ** Heights *)

Lemma syncBlock_indexed (st : InventoryManager) (b : Block.t) :
  dom (blocks st) ⊆ seenMessages st ->
  dom (blocks (syncBlock st b)) ⊆ seenMessages (syncBlock st b)
  /\ dom (blocks st) ⊆ dom (blocks (syncBlock st b)).
Proof.
  unfold syncBlock. intros Hinv.
  destruct (negb _); simpl; [| done].
  rewrite dom_insert_L. split; set_solver.
Qed.

Lemma syncWithPeer_indexed (txs : list Tx.t)
    (answers : list (string * option (list Block.t))) (st : InventoryManager) :
  dom (blocks st) ⊆ seenMessages st ->
  dom (blocks (syncWithPeer txs answers st)) ⊆ seenMessages (syncWithPeer txs answers st)
  /\ dom (blocks st) ⊆ dom (blocks (syncWithPeer txs answers st)).
Proof.
  set (R := fun s s' : InventoryManager =>
              dom (blocks s) ⊆ seenMessages s ->
              dom (blocks s') ⊆ seenMessages s' /\ dom (blocks s) ⊆ dom (blocks s')).
  assert (Hrefl : forall s, R s s) by (intros s; unfold R; done).
  assert (Htrans : forall a b c, R a b -> R b c -> R a c).
  { unfold R. intros a b c Hab Hbc Ha.
    destruct (Hab Ha) as [Hb Hsub]. destruct (Hbc Hb) as [Hc Hsub'].
    split; [done | by etrans]. }
  assert (Hfold : forall B (f : InventoryManager -> B -> InventoryManager) l s,
             (forall s x, R s (f s x)) -> R s (fold_left f l s)).
  { intros B f l. induction l as [| x l IH]; intros s Hf; simpl; [apply Hrefl |].
    eapply Htrans; [apply Hf | by apply IH]. }
  change (R st (syncWithPeer txs answers st)). unfold syncWithPeer.
  eapply Htrans.
  - apply Hfold. intros s x Hs.
    pose proof (syncTransaction_frame s x) as (Hb & _ & _ & _ & Hseen).
    simpl in Hb, Hseen. rewrite Hb. split; [by etrans | done].
  - apply Hfold. intros s [blockId' answer]. unfold syncBlockId. simpl.
    destruct (_ && _); [| apply Hrefl].
    destruct answer as [bs |]; [| apply Hrefl].
    apply Hfold. intros s' x. unfold R. apply syncBlock_indexed.
Qed.

Lemma assignedHeight_positive (h : string) (st : InventoryManager) :
  (forall k v, blockHeights st !! k = Some v -> 0 <= v) -> 0 < assignedHeight h st.
Proof.
  intros Hpos. unfold assignedHeight.
  destruct (blockHeights st !! h) as [p |] eqn:Hp; [| done].
  specialize (Hpos h p Hp).
  destruct (nonzero p); [| done].
  destruct (p =? -1); lia.
Qed.

Lemma heights_insert_nonneg (m : gmap string Z) (k : string) (v : Z) :
  (forall k' v', m !! k' = Some v' -> 0 <= v') -> 0 <= v ->
  forall k' v', <[k := v]> m !! k' = Some v' -> 0 <= v'.
Proof.
  intros Hm Hv k' v' Hlookup.
  apply lookup_insert_Some in Hlookup as [[_ <-] | [_ Hold]]; [done |].
  by apply (Hm k').
Qed.

Lemma step_indexed (st : InventoryManager) (op : Op) :
  indexed st -> indexed (step st op).
Proof.
  unfold indexed. intros (Hh & Hb & Hpos).
  destruct op as [nodeId now | b | tx | txs answers]; simpl.
  - destruct (createGenesisBlock_cases nodeId now st)
      as [[_ ->] | (_ & _ & g & blk & _ & ->)]; simpl; [done |].
    rewrite !dom_insert_L.
    split; [set_solver |]. split; [set_solver |].
    by apply heights_insert_nonneg.
  - destruct (snd (addBlock b st)) eqn:Hok.
    2:{ by rewrite (addBlock_rejected b st Hok). }
    destruct (flag (Block.isGenesis b)) eqn:Hg.
    + destruct (addBlock_genesis b st Hok Hg) as (-> & -> & _ & -> & _).
      rewrite !dom_insert_L.
      split; [set_solver |]. split; [set_solver |].
      by apply heights_insert_nonneg.
    + destruct (addBlock_regular_head b st Hok Hg) as (-> & -> & -> & _).
      rewrite !dom_insert_L.
      split; [set_solver |]. split; [set_solver |].
      apply heights_insert_nonneg; [done |].
      pose proof (assignedHeight_positive (Block.previousHash b) st Hpos). lia.
  - pose proof (addTransaction_chain tx st) as (-> & -> & _).
    split; [done |]. split; [| done]. etrans; [exact Hb |].
    unfold addTransaction.
    destruct (has _ _); simpl; [done |].
    destruct (negb _); simpl; [done | set_solver].
  - pose proof (syncWithPeer_frame txs answers st) as (Hh' & _).
    pose proof (syncWithPeer_indexed txs answers st Hb) as [Hb' Hsub].
    simpl in Hh'. rewrite Hh'. split; [by etrans | done].
Qed.

Lemma reachable_indexed (st : InventoryManager) : reachable st -> indexed st.
Proof.
  intros [ops <-]. apply exec_invariant; [apply step_indexed |].
  unfold indexed. simpl. split; [done |]. split; [done |].
  intros k v Hk. by rewrite lookup_empty in Hk.
Qed.

(** A recorded height is never revised. *)
Lemma step_height_stable (st : InventoryManager) (op : Op) (k : string) (v : Z) :
  indexed st -> blockHeights st !! k = Some v -> blockHeights (step st op) !! k = Some v.
Proof.
  intros (Hh & Hb & _) Hk.
  assert (Hdom : k ∈ dom (blockHeights st)) by (apply elem_of_dom; eauto).
  destruct op as [nodeId now | b | tx | txs answers]; simpl.
  - destruct (createGenesisBlock_cases nodeId now st)
      as [[_ ->] | (_ & Hempty & g & blk & _ & ->)]; simpl; [done |].
    rewrite Hempty, dom_empty_L in Hh. set_solver.
  - destruct (snd (addBlock b st)) eqn:Hok.
    2:{ by rewrite (addBlock_rejected b st Hok). }
    assert (Hne : blockId b <> k).
    { intros Heq. subst k. apply addBlock_accepts in Hok as (Hunseen & _). set_solver. }
    destruct (flag (Block.isGenesis b)) eqn:Hg.
    + destruct (addBlock_genesis b st Hok Hg) as (_ & _ & _ & -> & _).
      by rewrite lookup_insert_ne.
    + destruct (addBlock_regular_head b st Hok Hg) as (_ & -> & _).
      by rewrite lookup_insert_ne.
  - by pose proof (addTransaction_chain tx st) as (_ & -> & _).
  - pose proof (syncWithPeer_frame txs answers st) as (Hh' & _).
    simpl in Hh'. by rewrite Hh'.
Qed.

Lemma exec_height_stable (ops : list Op) (st : InventoryManager) (k : string) (v : Z) :
  indexed st -> blockHeights st !! k = Some v -> blockHeights (exec ops st) !! k = Some v.
Proof.
  revert st. induction ops as [| op ops IH]; intros st Hinv Hk; simpl; [done |].
  apply IH; [by apply step_indexed | by apply step_height_stable].
Qed.

Lemma assignedHeight_known (h : string) (st : InventoryManager) (p : Z) :
  blockHeights st !! h = Some p -> p <> -1 -> assignedHeight h st = p + 1.
Proof.
  intros Hp Hne. unfold assignedHeight. rewrite Hp.
  destruct (nonzero p) eqn:Hnz.
  - apply Z.eqb_neq in Hne. by rewrite Hne.
  - apply negb_false_iff, Z.eqb_eq in Hnz. by subst p.
Qed.

Lemma assignedHeight_unknown (h : string) (st : InventoryManager) :
  blockHeights st !! h = None -> assignedHeight h st = 1.
Proof. intros Hp. unfold assignedHeight. by rewrite Hp. Qed.

(** C7, as the code has it.  When [addBlock] accepts a regular block on a
    store that a history has produced, its height is the recorded height of
    its parent plus one, and 1 when the parent has no recorded height
    (orphan); no later operation revises it, so an orphan keeps height 1
    when its parent arrives. *)
Theorem height_at_insertion (b : Block.t) (st : InventoryManager) :
  reachable st ->
  snd (addBlock b st) = true ->
  flag (Block.isGenesis b) = false ->
  let st' := fst (addBlock b st) in
  (forall p, blockHeights st !! Block.previousHash b = Some p ->
             blockHeights st' !! blockId b = Some (p + 1))
  /\ (blockHeights st !! Block.previousHash b = None ->
      blockHeights st' !! blockId b = Some 1)
  /\ (forall ops, blockHeights (exec ops st') !! blockId b = blockHeights st' !! blockId b).
Proof.
  intros Hreach Hok Hg st'.
  pose proof (addBlock_regular_head b st Hok Hg) as (_ & Hh & _).
  fold st' in Hh.
  pose proof (reachable_indexed st Hreach) as Hindexed.
  assert (Hnew : blockHeights st' !! blockId b
                 = Some (assignedHeight (Block.previousHash b) st)).
  { rewrite Hh. apply lookup_insert_eq. }
  split; [| split].
  - intros p Hp. rewrite Hnew, (assignedHeight_known _ _ p); [done | done |].
    destruct Hindexed as (_ & _ & Hpos). specialize (Hpos _ _ Hp). lia.
  - intros Hp. by rewrite Hnew, assignedHeight_unknown.
  - intros ops. rewrite Hnew. apply exec_height_stable; [| done].
    by apply (step_indexed st (AddBlock b)).
Qed.

(** [blockP] extends [blockA], recorded at height 1, and is filed at height 2. *)
Lemma height_at_insertion_witness :
  reachable storeA
  /\ snd (addBlock blockP storeA) = true
  /\ flag (Block.isGenesis blockP) = false
  /\ blockHeights storeA !! Block.previousHash blockP = Some 1
  /\ blockHeights (fst (addBlock blockP storeA)) !! blockId blockP = Some 2.
Proof.
  pose proof reachable_storeA as Hreach.
  assert (Hok : snd (addBlock blockP storeA) = true) by (vm_compute; reflexivity).
  assert (Hg : flag (Block.isGenesis blockP) = false) by reflexivity.
  assert (Hp : blockHeights storeA !! Block.previousHash blockP = Some 1)
    by (vm_compute; reflexivity).
  repeat (split; [assumption |]).
  apply (proj1 (height_at_insertion blockP storeA Hreach Hok Hg) 1 Hp).
Defined.

(** C7, as stated, fails: [blockC] arrives before its parent [blockP] and
    is filed at height 1; [blockP] then arrives at height 2, and [blockC]
    is still at height 1, not 3. *)
Lemma height_invariant_counterexample :
  reachable storeOrphan
  /\ blocks storeOrphan !! Block.hash blockC = Some blockC
  /\ blocks storeOrphan !! Block.previousHash blockC = Some blockP
  /\ blockHeights storeOrphan !! Block.hash blockC = Some 1
  /\ blockHeights storeOrphan !! Block.previousHash blockC = Some 2
  /\ ~ heightInvariant storeOrphan.
Proof.
  assert (HC : blocks storeOrphan !! Block.hash blockC = Some blockC)
    by (vm_compute; reflexivity).
  assert (HP : blocks storeOrphan !! Block.previousHash blockC = Some blockP)
    by (vm_compute; reflexivity).
  split.
  { apply reachable_exec, reachable_storeA. }
  split; [exact HC |]. split; [exact HP |].
  split; [vm_compute; reflexivity |]. split; [vm_compute; reflexivity |].
  intros Hinv.
  specialize (Hinv (Block.hash blockC) blockC HC eq_refl (ex_intro _ blockP HP)).
  vm_compute in Hinv. discriminate.
Qed.

(** ** Hash identity *)

(** C4, as the code has it.  The recomputed hash is never compared with
    the claimed one: a block is accepted exactly when neither hash was seen
    and it is a genesis block or a regular block whose recomputed hash has
    four leading zeros and whose transactions validate; an accepted block is
    stored under its claimed hash when it has one; a rejected block leaves
    the store as it was. *)
Theorem hash_identity_not_enforced (b : Block.t) (st : InventoryManager) :
  (snd (addBlock b st) = true <->
     (blockId b ∉ seenMessages st) /\ (calculateBlockHash b ∉ seenMessages st)
     /\ (flag (Block.isGenesis b) = true
         \/ (flag (Block.isGenesis b) = false
             /\ String.prefix "0000" (calculateBlockHash b) = true
             /\ exists txs, Block.transactions b = Some txs
                            /\ validateTxs (balances st) txs = true)))
  /\ (snd (addBlock b st) = true ->
        blocks (fst (addBlock b st)) !! blockId b = Some (Block.with_hash (blockId b) b)
        /\ (Block.hash b <> EmptyString -> blockId b = Block.hash b))
  /\ (snd (addBlock b st) = false -> fst (addBlock b st) = st).
Proof.
  split; [apply addBlock_accepts |]. split; [| apply addBlock_rejected].
  intros Hok. split.
  - destruct (flag (Block.isGenesis b)) eqn:Hg.
    + destruct (addBlock_genesis b st Hok Hg) as (-> & _). apply lookup_insert_eq.
    + destruct (addBlock_regular_head b st Hok Hg) as (-> & _). apply lookup_insert_eq.
  - intros Hclaimed. unfold blockId.
    apply truthy_true in Hclaimed. by rewrite Hclaimed.
Qed.

(** C4, as stated, fails: [blockForged] claims a hash that is not the hash
    of its content, and [addBlock] files it under the claimed hash. *)
Lemma hash_identity_counterexample :
  calculateBlockHash blockForged <> Block.hash blockForged
  /\ snd (addBlock blockForged store1) = true
  /\ blocks (fst (addBlock blockForged store1)) !! Block.hash blockForged = Some blockForged
  /\ blocks store1 !! Block.hash blockForged = None.
Proof.
  split; [vm_compute; discriminate |].
  repeat split; vm_compute; reflexivity.
Qed.

(** ** Proof of work *)

Lemma calculateBlockHash_with_hash (h : string) (b : Block.t) :
  calculateBlockHash (Block.with_hash h b) = calculateBlockHash b.
Proof. by destruct b. Qed.

(** Filing a block through [addBlock] keeps the proof-of-work invariant. *)
Lemma addBlock_powInvariant (b : Block.t) (st : InventoryManager) :
  powInvariant st -> powInvariant (fst (addBlock b st)).
Proof.
  intros Hinv.
  destruct (snd (addBlock b st)) eqn:Hok.
  2:{ by rewrite (addBlock_rejected b st Hok). }
  pose proof (proj1 (addBlock_accepts b st) Hok) as (_ & _ & Hkind).
  intros h b' Hlookup Hregular.
  assert (Hcases : b' = Block.with_hash (blockId b) b \/ blocks st !! h = Some b').
  { destruct (flag (Block.isGenesis b)) eqn:Hg.
    - destruct (addBlock_genesis b st Hok Hg) as (Hb & _). rewrite Hb in Hlookup.
      apply lookup_insert_Some in Hlookup as [[_ <-] | [_ ?]]; auto.
    - destruct (addBlock_regular_head b st Hok Hg) as (Hb & _). rewrite Hb in Hlookup.
      apply lookup_insert_Some in Hlookup as [[_ <-] | [_ ?]]; auto. }
  destruct Hcases as [-> | Hold]; [| by apply (Hinv h)].
  rewrite calculateBlockHash_with_hash.
  destruct Hkind as [Hg | (_ & Hpow & _)]; [| done].
  change (flag (Block.isGenesis b) = false) in Hregular. congruence.
Qed.

Lemma addTransaction_powInvariant (tx : Tx.t) (st : InventoryManager) :
  powInvariant st -> powInvariant (fst (addTransaction tx st)).
Proof.
  intros Hinv h b. pose proof (addTransaction_chain tx st) as (-> & _). apply Hinv.
Qed.

(** The [/sync] handler files blocks through [addBlock], so it keeps the
    invariant as well. *)
Lemma handleInventorySync_powInvariant (bs : list Block.t) (txs : list Tx.t)
    (st : InventoryManager) :
  powInvariant st -> powInvariant (fst (handleInventorySync bs txs st)).
Proof.
  intros Hinv. unfold handleInventorySync.
  assert (Hblocks : forall (acc : InventoryManager * nat),
            powInvariant (fst acc) ->
            powInvariant
              (fst (fold_left
                      (fun acc b =>
                         let '(st', ok) := addBlock b (fst acc) in
                         (st', if ok then S (snd acc) else snd acc)) bs acc))).
  { induction bs as [| b bs IH]; intros acc Hacc; simpl; [done |].
    apply IH. pose proof (addBlock_powInvariant b (fst acc) Hacc) as Hstep.
    by destruct (addBlock b (fst acc)). }
  assert (Htxs : forall (acc : InventoryManager * nat),
            powInvariant (fst acc) ->
            powInvariant
              (fst (fold_left
                      (fun acc tx =>
                         let '(st', ok) := addTransaction tx (fst acc) in
                         (st', if ok then S (snd acc) else snd acc)) txs acc))).
  { induction txs as [| tx txs IH]; intros acc Hacc; simpl; [done |].
    apply IH. pose proof (addTransaction_powInvariant tx (fst acc) Hacc) as Hstep.
    by destruct (addTransaction tx (fst acc)). }
  specialize (Hblocks (st, O) Hinv).
  destruct (fold_left _ bs (st, O)) as [st1 addedBlocks]. simpl in Hblocks.
  specialize (Htxs (st1, O) Hblocks).
  destruct (fold_left _ txs (st1, O)) as [st2 addedTransactions]. exact Htxs.
Qed.

(** C5 fails on the periodic synchronisation: on the store that holds the
    genesis block only, the answer of a peer that lists [blockX] puts it
    in [blocks], although its recomputed hash has no leading zeros and
    [addBlock] rejects the same block. *)
Theorem sync_stores_block_without_pow :
  powInvariant store0
  /\ flag (Block.isGenesis blockX) = false
  /\ String.prefix "0000" (calculateBlockHash blockX) = false
  /\ snd (addBlock blockX store0) = false
  /\ blocks (syncWithPeer [] [(Block.hash blockX, Some [blockX])] store0)
       !! Block.hash blockX = Some blockX
  /\ ~ powInvariant (syncWithPeer [] [(Block.hash blockX, Some [blockX])] store0).
Proof.
  assert (Hstored : blocks (syncWithPeer [] [(Block.hash blockX, Some [blockX])] store0)
                      !! Block.hash blockX = Some blockX) by (vm_compute; reflexivity).
  assert (Hnopow : String.prefix "0000" (calculateBlockHash blockX) = false)
    by (vm_compute; reflexivity).
  split.
  { intros h b Hlookup Hregular. exfalso.
    assert (Hgen : blocks store0 = {[genesisHash :=
                Block.mk (Some true) zeroHash genesisTime "0" "n1" EmptyString 0 (Some [])
                  genesisHash]}) by (vm_compute; reflexivity).
    rewrite Hgen in Hlookup. apply lookup_singleton_Some in Hlookup as [_ <-].
    discriminate Hregular. }
  split; [reflexivity |]. split; [exact Hnopow |].
  split; [vm_compute; reflexivity |]. split; [exact Hstored |].
  intros Hinv. specialize (Hinv _ _ Hstored eq_refl). congruence.
Qed.

(** ** Genesis *)

(** C6 fails on a second genesis block: the store already holds the genesis
    block of [n1]; [addBlock] accepts [genesis2], makes it the head at
    height 0 and sets the balance of [n2] to 100. *)
Theorem second_genesis_accepted :
  genesisCreated store0 = true
  /\ blockchainHead store0 = Some genesisHash
  /\ Block.hash genesis2 <> genesisHash
  /\ snd (addBlock genesis2 store0) = true
  /\ blockchainHead (fst (addBlock genesis2 store0)) = Some (Block.hash genesis2)
  /\ blockHeights (fst (addBlock genesis2 store0)) !! Block.hash genesis2 = Some 0
  /\ balances store0 !! "n2" = None
  /\ balances (fst (addBlock genesis2 store0)) !! "n2" = Some (JS.of_Z 100)
  /\ balances (fst (addBlock genesis2 store0)) !! "n1" = Some (JS.of_Z 100).
Proof.
  split; [vm_compute; reflexivity |]. split; [vm_compute; reflexivity |].
  split; [discriminate |].
  repeat split; vm_compute; reflexivity.
Qed.

(** ** Reorganization: what the roll-back does *)

Lemma txsOfChain_blocks (s s' : InventoryManager) (hs : list string) :
  blocks s' = blocks s -> txsOfChain s' hs = txsOfChain s hs.
Proof.
  intros Hb. unfold txsOfChain. f_equal.
  apply list_fmap_ext. intros _ h _. unfold txsOf. by rewrite Hb.
Qed.

Lemma rollbackBlock_txs (st : InventoryManager) (h : string) :
  rollbackBlock st h = fold_left rollbackTx (txsOf st h) st.
Proof.
  unfold rollbackBlock, txsOf.
  destruct (blocks st !! h) as [b |]; [| done].
  by destruct (Block.transactions b).
Qed.

Lemma rollbackBlocks_txs (hs : list string) (st : InventoryManager) :
  fold_left rollbackBlock hs st = fold_left rollbackTx (txsOfChain st hs) st.
Proof.
  revert st. induction hs as [| h hs IH]; intros st; [done |].
  simpl. rewrite IH, rollbackBlock_txs.
  change (txsOfChain st (h :: hs)) with (txsOf st h ++ txsOfChain st hs).
  rewrite fold_left_app. f_equal.
  apply txsOfChain_blocks. apply rollbackTxs_frame.
Qed.

Lemma applyBlock_txs (st : InventoryManager) (h : string) :
  applyBlock st h = processBlockTransactions (txsOf st h) st.
Proof.
  unfold applyBlock, txsOf.
  destruct (blocks st !! h) as [b |]; [| done].
  by destruct (Block.transactions b).
Qed.

Lemma applyBlocks_txs (hs : list string) (st : InventoryManager) :
  fold_left applyBlock hs st = processBlockTransactions (txsOfChain st hs) st.
Proof.
  revert st. induction hs as [| h hs IH]; intros st; [done |].
  simpl. rewrite IH, applyBlock_txs.
  change (txsOfChain st (h :: hs)) with (txsOf st h ++ txsOfChain st hs).
  unfold processBlockTransactions. rewrite fold_left_app. f_equal.
  apply txsOfChain_blocks. apply processBlockTransactions_frame.
Qed.

(** The roll-back of one transaction reads both balances, then writes
    both. *)
Lemma rollbackTx_balances (st : InventoryManager) (tx : Tx.t) :
  balances (rollbackTx st tx)
  = if effective tx then
      <[Tx.receiver tx :=
          JS.minus (balanceOr0 (balances st) (Tx.receiver tx)) (Tx.amount tx)]>
        (<[Tx.sender tx :=
             JS.plus (balanceOr0 (balances st) (Tx.sender tx)) (Tx.amount tx)]>
           (balances st))
    else balances st.
Proof. unfold rollbackTx. fold (effective tx). by destruct (effective tx). Qed.

(** When it does not round, the roll-back of one transaction between two
    distinct accounts credits the sender and debits the receiver. *)
Lemma rollbackTx_balance (st : InventoryManager) (tx : Tx.t) (a : string) :
  selfTransfer tx = false ->
  exactRollbackTx st tx = true ->
  unitsOf (balanceOr0 (balances (rollbackTx st tx)) a)
  = unitsOf (balanceOr0 (balances st) a) + outflow a [tx] - inflow a [tx].
Proof.
  unfold selfTransfer. intros Hself Hexact. apply String.eqb_neq in Hself.
  rewrite rollbackTx_balances. unfold exactRollbackTx in Hexact. simpl.
  destruct (effective tx); simpl; [| lia].
  apply andb_true_iff in Hexact as [Hsum Hdiff].
  apply exactSum_units in Hsum as (s & y & Hs & Hy & Hs').
  apply exactDifference_units in Hdiff as (r & y' & Hr & Hy' & Hr').
  assert (y' = y) by congruence. subst y'.
  rewrite (unitsOf_units _ _ Hy).
  destruct (String.eqb_spec (Tx.receiver tx) a) as [<- | Hra].
  - rewrite (unitsOf_units _ _ (units_balanceOr0_insert _ _ _ _ Hr')).
    rewrite (unitsOf_units _ _ Hr).
    destruct (String.eqb_spec (Tx.sender tx) (Tx.receiver tx)); [done | lia].
  - rewrite balanceOr0_insert_ne by done.
    destruct (String.eqb_spec (Tx.sender tx) a) as [<- | Hsa].
    + rewrite (unitsOf_units _ _ (units_balanceOr0_insert _ _ _ _ Hs')).
      rewrite (unitsOf_units _ _ Hs). lia.
    + rewrite balanceOr0_insert_ne by done. lia.
Qed.

Lemma rollbackTxs_balance (txs : list Tx.t) (st : InventoryManager) (a : string) :
  noSelfTransfer txs = true ->
  exactlyRolledBack txs st = true ->
  unitsOf (balanceOr0 (balances (fold_left rollbackTx txs st)) a)
  = unitsOf (balanceOr0 (balances st) a) + outflow a txs - inflow a txs.
Proof.
  revert st. induction txs as [| tx txs IH]; intros st Hclean Hexact; simpl; [lia |].
  simpl in Hclean. apply andb_true_iff in Hclean as [Htx Hrest].
  apply negb_true_iff in Htx.
  apply andb_true_iff in Hexact as [Hfirst Hlater].
  rewrite IH by done. rewrite (rollbackTx_balance st tx a Htx Hfirst). simpl. lia.
Qed.

Lemma processTx_pending (st : InventoryManager) (tx : Tx.t) :
  transactions (processTx st tx) ⊆ transactions st.
Proof.
  unfold processTx.
  destruct (negb (truthy (Tx.sender tx)) || negb (truthy (Tx.receiver tx))
            || negb (JS.truthy (Tx.amount tx))); [done |].
  match goal with |- context [if ?c then _ else _] => destruct c end; simpl; [| done].
  apply delete_subseteq.
Qed.

Lemma processBlockTransactions_pending (txs : list Tx.t) (st : InventoryManager) :
  transactions (processBlockTransactions txs st) ⊆ transactions st.
Proof.
  unfold processBlockTransactions. revert st.
  induction txs as [| tx txs IH]; intros st; simpl; [done |].
  etrans; [apply IH | apply processTx_pending].
Qed.

(** C3, as the code has it.  A reorganization rolls back, transaction by
    transaction, the blocks of the abandoned branch past the common prefix:
    for each transaction with a sender, a receiver and a truthy amount it
    reads both balances and then sets the sender's to [balance + amount] and
    the receiver's to [balance - amount].  It restores nothing: the
    roll-back leaves the pending pool as it was, and re-applying the new
    branch only removes entries.  Where no update rounds and no transaction
    of the abandoned branch is a transfer from an account to itself, every
    account ends the roll-back with what it had, plus what it sent, minus
    what it received on that branch. *)
Theorem reorganization_reverses_without_restoring
    (oldHead newHead : string) (st : InventoryManager) :
  rollbackChain oldHead newHead st
  = fold_left rollbackTx (abandonedTxs oldHead newHead st) st
  /\ (forall s tx,
        balances (rollbackTx s tx)
        = if effective tx then
            <[Tx.receiver tx :=
                JS.minus (balanceOr0 (balances s) (Tx.receiver tx)) (Tx.amount tx)]>
              (<[Tx.sender tx :=
                   JS.plus (balanceOr0 (balances s) (Tx.sender tx)) (Tx.amount tx)]>
                 (balances s))
          else balances s)
  /\ transactions (rollbackChain oldHead newHead st) = transactions st
  /\ transactions (handleChainReorganization oldHead newHead st) ⊆ transactions st
  /\ (noSelfTransfer (abandonedTxs oldHead newHead st) = true ->
      exactlyRolledBack (abandonedTxs oldHead newHead st) st = true ->
      forall a,
        unitsOf (balanceOr0 (balances (rollbackChain oldHead newHead st)) a)
        = unitsOf (balanceOr0 (balances st) a)
          + outflow a (abandonedTxs oldHead newHead st)
          - inflow a (abandonedTxs oldHead newHead st)).
Proof.
  assert (Hloop : rollbackChain oldHead newHead st
                  = fold_left rollbackTx (abandonedTxs oldHead newHead st) st).
  { unfold rollbackChain. apply rollbackBlocks_txs. }
  assert (Hpending : transactions (rollbackChain oldHead newHead st) = transactions st).
  { rewrite Hloop. apply rollbackTxs_pending. }
  split; [exact Hloop |]. split; [apply rollbackTx_balances |].
  split; [exact Hpending |]. split.
  - unfold handleChainReorganization. rewrite applyBlocks_txs.
    etrans; [apply processBlockTransactions_pending |]. by rewrite Hpending.
  - intros Hclean Hexact a. rewrite Hloop. by apply rollbackTxs_balance.
Qed.

(** Rolling [blockA] back credits the 30 coins of [tx1] to [n1] again. *)
Lemma reorganization_reverses_witness :
  noSelfTransfer
    (abandonedTxs (Block.hash blockA) (Block.hash blockB) (fileBlock blockB storeA)) = true
  /\ exactlyRolledBack
       (abandonedTxs (Block.hash blockA) (Block.hash blockB) (fileBlock blockB storeA))
       (fileBlock blockB storeA) = true
  /\ unitsOf (balanceOr0 (balances (fileBlock blockB storeA)) "n1") = coins 40
  /\ unitsOf (balanceOr0 (balances
                            (rollbackChain (Block.hash blockA) (Block.hash blockB)
                               (fileBlock blockB storeA))) "n1") = coins 70.
Proof.
  assert (Hclean : noSelfTransfer
            (abandonedTxs (Block.hash blockA) (Block.hash blockB) (fileBlock blockB storeA))
            = true) by (vm_compute; reflexivity).
  assert (Hexact : exactlyRolledBack
            (abandonedTxs (Block.hash blockA) (Block.hash blockB) (fileBlock blockB storeA))
            (fileBlock blockB storeA) = true) by (vm_compute; reflexivity).
  split; [exact Hclean |]. split; [exact Hexact |]. split; [vm_compute; reflexivity |].
  rewrite (proj2 (proj2 (proj2 (proj2 (reorganization_reverses_without_restoring
                    (Block.hash blockA) (Block.hash blockB)
                    (fileBlock blockB storeA))))) Hclean Hexact "n1").
  vm_compute. reflexivity.
Defined.

(** C3, as stated, fails: [blockA] confirmed [tx1]; when [blockB] arrives
    with the smaller hash, the reorganization rolls [blockA] back, and
    [tx1] is neither in the pending pool nor in a block of the new chain. *)
Lemma reorganization_drops_counterexample :
  transactions store1 !! Tx.id tx1 = Some tx1
  /\ blocksToRollback (Block.hash blockA) (Block.hash blockB) (fileBlock blockB storeA)
     = [Block.hash blockA]
  /\ abandonedTxs (Block.hash blockA) (Block.hash blockB) (fileBlock blockB storeA) = [tx1]
  /\ transactions
       (handleChainReorganization (Block.hash blockA) (Block.hash blockB)
          (fileBlock blockB storeA)) !! Tx.id tx1 = None
  /\ blockchainHead (fst (addBlock blockB storeA)) = Some (Block.hash blockB)
  /\ transactions (fst (addBlock blockB storeA)) !! Tx.id tx1 = None
  /\ txsOfChain (fst (addBlock blockB storeA))
       (getChainToBlock (Block.hash blockB) (fst (addBlock blockB storeA))) = [].
Proof. repeat split; vm_compute; reflexivity. Qed.

(** ** Balance conservation *)

(** One iteration of [processBlockTransactions] writes the sender, reads
    the receiver from what it wrote, and writes the receiver. *)
Lemma processTx_balances (st : InventoryManager) (tx : Tx.t) :
  balances (processTx st tx)
  = if effective tx then
      let afterSender :=
        <[Tx.sender tx :=
            JS.minus (balanceOr0 (balances st) (Tx.sender tx)) (Tx.amount tx)]>
          (balances st) in
      <[Tx.receiver tx :=
          JS.plus (balanceOr0 afterSender (Tx.receiver tx)) (Tx.amount tx)]> afterSender
    else balances st.
Proof.
  unfold processTx, effective.
  destruct (truthy (Tx.sender tx)); simpl; [| done].
  destruct (truthy (Tx.receiver tx)); simpl; [| done].
  destruct (JS.truthy (Tx.amount tx)); simpl; [| done].
  match goal with |- context [if ?c then _ else _] => destruct c end; done.
Qed.

Lemma numeric_insert (m : gmap string JS.value) (k : string) (v : JS.value) :
  numeric m -> is_Some (JS.units v) -> numeric (<[k := v]> m).
Proof.
  intros Hm Hv k' v' Hlookup.
  apply lookup_insert_Some in Hlookup as [[_ <-] | [_ Hold]]; [done |].
  by apply (Hm k').
Qed.

(** An update that does not round keeps the sum, and keeps every balance
    a finite number. *)
Lemma processTx_sum (st : InventoryManager) (tx : Tx.t) :
  exactProcessTx st tx = true ->
  balanceSum (balances (processTx st tx)) = balanceSum (balances st)
  /\ (numeric (balances st) -> numeric (balances (processTx st tx))).
Proof.
  intros Hexact. rewrite processTx_balances. unfold exactProcessTx in Hexact.
  destruct (effective tx); [| done].
  apply andb_true_iff in Hexact as [Hdiff Hsum].
  apply exactDifference_units in Hdiff as (x & y & Hx & Hy & Hx').
  apply exactSum_units in Hsum as (r & y' & Hr & Hy' & Hr').
  assert (y' = y) by congruence. subst y'.
  cbv zeta. split.
  - rewrite !balanceSum_insert.
    rewrite (unitsOf_units _ _ Hx), (unitsOf_units _ _ Hx'),
      (unitsOf_units _ _ Hr), (unitsOf_units _ _ Hr'). lia.
  - intros Hnumeric. apply numeric_insert; [apply numeric_insert |]; eauto.
Qed.

Lemma processBlockTransactions_sum (txs : list Tx.t) (st : InventoryManager) :
  exactlyApplied txs st = true ->
  balanceSum (balances (processBlockTransactions txs st)) = balanceSum (balances st)
  /\ (numeric (balances st) -> numeric (balances (processBlockTransactions txs st))).
Proof.
  unfold processBlockTransactions, exactlyApplied. revert st.
  induction txs as [| tx txs IH]; intros st Hexact; simpl; [done |].
  simpl in Hexact. apply andb_true_iff in Hexact as [Hfirst Hlater].
  destruct (processTx_sum st tx Hfirst) as [Hsum Hnumeric].
  destruct (IH _ Hlater) as [Hsum' Hnumeric'].
  split; [congruence | auto].
Qed.

Lemma rollbackTx_sum (st : InventoryManager) (tx : Tx.t) :
  selfTransfer tx = false ->
  exactRollbackTx st tx = true ->
  balanceSum (balances (rollbackTx st tx)) = balanceSum (balances st)
  /\ (numeric (balances st) -> numeric (balances (rollbackTx st tx))).
Proof.
  unfold selfTransfer. intros Hself Hexact. apply String.eqb_neq in Hself.
  rewrite rollbackTx_balances. unfold exactRollbackTx in Hexact.
  destruct (effective tx); [| done].
  apply andb_true_iff in Hexact as [Hsum Hdiff].
  apply exactSum_units in Hsum as (x & y & Hx & Hy & Hx').
  apply exactDifference_units in Hdiff as (r & y' & Hr & Hy' & Hr').
  assert (y' = y) by congruence. subst y'.
  split.
  - rewrite !balanceSum_insert, balanceOr0_insert_ne by done.
    rewrite (unitsOf_units _ _ Hx), (unitsOf_units _ _ Hx'),
      (unitsOf_units _ _ Hr), (unitsOf_units _ _ Hr'). lia.
  - intros Hnumeric. apply numeric_insert; [apply numeric_insert |]; eauto.
Qed.

Lemma rollbackTxs_sum (txs : list Tx.t) (st : InventoryManager) :
  noSelfTransfer txs = true ->
  exactlyRolledBack txs st = true ->
  balanceSum (balances (fold_left rollbackTx txs st)) = balanceSum (balances st)
  /\ (numeric (balances st) -> numeric (balances (fold_left rollbackTx txs st))).
Proof.
  unfold exactlyRolledBack.
  revert st. induction txs as [| tx txs IH]; intros st Hclean Hexact; simpl; [done |].
  simpl in Hclean, Hexact. apply andb_true_iff in Hclean as [Htx Hrest].
  apply negb_true_iff in Htx.
  apply andb_true_iff in Hexact as [Hfirst Hlater].
  destruct (rollbackTx_sum st tx Htx Hfirst) as [Hsum Hnumeric].
  destruct (IH _ Hrest Hlater) as [Hsum' Hnumeric'].
  split; [congruence | auto].
Qed.

Lemma noSelfTransfer_app (l1 l2 : list Tx.t) :
  noSelfTransfer (l1 ++ l2) = noSelfTransfer l1 && noSelfTransfer l2.
Proof. unfold noSelfTransfer. apply forallb_app. Qed.

Lemma storedClean_txsOfChain (st : InventoryManager) (hs : list string) :
  storedClean st -> noSelfTransfer (txsOfChain st hs) = true.
Proof.
  intros Hclean. induction hs as [| h hs IH]; [done |].
  change (txsOfChain st (h :: hs)) with (txsOf st h ++ txsOfChain st hs).
  rewrite noSelfTransfer_app, IH, andb_true_r.
  unfold txsOf. destruct (blocks st !! h) as [b |] eqn:Hb; [| done].
  apply (Hclean h b Hb).
Qed.

(** A reorganization that does not round keeps the sum when no stored
    block carries a self-transfer. *)
Lemma handleChainReorganization_sum (oldHead newHead : string) (st : InventoryManager) :
  storedClean st ->
  exactReorganization oldHead newHead st = true ->
  balanceSum (balances (handleChainReorganization oldHead newHead st))
  = balanceSum (balances st)
  /\ (numeric (balances st) ->
      numeric (balances (handleChainReorganization oldHead newHead st))).
Proof.
  intros Hclean Hexact. unfold exactReorganization in Hexact.
  apply andb_true_iff in Hexact as [Hback Hforth].
  assert (Hloop : rollbackChain oldHead newHead st
                  = fold_left rollbackTx (abandonedTxs oldHead newHead st) st).
  { unfold rollbackChain. apply rollbackBlocks_txs. }
  assert (Hadopted : handleChainReorganization oldHead newHead st
                     = processBlockTransactions (adoptedTxs oldHead newHead st)
                         (rollbackChain oldHead newHead st)).
  { unfold handleChainReorganization. rewrite applyBlocks_txs. f_equal.
    apply txsOfChain_blocks. apply rollbackChain_frame. }
  rewrite Hadopted.
  destruct (processBlockTransactions_sum _ _ Hforth) as [Hsum Hnumeric].
  rewrite Hloop in Hsum, Hnumeric |- *.
  destruct (rollbackTxs_sum (abandonedTxs oldHead newHead st) st) as [Hsum' Hnumeric'];
    [by apply storedClean_txsOfChain | done |].
  split; [congruence | auto].
Qed.

Lemma applyConsensusRules_sum (h : string) (st : InventoryManager) :
  storedClean st ->
  (reorganizes h st = true -> exactReorganization (headOf st) h st = true) ->
  balanceSum (balances (fst (applyConsensusRules h st))) = balanceSum (balances st)
  /\ (numeric (balances st) -> numeric (balances (fst (applyConsensusRules h st)))).
Proof.
  intros Hclean Hexact. unfold applyConsensusRules, reorganizes, heightOf in *.
  destruct (truthy (headOf st)); simpl in *; [| by cbn].
  destruct (_ <? _); simpl in Hexact.
  { destruct (handleChainReorganization_sum (headOf st) h st Hclean (Hexact eq_refl))
      as [Hsum Hnumeric].
    revert Hsum Hnumeric. generalize (handleChainReorganization (headOf st) h st).
    intros reorganized Hsum Hnumeric. by cbn. }
  destruct (_ && _); simpl in Hexact; [| by cbn].
  destruct (handleChainReorganization_sum (headOf st) h st Hclean (Hexact eq_refl))
    as [Hsum Hnumeric].
  revert Hsum Hnumeric. generalize (handleChainReorganization (headOf st) h st).
  intros reorganized Hsum Hnumeric. by cbn.
Qed.

Lemma storedClean_insert (st : InventoryManager) (k : string) (b : Block.t)
    (m : gmap string Block.t) :
  storedClean st -> blockNoSelfTransfer b = true -> m = <[k := b]> (blocks st) ->
  forall h b', m !! h = Some b' -> blockNoSelfTransfer b' = true.
Proof.
  intros Hclean Hb -> h b' Hlookup.
  apply lookup_insert_Some in Hlookup as [[_ <-] | [_ Hold]]; [done |].
  by apply (Hclean h).
Qed.

Lemma units_hundred : JS.units (JS.of_Z 100) = Some (coins 100).
Proof. vm_compute. reflexivity. Qed.

(** What one operation that does not round does to the sum: only an
    accepted genesis block changes it, by 100 coins minus what its creator
    held. *)
Lemma step_sum (st : InventoryManager) (op : Op) :
  storedClean st -> cleanOp op = true -> exactOp st op = true ->
  balanceSum (balances (step st op))
  = balanceSum (balances st)
    + match op with
      | CreateGenesis nodeId _ =>
          if acceptsGenesis st op
          then coins 100 - unitsOf (default JS.zero (balances st !! nodeId)) else 0
      | AddBlock b =>
          if acceptsGenesis st op && truthy (Block.creator b)
          then coins 100 - unitsOf (default JS.zero (balances st !! Block.creator b))
          else 0
      | _ => 0
      end
  /\ (numeric (balances st) -> numeric (balances (step st op))).
Proof.
  intros Hclean Hop Hexact.
  destruct op as [nodeId now | b | tx | txs answers]; simpl.
  - destruct (createGenesisBlock_cases nodeId now st)
      as [[_ ->] | (_ & _ & g & blk & _ & ->)]; simpl; [split; [lia | done] |].
    split.
    + rewrite balanceSum_insert, unitsOf_balanceOr0.
      rewrite (unitsOf_units _ _ units_hundred). lia.
    + intros Hnumeric. apply numeric_insert; [done |]. rewrite units_hundred. eauto.
  - simpl in Hexact. unfold exactAddBlock in Hexact.
    destruct (snd (addBlock b st)) eqn:Hok.
    2:{ rewrite (addBlock_rejected b st Hok), andb_false_r. simpl. split; [lia | done]. }
    rewrite andb_true_r.
    destruct (flag (Block.isGenesis b)) eqn:Hg; simpl.
    + destruct (addBlock_genesis b st Hok Hg) as (_ & _ & _ & _ & _ & -> & _).
      destruct (truthy (Block.creator b)); [| split; [lia | done]].
      split.
      * rewrite balanceSum_insert, unitsOf_balanceOr0.
        rewrite (unitsOf_units _ _ units_hundred). lia.
      * intros Hnumeric. apply numeric_insert; [done |]. rewrite units_hundred. eauto.
    + destruct (addBlock_regular b st Hok Hg) as (txs & Htxs & _ & ->).
      change (balances (propagateBlock ?b ?s)) with (balances s).
      simpl in Hexact. rewrite Htxs in Hexact. simpl in Hexact.
      apply andb_true_iff in Hexact as [Happlied Hreorg].
      pose proof (fileBlock_fields b st) as (Fb & _ & _ & _ & Fbal & _).
      destruct (processBlockTransactions_sum txs (fileBlock b st) Happlied)
        as [Hsum Hnumeric].
      rewrite Fbal in Hsum, Hnumeric.
      destruct (applyConsensusRules_sum (blockId b)
                  (processBlockTransactions txs (fileBlock b st)))
        as [Hsum' Hnumeric'].
      * intros h b' Hlookup.
        pose proof (processBlockTransactions_frame txs (fileBlock b st)) as (Hb & _).
        rewrite Hb in Hlookup.
        eapply (storedClean_insert st (blockId b) (Block.with_hash (blockId b) b));
          [done | | exact Fb | exact Hlookup].
        simpl in Hop. by destruct b.
      * intros Hyes. by rewrite Hyes in Hreorg.
      * split; [lia | auto].
  - pose proof (addTransaction_chain tx st) as (_ & _ & _ & -> & _). split; [lia | done].
  - pose proof (syncWithPeer_frame txs answers st) as (_ & _ & Hbal & _).
    simpl in Hbal. rewrite Hbal. split; [lia | done].
Qed.

Lemma syncWithPeer_storedClean (txs : list Tx.t)
    (answers : list (string * option (list Block.t))) (st : InventoryManager) :
  cleanOp (Sync txs answers) = true -> storedClean st ->
  storedClean (syncWithPeer txs answers st).
Proof.
  simpl. intros Hanswers Hclean. unfold syncWithPeer.
  assert (Htxs : storedClean (fold_left syncTransaction txs st)).
  { clear Hanswers. revert st Hclean.
    induction txs as [| tx txs IH]; intros st Hclean; simpl; [done |].
    apply IH. intros h b.
    pose proof (syncTransaction_frame st tx) as (Hb & _). simpl in Hb. rewrite Hb.
    apply Hclean. }
  revert Htxs. generalize (fold_left syncTransaction txs st). clear st Hclean.
  induction answers as [| [blockId' answer] answers IH]; intros st Hclean; simpl; [done |].
  simpl in Hanswers. apply andb_true_iff in Hanswers as [Hanswer Hrest].
  apply IH; [done |].
  unfold syncBlockId. simpl.
  destruct (_ && _); [| done].
  destruct answer as [bs |]; [| done]. simpl in Hanswer.
  clear IH Hrest. revert st Hclean.
  induction bs as [| b bs IHbs]; intros st Hclean; simpl; [done |].
  simpl in Hanswer. apply andb_true_iff in Hanswer as [Hb Hbs].
  apply IHbs; [done |].
  unfold syncBlock. destruct (negb _); [| done].
  intros h b'. simpl. by apply (storedClean_insert st (Block.hash b) b).
Qed.

Lemma step_storedClean (st : InventoryManager) (op : Op) :
  cleanOp op = true -> storedClean st -> storedClean (step st op).
Proof.
  intros Hop Hclean.
  destruct op as [nodeId now | b | tx | txs answers]; simpl.
  - destruct (createGenesisBlock_cases nodeId now st)
      as [[_ ->] | (_ & _ & g & blk & Hblk & ->)]; simpl; [done |].
    intros h b'. simpl. apply (storedClean_insert st g blk); [done | | done].
    unfold blockNoSelfTransfer. by rewrite Hblk.
  - destruct (snd (addBlock b st)) eqn:Hok.
    2:{ by rewrite (addBlock_rejected b st Hok). }
    assert (Hb : blocks (fst (addBlock b st))
                 = <[blockId b := Block.with_hash (blockId b) b]> (blocks st)).
    { destruct (flag (Block.isGenesis b)) eqn:Hg.
      - by destruct (addBlock_genesis b st Hok Hg) as (-> & _).
      - by destruct (addBlock_regular_head b st Hok Hg) as (-> & _). }
    intros h b'.
    apply (storedClean_insert st (blockId b) (Block.with_hash (blockId b) b));
      [done | | done].
    simpl in Hop. by destruct b.
  - intros h b. pose proof (addTransaction_chain tx st) as (-> & _). apply Hclean.
  - by apply syncWithPeer_storedClean.
Qed.

Lemma exec_sum (ops : list Op) :
  forall st,
    storedClean st -> forallb cleanOp ops = true -> freshGenesis ops st = true ->
    exactRun ops st = true ->
    balanceSum (balances (exec ops st))
    = balanceSum (balances st) + coins (100 * Z.of_nat (endowmentCount ops st))
    /\ (numeric (balances st) -> numeric (balances (exec ops st))).
Proof.
  unfold coins.
  induction ops as [| op ops IH]; intros st Hclean Hops Hfresh Hexact; simpl;
    [split; [lia | done] |].
  simpl in Hops, Hfresh, Hexact.
  apply andb_true_iff in Hops as [Hop Hops].
  apply andb_true_iff in Hfresh as [Hfresh_op Hfresh].
  apply andb_true_iff in Hexact as [Hexact_op Hexact].
  destruct (IH (step st op)) as [Hrest Hnumeric'];
    [by apply step_storedClean | done | done | done |].
  destruct (step_sum st op Hclean Hop Hexact_op) as [Hstep Hnumeric].
  split; [| auto].
  rewrite Hrest, Hstep. unfold coins.
  assert (Hdelta :
    match op with
    | CreateGenesis nodeId _ =>
        if acceptsGenesis st op
        then 100 * JS.quantum - unitsOf (default JS.zero (balances st !! nodeId)) else 0
    | AddBlock b =>
        if acceptsGenesis st op && truthy (Block.creator b)
        then 100 * JS.quantum - unitsOf (default JS.zero (balances st !! Block.creator b))
        else 0
    | _ => 0
    end = 100 * JS.quantum * Z.of_nat (if endows st op then 1 else 0)).
  { destruct op as [nodeId now | b | tx | txs answers]; try (simpl; lia).
    - unfold freshGenesisOp in Hfresh_op. unfold endows in *.
      destruct (acceptsGenesis st (CreateGenesis nodeId now)); [| simpl; lia].
      simpl in Hfresh_op. apply Z.eqb_eq in Hfresh_op. simpl Z.of_nat. lia.
    - unfold freshGenesisOp in Hfresh_op. unfold endows in *.
      destruct (acceptsGenesis st (AddBlock b) && truthy (Block.creator b));
        [| simpl; lia].
      simpl in Hfresh_op. apply Z.eqb_eq in Hfresh_op. simpl Z.of_nat. lia. }
  rewrite Hdelta. destruct (endows st op); lia.
Qed.




(** * Further properties of the store *)

(** ** What a history never undoes *)

Lemma addBlock_seen (b : Block.t) (st : InventoryManager) :
  snd (addBlock b st) = true ->
  seenMessages (fst (addBlock b st)) = {[blockId b]} ∪ seenMessages st.
Proof.
  intros Hok. destruct (flag (Block.isGenesis b)) eqn:Hg.
  - by destruct (addBlock_genesis b st Hok Hg) as (_ & -> & _).
  - by destruct (addBlock_regular_head b st Hok Hg) as (_ & _ & -> & _).
Qed.

Lemma addBlock_blocks (b : Block.t) (st : InventoryManager) :
  snd (addBlock b st) = true ->
  blocks (fst (addBlock b st)) = <[blockId b := Block.with_hash (blockId b) b]> (blocks st).
Proof.
  intros Hok. destruct (flag (Block.isGenesis b)) eqn:Hg.
  - by destruct (addBlock_genesis b st Hok Hg) as (-> & _).
  - by destruct (addBlock_regular_head b st Hok Hg) as (-> & _).
Qed.

Lemma addBlock_heights (b : Block.t) (st : InventoryManager) :
  snd (addBlock b st) = true ->
  exists v, blockHeights (fst (addBlock b st)) = <[blockId b := v]> (blockHeights st).
Proof.
  intros Hok. destruct (flag (Block.isGenesis b)) eqn:Hg.
  - destruct (addBlock_genesis b st Hok Hg) as (_ & _ & _ & -> & _). eauto.
  - destruct (addBlock_regular_head b st Hok Hg) as (_ & -> & _). eauto.
Qed.

Lemma addBlock_unseen (b : Block.t) (st : InventoryManager) :
  snd (addBlock b st) = true -> blockId b ∉ seenMessages st.
Proof. intros Hok. by apply addBlock_accepts in Hok as (? & _). Qed.

Lemma addTransaction_seen (tx : Tx.t) (st : InventoryManager) :
  seenMessages st ⊆ seenMessages (fst (addTransaction tx st)).
Proof.
  unfold addTransaction.
  destruct (has _ _); simpl; [done |].
  destruct (negb _); simpl; [done | set_solver].
Qed.

Lemma step_seen (st : InventoryManager) (op : Op) :
  seenMessages st ⊆ seenMessages (step st op).
Proof.
  destruct op as [nodeId now | b | tx | txs answers]; simpl.
  - destruct (createGenesisBlock_cases nodeId now st)
      as [[_ ->] | (_ & _ & g & blk & _ & ->)]; simpl; [done | set_solver].
  - destruct (snd (addBlock b st)) eqn:Hok.
    + rewrite (addBlock_seen b st Hok). set_solver.
    + by rewrite (addBlock_rejected b st Hok).
  - apply addTransaction_seen.
  - apply syncWithPeer_frame.
Qed.

Lemma exec_seen (ops : list Op) (st : InventoryManager) :
  seenMessages st ⊆ seenMessages (exec ops st).
Proof.
  revert st. induction ops as [| op ops IH]; intros st; simpl; [done |].
  etrans; [apply step_seen | apply IH].
Qed.

Lemma syncBlock_keeps (st : InventoryManager) (b : Block.t) :
  dom (blocks st) ⊆ seenMessages st ->
  forall h blk, blocks st !! h = Some blk -> blocks (syncBlock st b) !! h = Some blk.
Proof.
  intros Hinv h blk Hlookup. unfold syncBlock.
  destruct (has (seenMessages st) (Block.hash b)) eqn:Hseen; simpl; [done |].
  apply has_false in Hseen. rewrite lookup_insert_ne; [done |].
  intros Heq. subst h. apply Hseen, Hinv. apply elem_of_dom. eauto.
Qed.

Lemma syncWithPeer_keeps (txs : list Tx.t)
    (answers : list (string * option (list Block.t))) (st : InventoryManager) :
  dom (blocks st) ⊆ seenMessages st ->
  forall h blk, blocks st !! h = Some blk ->
                blocks (syncWithPeer txs answers st) !! h = Some blk.
Proof.
  set (R := fun s s' : InventoryManager =>
              dom (blocks s) ⊆ seenMessages s ->
              dom (blocks s') ⊆ seenMessages s'
              /\ forall h blk, blocks s !! h = Some blk -> blocks s' !! h = Some blk).
  assert (Hrefl : forall s, R s s) by (intros s; unfold R; done).
  assert (Htrans : forall a b c, R a b -> R b c -> R a c).
  { unfold R. intros a b c Hab Hbc Ha.
    destruct (Hab Ha) as [Hb Hkeep]. destruct (Hbc Hb) as [Hc Hkeep'].
    split; [done |]. intros h blk Hl. by apply Hkeep', Hkeep. }
  assert (Hfold : forall B (f : InventoryManager -> B -> InventoryManager) l s,
             (forall s x, R s (f s x)) -> R s (fold_left f l s)).
  { intros B f l. induction l as [| x l IH]; intros s Hf; simpl; [apply Hrefl |].
    eapply Htrans; [apply Hf | by apply IH]. }
  assert (Hsync : R st (syncWithPeer txs answers st)).
  { unfold syncWithPeer. eapply Htrans.
    - apply Hfold. intros s x Hs.
      pose proof (syncTransaction_frame s x) as (Hb & _ & _ & _ & Hseen).
      simpl in Hb, Hseen. rewrite Hb. split; [by etrans | done].
    - apply Hfold. intros s [blockId' answer]. unfold syncBlockId. simpl.
      destruct (_ && _); [| apply Hrefl].
      destruct answer as [bs |]; [| apply Hrefl].
      apply Hfold. intros s' x Hs'. split.
      + by apply syncBlock_indexed.
      + by apply syncBlock_keeps. }
  intros Hinv. by apply Hsync.
Qed.

Lemma step_keeps_block (st : InventoryManager) (op : Op) (h : string) (blk : Block.t) :
  indexed st -> blocks st !! h = Some blk -> blocks (step st op) !! h = Some blk.
Proof.
  intros (_ & Hb & _) Hlookup.
  assert (Hseen : h ∈ seenMessages st).
  { apply Hb, elem_of_dom. eauto. }
  destruct op as [nodeId now | b | tx | txs answers]; simpl.
  - destruct (createGenesisBlock_cases nodeId now st)
      as [[_ ->] | (_ & Hempty & g & blk' & _ & ->)]; simpl; [done |].
    rewrite Hempty in Hlookup. by rewrite lookup_empty in Hlookup.
  - destruct (snd (addBlock b st)) eqn:Hok.
    2:{ by rewrite (addBlock_rejected b st Hok). }
    rewrite (addBlock_blocks b st Hok), lookup_insert_ne; [done |].
    intros Heq. subst h. by apply (addBlock_unseen b st Hok).
  - by pose proof (addTransaction_chain tx st) as (-> & _).
  - by apply syncWithPeer_keeps.
Qed.

Lemma exec_indexed (ops : list Op) (st : InventoryManager) :
  indexed st -> indexed (exec ops st).
Proof. apply exec_invariant, step_indexed. Qed.

Lemma exec_keeps_block (ops : list Op) (st : InventoryManager) (h : string) (blk : Block.t) :
  indexed st -> blocks st !! h = Some blk -> blocks (exec ops st) !! h = Some blk.
Proof.
  revert st. induction ops as [| op ops IH]; intros st Hinv Hlookup; simpl; [done |].
  apply IH; [by apply step_indexed | by apply step_keeps_block].
Qed.

(** X1.  Whatever operations follow on a store that a history has produced,
    nothing that was seen is forgotten, and a stored block stays stored under
    its hash, unchanged, with the height it was given. *)
Theorem history_keeps_what_it_has (st : InventoryManager) (ops : list Op) :
  reachable st ->
  seenMessages st ⊆ seenMessages (exec ops st)
  /\ (forall h blk, blocks st !! h = Some blk -> blocks (exec ops st) !! h = Some blk)
  /\ (forall h v, blockHeights st !! h = Some v -> blockHeights (exec ops st) !! h = Some v).
Proof.
  intros Hreach. pose proof (reachable_indexed st Hreach) as Hinv.
  split; [apply exec_seen |]. split.
  - intros h blk. by apply exec_keeps_block.
  - intros h v. by apply exec_height_stable.
Qed.

(** After [blockA] was filed, later blocks leave it where it is. *)
Lemma history_keeps_witness :
  reachable storeA
  /\ blocks storeA !! Block.hash blockA = Some blockA
  /\ blocks (exec [AddBlock blockC; AddBlock blockP] storeA) !! Block.hash blockA
     = Some blockA.
Proof.
  assert (Hstored : blocks storeA !! Block.hash blockA = Some blockA)
    by (vm_compute; reflexivity).
  split; [exact reachable_storeA |]. split; [exact Hstored |].
  exact (proj1 (proj2 (history_keeps_what_it_has storeA
                         [AddBlock blockC; AddBlock blockP] reachable_storeA))
           _ _ Hstored).
Defined.

(** ** Submitting twice *)

Lemma addBlock_seen_rejected (b : Block.t) (st : InventoryManager) :
  blockId b ∈ seenMessages st -> addBlock b st = (st, false).
Proof.
  intros Hseen. apply has_true in Hseen.
  unfold addBlock. fold (blockId b). by rewrite Hseen.
Qed.

(** X2.  Once [addBlock] has accepted a block, submitting the same block
    again, at once or after any further operations, returns [false] and
    leaves the store as it is. *)
Theorem addBlock_twice (b : Block.t) (st : InventoryManager) (ops : list Op) :
  snd (addBlock b st) = true ->
  addBlock b (exec ops (fst (addBlock b st))) = (exec ops (fst (addBlock b st)), false).
Proof.
  intros Hok. apply addBlock_seen_rejected.
  apply (exec_seen ops). rewrite (addBlock_seen b st Hok). set_solver.
Qed.

(** [blockA] again, after [blockB] has taken the head. *)
Lemma addBlock_twice_witness :
  snd (addBlock blockA store1) = true
  /\ snd (addBlock blockA (exec [AddBlock blockB] (fst (addBlock blockA store1)))) = false.
Proof.
  assert (Hok : snd (addBlock blockA store1) = true) by (vm_compute; reflexivity).
  split; [exact Hok |].
  by rewrite (addBlock_twice blockA store1 [AddBlock blockB] Hok).
Defined.

(** A property that the two insertions of the periodic synchronisation keep
    is kept by the whole of it. *)
Lemma syncWithPeer_preserves (P : InventoryManager -> Prop) (txs : list Tx.t)
    (answers : list (string * option (list Block.t))) (st : InventoryManager) :
  (forall s tx, P s -> P (syncTransaction s tx)) ->
  (forall s b, P s -> P (syncBlock s b)) ->
  P st -> P (syncWithPeer txs answers st).
Proof.
  intros Htx Hblock Hst. unfold syncWithPeer.
  assert (Hfold : forall B (f : InventoryManager -> B -> InventoryManager) l s,
             (forall s x, P s -> P (f s x)) -> P s -> P (fold_left f l s)).
  { intros B f l. induction l as [| x l IH]; intros s Hf Hs; simpl; [done |].
    apply IH; [done | by apply Hf]. }
  apply Hfold; [| by apply Hfold].
  intros s [blockId' answer] Hs. unfold syncBlockId. simpl.
  destruct (_ && _); [| done].
  destruct answer as [bs |]; [| done].
  by apply Hfold.
Qed.

Lemma handleChainReorganization_pending (oldHead newHead : string) (st : InventoryManager) :
  transactions (handleChainReorganization oldHead newHead st) ⊆ transactions st.
Proof.
  unfold handleChainReorganization. rewrite applyBlocks_txs.
  etrans; [apply processBlockTransactions_pending |].
  unfold rollbackChain. by rewrite rollbackBlocks_txs, rollbackTxs_pending.
Qed.

Lemma applyConsensusRules_pending (h : string) (st : InventoryManager) :
  transactions (fst (applyConsensusRules h st)) ⊆ transactions st.
Proof.
  unfold applyConsensusRules.
  pose proof (handleChainReorganization_pending (headOf st) h st) as Hsub.
  revert Hsub. generalize (handleChainReorganization (headOf st) h st).
  intros reorganized Hsub.
  destruct (negb (truthy (headOf st))); [by cbn |].
  destruct (_ <? _); [by cbn |].
  destruct (_ && _); by cbn.
Qed.

(** [addBlock] only ever takes transactions out of the pending pool. *)
Lemma addBlock_pending (b : Block.t) (st : InventoryManager) :
  transactions (fst (addBlock b st)) ⊆ transactions st.
Proof.
  destruct (snd (addBlock b st)) eqn:Hok.
  2:{ by rewrite (addBlock_rejected b st Hok). }
  destruct (flag (Block.isGenesis b)) eqn:Hg.
  - by destruct (addBlock_genesis b st Hok Hg) as (_ & _ & _ & _ & _ & _ & ->).
  - destruct (addBlock_regular b st Hok Hg) as (txs & _ & _ & ->).
    change (transactions (propagateBlock ?blk ?s)) with (transactions s).
    etrans; [apply applyConsensusRules_pending |].
    etrans; [apply processBlockTransactions_pending |].
    by pose proof (fileBlock_fields b st) as (_ & _ & _ & _ & _ & -> & _).
Qed.

Lemma step_pendingSeen (st : InventoryManager) (op : Op) :
  pendingSeen st -> pendingSeen (step st op).
Proof.
  unfold pendingSeen. intros Hinv.
  destruct op as [nodeId now | b | tx | txs answers]; simpl.
  - destruct (createGenesisBlock_cases nodeId now st)
      as [[_ ->] | (_ & _ & g & blk & _ & ->)]; simpl; [done | set_solver].
  - etrans; [apply subseteq_dom, addBlock_pending |].
    etrans; [exact Hinv | apply (step_seen st (AddBlock b))].
  - unfold addTransaction.
    destruct (has _ _); simpl; [done |].
    destruct (negb _); simpl; [done |].
    rewrite dom_insert_L. set_solver.
  - apply (syncWithPeer_preserves (fun s => dom (transactions s) ⊆ seenMessages s));
      [| | done].
    + intros s tx Hs. unfold syncTransaction.
      destruct (_ && _); simpl; [| done].
      rewrite dom_insert_L. set_solver.
    + intros s b Hs. unfold syncBlock.
      destruct (negb _); simpl; [set_solver | done].
Qed.

Lemma reachable_pendingSeen (st : InventoryManager) : reachable st -> pendingSeen st.
Proof.
  intros [ops <-]. apply exec_invariant; [apply step_pendingSeen |].
  unfold pendingSeen. simpl. set_solver.
Qed.

Lemma addTransaction_seen_rejected (tx : Tx.t) (st : InventoryManager) :
  Tx.id tx ∈ seenMessages st -> addTransaction tx st = (st, false).
Proof.
  intros Hseen. apply has_true in Hseen.
  unfold addTransaction. by rewrite Hseen.
Qed.

(** X3.  On a store that a history has produced, an accepted transaction
    makes the pending pool exactly one entry larger and is found there under
    its id; submitting it again, at once or after any further operations,
    returns [false] and changes nothing. *)
Theorem addTransaction_twice (tx : Tx.t) (st : InventoryManager) (ops : list Op) :
  reachable st ->
  snd (addTransaction tx st) = true ->
  size (transactions (fst (addTransaction tx st))) = S (size (transactions st))
  /\ transactions (fst (addTransaction tx st)) !! Tx.id tx = Some tx
  /\ addTransaction tx (exec ops (fst (addTransaction tx st)))
     = (exec ops (fst (addTransaction tx st)), false).
Proof.
  intros Hreach Hok.
  pose proof (reachable_pendingSeen st Hreach) as Hpending.
  pose proof (proj1 (addTransaction_accepts tx st) Hok) as (Hunseen & _).
  assert (Hst' : transactions (fst (addTransaction tx st)) = <[Tx.id tx := tx]> (transactions st)
                 /\ Tx.id tx ∈ seenMessages (fst (addTransaction tx st))).
  { revert Hok. unfold addTransaction.
    destruct (has _ _); simpl; [discriminate |].
    destruct (negb _); simpl; [discriminate |].
    intros _. split; [done | set_solver]. }
  destruct Hst' as [Hst' Hseen']. rewrite Hst'.
  split; [| split].
  - apply map_size_insert_None. apply not_elem_of_dom.
    intros Hdom. by apply Hunseen, Hpending.
  - apply lookup_insert_eq.
  - apply addTransaction_seen_rejected. by apply (exec_seen ops).
Qed.

(** [tx1] on the node that holds the genesis coins. *)
Lemma addTransaction_twice_witness :
  reachable store0
  /\ snd (addTransaction tx1 store0) = true
  /\ size (transactions (fst (addTransaction tx1 store0))) = 1%nat
  /\ snd (addTransaction tx1 (fst (addTransaction tx1 store0))) = false.
Proof.
  assert (Hreach : reachable store0) by (apply reachable_exec, reachable_new).
  assert (Hok : snd (addTransaction tx1 store0) = true) by (vm_compute; reflexivity).
  destruct (addTransaction_twice tx1 store0 [] Hreach Hok) as (Hsize & _ & Hagain).
  split; [exact Hreach |]. split; [exact Hok |].
  split; [exact Hsize |].
  change (exec [] ?s) with s in Hagain. by rewrite Hagain.
Defined.

(** ** The head *)

Lemma step_headStored (st : InventoryManager) (op : Op) :
  indexed st -> headStored st -> headStored (step st op).
Proof.
  intros Hindexed Hinv h Hhead.
  assert (Hmono : forall k, is_Some (blocks st !! k) /\ is_Some (blockHeights st !! k) ->
                            is_Some (blocks (step st op) !! k)
                            /\ is_Some (blockHeights (step st op) !! k)).
  { intros k [[blk Hblk] [v Hv]]. split.
    - exists blk. by apply step_keeps_block.
    - exists v. by apply step_height_stable. }
  destruct op as [nodeId now | b | tx | txs answers]; simpl in *.
  - destruct (createGenesisBlock_cases nodeId now st)
      as [[_ Heq] | (_ & _ & g & blk & _ & Heq)]; rewrite Heq in *; simpl in *.
    + by apply Hinv.
    + injection Hhead as <-. rewrite !lookup_insert_eq. eauto.
  - destruct (snd (addBlock b st)) eqn:Hok.
    2:{ rewrite (addBlock_rejected b st Hok) in *. by apply Hinv. }
    assert (Hnew : is_Some (blocks (fst (addBlock b st)) !! blockId b)
                   /\ is_Some (blockHeights (fst (addBlock b st)) !! blockId b)).
    { rewrite (addBlock_blocks b st Hok).
      destruct (addBlock_heights b st Hok) as [v ->].
      rewrite !lookup_insert_eq. eauto. }
    destruct (flag (Block.isGenesis b)) eqn:Hg.
    + destruct (addBlock_genesis b st Hok Hg) as (_ & _ & _ & _ & Hh & _).
      rewrite Hh in Hhead. by injection Hhead as <-.
    + destruct (addBlock_regular_head b st Hok Hg) as (_ & _ & _ & Hh).
      rewrite Hh in Hhead.
      repeat match type of Hhead with
             | (if ?c then _ else _) = _ => destruct c
             end;
        first [ by injection Hhead as <- | by apply Hmono, Hinv ].
  - pose proof (addTransaction_chain tx st) as (_ & _ & Hh & _).
    rewrite Hh in Hhead. by apply Hmono, Hinv.
  - pose proof (syncWithPeer_frame txs answers st) as (_ & Hh & _).
    simpl in Hh. rewrite Hh in Hhead. by apply Hmono, Hinv.
Qed.

Lemma exec_headStored (ops : list Op) (st : InventoryManager) :
  indexed st -> headStored st -> headStored (exec ops st).
Proof.
  revert st. induction ops as [| op ops IH]; intros st Hindexed Hinv; simpl; [done |].
  apply IH; [by apply step_indexed | by apply step_headStored].
Qed.

Lemma reachable_headStored (st : InventoryManager) : reachable st -> headStored st.
Proof.
  intros [ops <-]. apply exec_headStored.
  - apply (reachable_indexed _ reachable_new).
  - intros h. discriminate.
Qed.

(** X4.  On every store that a history has produced the head, when there is
    one, is the hash of a stored block, has a recorded height that is not
    negative, and was seen. *)
Theorem head_is_stored (st : InventoryManager) (h : string) :
  reachable st ->
  blockchainHead st = Some h ->
  (exists b, getBlock h st = Some b)
  /\ (exists v, blockHeights st !! h = Some v /\ 0 <= v)
  /\ h ∈ seenMessages st.
Proof.
  intros Hreach Hhead.
  destruct (reachable_headStored st Hreach h Hhead) as [[b Hb] [v Hv]].
  pose proof (reachable_indexed st Hreach) as (_ & _ & Hpos).
  split; [by exists b |]. split.
  - exists v. split; [done | by apply (Hpos h)].
  - by apply (reachable_headSeen st Hreach).
Qed.

(** The head of the store after [blockA]. *)
Lemma head_is_stored_witness :
  reachable storeA
  /\ blockchainHead storeA = Some (Block.hash blockA)
  /\ getBlock (Block.hash blockA) storeA = Some blockA.
Proof.
  assert (Hhead : blockchainHead storeA = Some (Block.hash blockA))
    by (vm_compute; reflexivity).
  split; [exact reachable_storeA |]. split; [exact Hhead |].
  destruct (proj1 (head_is_stored storeA _ reachable_storeA Hhead)) as [b Hb].
  rewrite Hb. f_equal.
  assert (Hget : getBlock (Block.hash blockA) storeA = Some blockA)
    by (vm_compute; reflexivity).
  congruence.
Defined.

Lemma step_nonempty (st : InventoryManager) (op : Op) :
  blocks st <> ∅ -> blocks (step st op) <> ∅.
Proof.
  intros Hne.
  destruct op as [nodeId now | b | tx | txs answers]; simpl.
  - destruct (createGenesisBlock_cases nodeId now st)
      as [[_ ->] | (_ & Hempty & _)]; simpl; done.
  - destruct (snd (addBlock b st)) eqn:Hok.
    + rewrite (addBlock_blocks b st Hok). apply insert_non_empty.
    + by rewrite (addBlock_rejected b st Hok).
  - by pose proof (addTransaction_chain tx st) as (-> & _).
  - apply (syncWithPeer_preserves (fun s => blocks s <> ∅)); [| | done].
    + intros s tx Hs. by pose proof (syncTransaction_frame s tx) as (-> & _).
    + intros s b Hs. unfold syncBlock.
      destruct (negb _); simpl; [apply insert_non_empty | done].
Qed.

Lemma createGenesisBlock_declines (nodeId now : string) (st : InventoryManager) :
  blocks st <> ∅ -> createGenesisBlock nodeId now st = (st, None).
Proof.
  intros Hne.
  by destruct (createGenesisBlock_cases nodeId now st) as [[_ ->] | (_ & Hempty & _)].
Qed.

Lemma step_head_not (st : InventoryManager) (op : Op) (h : string) :
  h ∈ seenMessages st -> blocks st <> ∅ ->
  blockchainHead st <> Some h -> blockchainHead (step st op) <> Some h.
Proof.
  intros Hseen Hne Hhead.
  destruct op as [nodeId now | b | tx | txs answers]; simpl.
  - by rewrite createGenesisBlock_declines.
  - destruct (snd (addBlock b st)) eqn:Hok.
    2:{ by rewrite (addBlock_rejected b st Hok). }
    assert (Hnew : Some (blockId b) <> Some h).
    { intros [= Heq]. subst h. by apply (addBlock_unseen b st Hok). }
    destruct (flag (Block.isGenesis b)) eqn:Hg.
    + by destruct (addBlock_genesis b st Hok Hg) as (_ & _ & _ & _ & -> & _).
    + destruct (addBlock_regular_head b st Hok Hg) as (_ & _ & _ & ->).
      repeat match goal with |- context [if ?c then _ else _] => destruct c end; done.
  - by pose proof (addTransaction_chain tx st) as (_ & _ & -> & _).
  - pose proof (syncWithPeer_frame txs answers st) as (_ & Hh & _).
    simpl in Hh. by rewrite Hh.
Qed.

Lemma exec_head_not (ops : list Op) (st : InventoryManager) (h : string) :
  h ∈ seenMessages st -> blocks st <> ∅ ->
  blockchainHead st <> Some h -> blockchainHead (exec ops st) <> Some h.
Proof.
  revert st. induction ops as [| op ops IH]; intros st Hseen Hne Hhead; simpl; [done |].
  apply IH; [by apply (step_seen st op) | by apply step_nonempty | by apply step_head_not].
Qed.

(** X5.  The head only moves to a block as it arrives: on a store that holds
    a block, a hash that was seen and is not the head does not become the
    head, whatever operations follow.  In particular a block that lost the
    head to a competitor never gets it back. *)
Theorem head_only_moves_to_new_blocks (st : InventoryManager) (h : string) (ops : list Op) :
  h ∈ seenMessages st ->
  blocks st <> ∅ ->
  blockchainHead st <> Some h ->
  blockchainHead (exec ops st) <> Some h.
Proof.
  revert st. induction ops as [| op ops IH]; intros st Hseen Hne Hhead; simpl; [done |].
  apply IH.
  - by apply (step_seen st op).
  - by apply step_nonempty.
  - by apply step_head_not.
Qed.

(** [blockA] lost the head to [blockB]; the arrival of [blockC] afterwards
    does not give it back. *)
Lemma head_only_moves_witness :
  Block.hash blockA ∈ seenMessages storeB
  /\ blocks storeB <> ∅
  /\ blockchainHead storeB = Some (Block.hash blockB)
  /\ blockchainHead (exec [AddBlock blockC] storeB) <> Some (Block.hash blockA).
Proof.
  assert (Hseen : Block.hash blockA ∈ seenMessages storeB).
  { apply has_true. vm_compute. reflexivity. }
  assert (Hhead : blockchainHead storeB = Some (Block.hash blockB))
    by (vm_compute; reflexivity).
  assert (Hne : blocks storeB <> ∅).
  { intros Hempty.
    assert (Hb : blocks storeB !! Block.hash blockB = Some blockB)
      by (vm_compute; reflexivity).
    rewrite Hempty in Hb. by rewrite lookup_empty in Hb. }
  split; [exact Hseen |]. split; [exact Hne |]. split; [exact Hhead |].
  apply (head_only_moves_to_new_blocks storeB (Block.hash blockA) [AddBlock blockC]
           Hseen Hne).
  rewrite Hhead. discriminate.
Defined.

(** ** Blocks that enter through the periodic synchronisation *)

Lemma step_height_none (st : InventoryManager) (op : Op) (h : string) :
  h ∈ seenMessages st -> blocks st <> ∅ ->
  blockHeights st !! h = None -> blockHeights (step st op) !! h = None.
Proof.
  intros Hseen Hne Hnone.
  destruct op as [nodeId now | b | tx | txs answers]; simpl.
  - by rewrite createGenesisBlock_declines.
  - destruct (snd (addBlock b st)) eqn:Hok.
    2:{ by rewrite (addBlock_rejected b st Hok). }
    destruct (addBlock_heights b st Hok) as [v ->].
    rewrite lookup_insert_ne; [done |].
    intros Heq. subst h. by apply (addBlock_unseen b st Hok).
  - by pose proof (addTransaction_chain tx st) as (_ & -> & _).
  - pose proof (syncWithPeer_frame txs answers st) as (Hh & _).
    simpl in Hh. by rewrite Hh.
Qed.

Lemma exec_height_none (ops : list Op) (st : InventoryManager) (h : string) :
  h ∈ seenMessages st -> blocks st <> ∅ ->
  blockHeights st !! h = None -> blockHeights (exec ops st) !! h = None.
Proof.
  revert st. induction ops as [| op ops IH]; intros st Hseen Hne Hnone; simpl; [done |].
  apply IH; [by apply (step_seen st op) | by apply step_nonempty | by apply step_height_none].
Qed.

(** X6.  A block that the periodic synchronisation puts into the store is
    out of the reach of consensus: it has no recorded height and is not the
    head, and no later operation gives it a height or makes it the head. *)
Theorem synced_block_never_counts (st : InventoryManager) (txs : list Tx.t)
    (answers : list (string * option (list Block.t))) (h : string) (ops : list Op) :
  reachable st ->
  is_Some (blocks (syncWithPeer txs answers st) !! h) ->
  blocks st !! h = None ->
  blockHeights (exec ops (syncWithPeer txs answers st)) !! h = None
  /\ blockchainHead (exec ops (syncWithPeer txs answers st)) <> Some h.
Proof.
  intros Hreach Hnew Hold.
  pose proof (reachable_indexed st Hreach) as Hindexed.
  pose proof (step_indexed st (Sync txs answers) Hindexed) as (_ & Hseen' & _).
  simpl in Hseen'.
  pose proof (syncWithPeer_frame txs answers st) as (Hheights & Hhead & _).
  simpl in Hheights, Hhead.
  assert (Hseen : h ∈ seenMessages (syncWithPeer txs answers st)).
  { by apply Hseen', elem_of_dom. }
  assert (Hne : blocks (syncWithPeer txs answers st) <> ∅).
  { intros Hempty. rewrite Hempty, lookup_empty in Hnew. by destruct Hnew. }
  split.
  - apply exec_height_none; [done | done |].
    rewrite Hheights. apply not_elem_of_dom.
    destruct Hindexed as (Hsub & _). intros Hdom.
    apply Hsub, elem_of_dom in Hdom. rewrite Hold in Hdom. by destruct Hdom.
  - apply exec_head_not; [done | done |].
    rewrite Hhead. intros Hhead'.
    destruct (reachable_headStored st Hreach h Hhead') as [[blk Hblk] _]. congruence.
Qed.

(** [blockP], a valid child of [blockA], reaches the node through the
    synchronisation; [blockC], which extends it, then arrives by [addBlock]:
    [blockP] still has no height. *)
Lemma synced_block_witness :
  reachable storeA
  /\ blocks (syncWithPeer [] [(Block.hash blockP, Some [blockP])] storeA)
       !! Block.hash blockP = Some blockP
  /\ blockHeights (exec [AddBlock blockC]
                     (syncWithPeer [] [(Block.hash blockP, Some [blockP])] storeA))
       !! Block.hash blockP = None.
Proof.
  assert (Hnew : blocks (syncWithPeer [] [(Block.hash blockP, Some [blockP])] storeA)
                   !! Block.hash blockP = Some blockP) by (vm_compute; reflexivity).
  split; [exact reachable_storeA |]. split; [exact Hnew |].
  apply (synced_block_never_counts storeA [] [(Block.hash blockP, Some [blockP])]
           (Block.hash blockP) [AddBlock blockC] reachable_storeA).
  - rewrite Hnew. eauto.
  - vm_compute. reflexivity.
Defined.

(** ** The genesis block of the first node *)

Lemma step_genesisCreated (st : InventoryManager) (op : Op) :
  genesisCreated st = true -> genesisCreated (step st op) = true.
Proof.
  intros Hcreated.
  destruct op as [nodeId now | b | tx | txs answers]; simpl.
  - destruct (createGenesisBlock_cases nodeId now st)
      as [[_ ->] | (Hfalse & _)]; simpl; [done | congruence].
  - destruct (snd (addBlock b st)) eqn:Hok.
    2:{ by rewrite (addBlock_rejected b st Hok). }
    destruct (flag (Block.isGenesis b)) eqn:Hg.
    + by destruct (addBlock_genesis b st Hok Hg) as (_ & _ & -> & _).
    + destruct (addBlock_regular b st Hok Hg) as (txs & _ & _ & ->).
      change (genesisCreated (propagateBlock ?blk ?s)) with (genesisCreated s).
      pose proof (applyConsensusRules_frame (blockId b)
                    (processBlockTransactions txs (fileBlock b st))) as (_ & _ & Hg3 & _).
      simpl in Hg3. rewrite Hg3.
      pose proof (processBlockTransactions_frame txs (fileBlock b st)) as (_ & _ & -> & _).
      by pose proof (fileBlock_fields b st) as (_ & _ & _ & _ & _ & _ & ->).
  - by pose proof (addTransaction_chain tx st) as (_ & _ & _ & _ & ->).
  - apply (syncWithPeer_preserves (fun s => genesisCreated s = true)); [| | done].
    + intros s tx Hs. unfold syncTransaction. by destruct (_ && _).
    + intros s b Hs. unfold syncBlock. by destruct (negb _).
Qed.

Lemma exec_genesisCreated (ops : list Op) (st : InventoryManager) :
  genesisCreated st = true -> genesisCreated (exec ops st) = true.
Proof.
  apply (exec_invariant (fun s => genesisCreated s = true)).
  intros s op. apply step_genesisCreated.
Qed.

Lemma createGenesisBlock_guarded (nodeId now : string) (st : InventoryManager) :
  genesisCreated st || (0 <? size (blocks st))%nat = true ->
  createGenesisBlock nodeId now st = (st, None).
Proof. intros Hguard. unfold createGenesisBlock. by rewrite Hguard. Qed.

Lemma createGenesisBlock_fresh (nodeId now : string) (st : InventoryManager) :
  genesisCreated st = false -> blocks st = ∅ ->
  let block :=
    Block.mk (Some true) zeroHash now "0" nodeId EmptyString 0 (Some []) EmptyString in
  let g := calculateBlockHash block in
  createGenesisBlock nodeId now st
  = (mkInventory (<[g := Block.with_hash g block]> (blocks st)) (transactions st)
       ({[g]} ∪ seenMessages st) (<[nodeId := JS.of_Z 100]> (balances st))
       true (Some g) (<[g := 0]> (blockHeights st)) (propagated st),
     Some (Block.with_hash g block)).
Proof.
  intros Hcreated Hempty block g. unfold createGenesisBlock.
  rewrite Hcreated, Hempty, map_size_empty. reflexivity.
Qed.

(** X7.  [createGenesisBlock] declines, returning no block and leaving the
    store as it is, exactly when a genesis block was created or any block is
    stored.  Otherwise it files a block under the hash that
    [calculateBlockHash] gives for it, at height 0, as the head, and sets
    the node's balance to 100; from then on it declines, whatever operations
    come in between. *)
Theorem createGenesisBlock_once (nodeId now : string) (st : InventoryManager) :
  (snd (createGenesisBlock nodeId now st) = None
   <-> genesisCreated st = true \/ blocks st <> ∅)
  /\ (snd (createGenesisBlock nodeId now st) = None ->
      fst (createGenesisBlock nodeId now st) = st)
  /\ (forall g, snd (createGenesisBlock nodeId now st) = Some g ->
        let st' := fst (createGenesisBlock nodeId now st) in
        Block.hash g = calculateBlockHash g
        /\ blocks st' = {[Block.hash g := g]}
        /\ Block.hash g ∈ seenMessages st'
        /\ blockHeights st' !! Block.hash g = Some 0
        /\ blockchainHead st' = Some (Block.hash g)
        /\ balances st' !! nodeId = Some (JS.of_Z 100)
        /\ forall ops nodeId' now',
             createGenesisBlock nodeId' now' (exec ops st') = (exec ops st', None)).
Proof.
  destruct (genesisCreated st || (0 <? size (blocks st))%nat) eqn:Hguard.
  { rewrite (createGenesisBlock_guarded nodeId now st Hguard). simpl.
    split; [| split; [done | discriminate]].
    split; [| done]. intros _.
    apply orb_true_iff in Hguard as [Hcreated | Hsize]; [by left |].
    right. intros Hempty. apply Nat.ltb_lt in Hsize.
    rewrite Hempty, map_size_empty in Hsize. lia. }
  apply orb_false_iff in Hguard as [Hcreated Hsize].
  apply Nat.ltb_ge in Hsize.
  assert (Hempty : blocks st = ∅) by (apply map_size_empty_iff; lia).
  rewrite (createGenesisBlock_fresh nodeId now st Hcreated Hempty).
  cbn [fst snd].
  split; [| split; [discriminate |]].
  { split; [discriminate |]. intros [? | ?]; congruence. }
  intros g [= <-]. cbn [Block.hash Block.with_hash].
  split; [by rewrite calculateBlockHash_with_hash |].
  cbn [blocks seenMessages blockHeights blockchainHead balances].
  split; [by rewrite Hempty |].
  split; [set_solver |].
  split; [apply lookup_insert_eq |].
  split; [done |].
  split; [apply lookup_insert_eq |].
  intros ops nodeId' now'.
  apply createGenesisBlock_guarded, orb_true_iff. left.
  by apply exec_genesisCreated.
Qed.

(** * Further properties of the balance ledger *)

(** ** Applying and rolling back *)

(** When it does not round, one iteration of [processBlockTransactions]
    debits the sender and credits the receiver. *)
Lemma processTx_balance (st : InventoryManager) (tx : Tx.t) (a : string) :
  exactProcessTx st tx = true ->
  unitsOf (balanceOr0 (balances (processTx st tx)) a)
  = unitsOf (balanceOr0 (balances st) a) - outflow a [tx] + inflow a [tx].
Proof.
  intros Hexact. rewrite processTx_balances. unfold exactProcessTx in Hexact. simpl.
  destruct (effective tx); simpl; [| lia].
  apply andb_true_iff in Hexact as [Hdiff Hsum].
  apply exactDifference_units in Hdiff as (x & y & Hx & Hy & Hx').
  apply exactSum_units in Hsum as (r & y' & Hr & Hy' & Hr').
  assert (y' = y) by congruence. subst y'.
  rewrite (unitsOf_units _ _ Hy).
  destruct (String.eqb_spec (Tx.receiver tx) a) as [<- | Hra].
  - rewrite (unitsOf_units _ _ (units_balanceOr0_insert _ _ _ _ Hr')).
    destruct (String.eqb_spec (Tx.sender tx) (Tx.receiver tx)) as [Hsr | Hsr].
    + rewrite <- Hsr in Hr |- *. rewrite (units_balanceOr0_insert _ _ _ _ Hx') in Hr.
      rewrite (unitsOf_units _ _ Hx). injection Hr as <-. lia.
    + rewrite balanceOr0_insert_ne in Hr by done.
      rewrite (unitsOf_units _ _ Hr). lia.
  - rewrite balanceOr0_insert_ne by done.
    destruct (String.eqb_spec (Tx.sender tx) a) as [<- | Hsa].
    + rewrite (unitsOf_units _ _ (units_balanceOr0_insert _ _ _ _ Hx')).
      rewrite (unitsOf_units _ _ Hx). lia.
    + rewrite balanceOr0_insert_ne by done. lia.
Qed.

Lemma processTxs_balance (txs : list Tx.t) (st : InventoryManager) (a : string) :
  exactlyApplied txs st = true ->
  unitsOf (balanceOr0 (balances (processBlockTransactions txs st)) a)
  = unitsOf (balanceOr0 (balances st) a) - outflow a txs + inflow a txs.
Proof.
  unfold processBlockTransactions, exactlyApplied. revert st.
  induction txs as [| tx txs IH]; intros st Hexact; simpl; [lia |].
  simpl in Hexact. apply andb_true_iff in Hexact as [Hfirst Hlater].
  rewrite IH by done. rewrite (processTx_balance st tx a Hfirst). simpl. lia.
Qed.





(** ** Validation of the transactions of a block *)

Lemma validateTxs_cons (bal : gmap string JS.value) (tx : Tx.t) (rest : list Tx.t) :
  validateTxs bal (tx :: rest) = true ->
  truthy (Tx.id tx) = true /\ effective tx = true
  /\ JS.le (Tx.amount tx) JS.zero = false
  /\ JS.lt (balanceOr0 bal (Tx.sender tx)) (Tx.amount tx) = false
  /\ validateTxs
       (<[Tx.receiver tx :=
            JS.plus
              (balanceOr0
                 (<[Tx.sender tx := JS.minus (balanceOr0 bal (Tx.sender tx)) (Tx.amount tx)]>
                    bal) (Tx.receiver tx)) (Tx.amount tx)]>
          (<[Tx.sender tx := JS.minus (balanceOr0 bal (Tx.sender tx)) (Tx.amount tx)]> bal))
       rest = true.
Proof.
  simpl. unfold effective.
  destruct (truthy (Tx.id tx)); simpl; [| discriminate].
  destruct (truthy (Tx.sender tx)); simpl; [| discriminate].
  destruct (truthy (Tx.receiver tx)); simpl; [| discriminate].
  destruct (JS.truthy (Tx.amount tx)); simpl; [| discriminate].
  destruct (JS.le (Tx.amount tx) JS.zero) eqn:Hpos; [discriminate |].
  destruct (JS.lt (balanceOr0 bal (Tx.sender tx)) (Tx.amount tx)) eqn:Hcover;
    [discriminate |].
  intros Hrest. repeat split; done.
Qed.

Lemma processTx_validated (st : InventoryManager) (tx : Tx.t) :
  truthy (Tx.id tx) = true -> effective tx = true ->
  balances (processTx st tx)
  = <[Tx.receiver tx :=
        JS.plus
          (balanceOr0
             (<[Tx.sender tx :=
                  JS.minus (balanceOr0 (balances st) (Tx.sender tx)) (Tx.amount tx)]>
                (balances st)) (Tx.receiver tx)) (Tx.amount tx)]>
      (<[Tx.sender tx := JS.minus (balanceOr0 (balances st) (Tx.sender tx)) (Tx.amount tx)]>
         (balances st))
  /\ transactions (processTx st tx) !! Tx.id tx = None.
Proof.
  intros Hid Heff. split.
  { by rewrite processTx_balances, Heff. }
  unfold effective in Heff.
  apply andb_true_iff in Heff as [Heff Hamount].
  apply andb_true_iff in Heff as [Hsender Hreceiver].
  unfold processTx. rewrite Hsender, Hreceiver, Hamount, Hid. simpl.
  destruct (mhas (transactions st) (Tx.id tx)) eqn:Hhas; simpl.
  - apply lookup_delete_eq.
  - unfold mhas in Hhas. apply bool_decide_eq_false in Hhas.
    by apply eq_None_not_Some.
Qed.

Lemma solvent_insert (m : gmap string JS.value) (k : string) (v : JS.value) :
  solvent m -> 0 <= unitsOf v -> solvent (<[k := v]> m).
Proof.
  intros Hm Hv a. destruct (decide (k = a)) as [-> | Hne].
  - by rewrite unitsOf_balanceOr0, lookup_insert_eq.
  - rewrite balanceOr0_insert_ne by done. apply Hm.
Qed.

Lemma lookup_None_subseteq (m m' : gmap string Tx.t) (k : string) :
  m' ⊆ m -> m !! k = None -> m' !! k = None.
Proof.
  intros Hsub Hnone. destruct (m' !! k) as [v |] eqn:Hk; [| done].
  apply (lookup_weaken _ _ _ _ Hk) in Hsub. congruence.
Qed.

Lemma processBlockTransactions_validated (txs : list Tx.t) :
  forall st,
    validateTxs (balances st) txs = true ->
    exactlyApplied txs st = true ->
    solvent (balances st) ->
    solvent (balances (processBlockTransactions txs st)).
Proof.
  unfold exactlyApplied.
  induction txs as [| tx txs IH]; intros st Hvalid Hexact Hsolvent; [done |].
  apply validateTxs_cons in Hvalid as (Hid & Heff & Hpositive & Hcovered & Hrest).
  simpl in Hexact. apply andb_true_iff in Hexact as [Hfirst Hlater].
  destruct (processTx_validated st tx Hid Heff) as [Hbal _].
  change (processBlockTransactions (tx :: txs) st)
    with (processBlockTransactions txs (processTx st tx)).
  apply IH; [by rewrite Hbal | done |].
  rewrite Hbal. unfold exactProcessTx in Hfirst. rewrite Heff in Hfirst.
  apply andb_true_iff in Hfirst as [Hdiff Hsum].
  apply exactDifference_units in Hdiff as (x & y & Hx & Hy & Hx').
  apply exactSum_units in Hsum as (r & y' & Hr & Hy' & Hr').
  assert (y' = y) by congruence. subst y'.
  rewrite (units_le _ _ _ _ Hy units_zero) in Hpositive.
  rewrite (units_lt _ _ _ _ Hx Hy) in Hcovered.
  apply Z.leb_gt in Hpositive. apply Z.ltb_ge in Hcovered.
  assert (Hafter : solvent (<[Tx.sender tx :=
                                JS.minus (balanceOr0 (balances st) (Tx.sender tx))
                                  (Tx.amount tx)]> (balances st))).
  { apply solvent_insert; [done |]. rewrite (unitsOf_units _ _ Hx'). lia. }
  apply solvent_insert; [exact Hafter |].
  rewrite (unitsOf_units _ _ Hr').
  specialize (Hafter (Tx.receiver tx)). rewrite (unitsOf_units _ _ Hr) in Hafter. lia.
Qed.

Lemma validateTxs_all (txs : list Tx.t) :
  forall bal, validateTxs bal txs = true ->
              forall tx, tx ∈ txs -> truthy (Tx.id tx) = true /\ effective tx = true.
Proof.
  induction txs as [| tx txs IH]; intros bal Hvalid tx' Htx'.
  { by apply elem_of_nil in Htx'. }
  apply validateTxs_cons in Hvalid as (Hid & Heff & _ & _ & Hrest).
  apply elem_of_cons in Htx' as [-> | Htx']; [done |].
  by apply (IH _ Hrest).
Qed.

Lemma processBlockTransactions_clears (txs : list Tx.t) :
  forall st,
    (forall tx, tx ∈ txs -> truthy (Tx.id tx) = true /\ effective tx = true) ->
    forall tx, tx ∈ txs ->
               transactions (processBlockTransactions txs st) !! Tx.id tx = None.
Proof.
  induction txs as [| tx txs IH]; intros st Hall tx' Htx'.
  { by apply elem_of_nil in Htx'. }
  change (processBlockTransactions (tx :: txs) st)
    with (processBlockTransactions txs (processTx st tx)).
  apply elem_of_cons in Htx' as [-> | Hlater].
  2:{ apply IH; [| done]. intros tx'' Htx''. apply Hall. by apply elem_of_cons; right. }
  destruct (Hall tx) as [Hid Heff]; [by apply elem_of_cons; left |].
  eapply lookup_None_subseteq; [apply processBlockTransactions_pending |].
  by apply processTx_validated.
Qed.


Lemma quantum_positive : 0 < JS.quantum.
Proof. vm_compute. reflexivity. Qed.

Lemma solvent_store0 : solvent (balances store0).
Proof.
  assert (Hbal : balances store0 = <["n1" := JS.of_Z 100]> ∅) by (vm_compute; reflexivity).
  rewrite Hbal. apply solvent_insert.
  - intros a. unfold balanceOr0. rewrite lookup_empty. by rewrite unitsOf_zero.
  - rewrite (unitsOf_units _ _ units_hundred). unfold coins.
    pose proof quantum_positive. lia.
Qed.


(** * Further properties of block identities *)

(** ** The digest has 64 characters *)

Lemma string_length_append (s1 s2 : string) :
  String.length (s1 ++ s2) = (String.length s1 + String.length s2)%nat.
Proof. induction s1 as [| c s1 IH]; simpl; [done | by rewrite IH]. Qed.

Lemma round_length (st : list Z) (kw : Z * Z) :
  length (SHA256.round st kw) = length st.
Proof.
  unfold SHA256.round.
  do 9 (destruct st as [| ? st]; [reflexivity |]). reflexivity.
Qed.

Lemma rounds_length (kws : list (Z * Z)) (st : list Z) :
  length (fold_left SHA256.round kws st) = length st.
Proof.
  revert st. induction kws as [| kw kws IH]; intros st; simpl; [done |].
  by rewrite IH, round_length.
Qed.

Lemma compress_length (hs block : list Z) :
  length (SHA256.compress hs block) = length hs.
Proof.
  unfold SHA256.compress.
  rewrite length_fmap, length_combine, rounds_length. lia.
Qed.

Lemma digest_words_length (s : string) : length (SHA256.digest_words s) = 8%nat.
Proof.
  unfold SHA256.digest_words.
  generalize (SHA256.blocks16
                (length (SHA256.words (SHA256.pad (SHA256.bytes_of_string s))))
                (SHA256.words (SHA256.pad (SHA256.bytes_of_string s)))).
  intros chunks.
  assert (Hfold : forall hs, length (fold_left SHA256.compress chunks hs) = length hs).
  { induction chunks as [| c chunks IH]; intros hs; simpl; [done |].
    by rewrite IH, compress_length. }
  by rewrite Hfold.
Qed.

Lemma hex32_length (x : Z) : String.length (SHA256.hex32 x) = 8%nat.
Proof. reflexivity. Qed.

Lemma hexdigest_length (ws : list Z) :
  String.length (fold_right String.append EmptyString (SHA256.hex32 <$> ws))
  = (8 * length ws)%nat.
Proof.
  induction ws as [| w ws IH]; [reflexivity |].
  rewrite fmap_cons.
  change (fold_right String.append EmptyString (SHA256.hex32 w :: (SHA256.hex32 <$> ws)))
    with (SHA256.hex32 w ++ fold_right String.append EmptyString (SHA256.hex32 <$> ws))%string.
  rewrite string_length_append, IH, hex32_length. simpl length. lia.
Qed.

Lemma sha256_length (data : string) : String.length (sha256 data) = 64%nat.
Proof.
  unfold sha256, SHA256.hexdigest.
  by rewrite hexdigest_length, digest_words_length.
Qed.

Lemma sha256_truthy (data : string) : truthy (sha256 data) = true.
Proof.
  pose proof (sha256_length data) as Hlen.
  destruct (sha256 data); [discriminate Hlen | reflexivity].
Qed.

Lemma blockId_truthy (b : Block.t) : truthy (blockId b) = true.
Proof.
  unfold blockId. destruct (truthy (Block.hash b)) eqn:Hclaimed; [done |].
  apply sha256_truthy.
Qed.

(** X11.  The hash that [calculateBlockHash] recomputes has 64 characters
    and does not depend on the [hash] field of the block; so the identity
    under which [addBlock] files a block is never the empty string, and it
    is the claimed hash whenever one is given. *)
Theorem block_identity (b : Block.t) (claimed : string) :
  String.length (calculateBlockHash b) = 64%nat
  /\ calculateBlockHash (Block.with_hash claimed b) = calculateBlockHash b
  /\ blockId b <> EmptyString
  /\ (Block.hash b = EmptyString -> blockId b = calculateBlockHash b)
  /\ (Block.hash b <> EmptyString -> blockId b = Block.hash b).
Proof.
  split; [apply sha256_length |].
  split; [apply calculateBlockHash_with_hash |].
  split; [apply truthy_true, blockId_truthy |].
  unfold blockId. split.
  - intros ->. reflexivity.
  - intros Hclaimed. apply truthy_true in Hclaimed. by rewrite Hclaimed.
Qed.

(** ** A head exists after the first accepted block *)

(** X12.  When the store has no head, any block that [addBlock] accepts
    becomes the head; and after every accepted block, genesis or regular,
    the store has a head, which is stored. *)
Theorem accepted_block_gives_head (b : Block.t) (st : InventoryManager) :
  snd (addBlock b st) = true ->
  (truthy (headOf st) = false ->
   blockchainHead (fst (addBlock b st)) = Some (blockId b))
  /\ truthy (headOf (fst (addBlock b st))) = true
  /\ (blockchainHead (fst (addBlock b st)) = Some (blockId b)
      \/ blockchainHead (fst (addBlock b st)) = blockchainHead st).
Proof.
  intros Hok. pose proof (blockId_truthy b) as Hid.
  destruct (flag (Block.isGenesis b)) eqn:Hg.
  - destruct (addBlock_genesis b st Hok Hg) as (_ & _ & _ & _ & Hhead & _).
    unfold headOf. rewrite Hhead. simpl. auto.
  - destruct (addBlock_regular_head b st Hok Hg) as (_ & _ & _ & Hhead).
    unfold headOf at 2. rewrite Hhead.
    destruct (truthy (headOf st)) eqn:Hold; simpl.
    + split; [discriminate |].
      repeat match goal with |- context [if ?c then _ else _] => destruct c end;
        simpl; try (split; [exact Hid | auto]).
      split; [| auto]. unfold headOf in Hold. exact Hold.
    + auto.
Qed.

(** A regular block on an empty store: [blockB] becomes the head although
    its parent is unknown. *)
Lemma accepted_block_gives_head_witness :
  snd (addBlock blockB newInventory) = true
  /\ truthy (headOf newInventory) = false
  /\ blockchainHead (fst (addBlock blockB newInventory)) = Some (Block.hash blockB).
Proof.
  assert (Hok : snd (addBlock blockB newInventory) = true) by (vm_compute; reflexivity).
  split; [exact Hok |]. split; [reflexivity |].
  exact (proj1 (accepted_block_gives_head blockB newInventory Hok) eq_refl).
Defined.

(** * Further properties of chains *)

(** ** The walk of [getChainToBlock] *)

Lemma chainLoop_app (n : nat) (bs : gmap string Block.t) :
  forall (h : string) (acc : list string),
    chainLoop n bs h acc = chainLoop n bs h [] ++ acc.
Proof.
  induction n as [| n IH]; intros h acc; simpl; [done |].
  destruct (negb (truthy h)); [done |].
  destruct (bs !! h) as [b |]; [| done].
  destruct (flag (Block.isGenesis b)); [done |].
  rewrite (IH _ (h :: acc)), (IH _ [h]). by rewrite <- app_assoc.
Qed.

(** One step of the walk, read from the requested hash. *)
Lemma chainLoop_step (n : nat) (bs : gmap string Block.t) (h : string) :
  chainLoop (S n) bs h []
  = if negb (truthy h) then []
    else match bs !! h with
         | None => []
         | Some b =>
             if flag (Block.isGenesis b) then [h]
             else chainLoop n bs (Block.previousHash b) [] ++ [h]
         end.
Proof.
  simpl. destruct (negb (truthy h)); [done |].
  destruct (bs !! h) as [b |]; [| done].
  destruct (flag (Block.isGenesis b)); [done |].
  apply chainLoop_app.
Qed.

Lemma chainLoop_length (n : nat) (bs : gmap string Block.t) :
  forall h, (length (chainLoop n bs h []) <= n)%nat.
Proof.
  induction n as [| n IH]; intros h; [simpl; lia |].
  rewrite chainLoop_step.
  destruct (negb (truthy h)); [simpl; lia |].
  destruct (bs !! h) as [b |]; [| simpl; lia].
  destruct (flag (Block.isGenesis b)); [simpl; lia |].
  rewrite length_app. simpl. specialize (IH (Block.previousHash b)). lia.
Qed.

Lemma chainLoop_last (n : nat) (bs : gmap string Block.t) (h : string) :
  chainLoop n bs h [] = [] \/ last (chainLoop n bs h []) = Some h.
Proof.
  destruct n as [| n]; [by left |].
  rewrite chainLoop_step.
  destruct (negb (truthy h)); [by left |].
  destruct (bs !! h) as [b |]; [| by left].
  destruct (flag (Block.isGenesis b)); [by right |].
  right. apply last_snoc.
Qed.

Lemma chainLoop_empty (n : nat) (bs : gmap string Block.t) (h : string) :
  chainLoop (S n) bs h [] = [] <-> h = EmptyString \/ bs !! h = None.
Proof.
  rewrite chainLoop_step.
  destruct (truthy h) eqn:Hh; simpl.
  2:{ apply truthy_false in Hh. tauto. }
  apply truthy_true in Hh.
  destruct (bs !! h) as [b |]; [| tauto].
  destruct (flag (Block.isGenesis b)).
  - split; [discriminate | intros [? | ?]; congruence].
  - split; [| intros [? | ?]; congruence].
    intros Hnil. by apply app_eq_nil in Hnil as [_ ?].
Qed.

Lemma linked_snoc (bs : gmap string Block.t) (chain : list string) (h : string) (b : Block.t) :
  linked bs chain ->
  bs !! h = Some b -> flag (Block.isGenesis b) = false ->
  (chain = [] \/ last chain = Some (Block.previousHash b)) ->
  linked bs (chain ++ [h]).
Proof.
  intros Hlinked Hb Hregular Hlast.
  induction chain as [| x chain IH]; simpl.
  { split; [eauto | done]. }
  destruct Hlinked as (Hx & Hnext & Hrest).
  destruct Hlast as [? | Hlast]; [done |].
  split; [done |]. destruct chain as [| y chain]; simpl.
  - simpl in Hlast. injection Hlast as ->.
    split; [by exists b |]. split; [eauto | done].
  - split; [done |]. apply IH; [done |]. right. exact Hlast.
Qed.

Lemma chainLoop_linked (n : nat) (bs : gmap string Block.t) :
  forall h, linked bs (chainLoop n bs h []).
Proof.
  induction n as [| n IH]; intros h; [done |].
  rewrite chainLoop_step.
  destruct (negb (truthy h)); [done |].
  destruct (bs !! h) as [b |] eqn:Hb; [| done].
  destruct (flag (Block.isGenesis b)) eqn:Hg.
  - simpl. split; [eauto | done].
  - apply (linked_snoc bs _ h b); [apply IH | done | done |].
    apply chainLoop_last.
Qed.

(** Where the walk starts: at a genesis block, at a block whose parent is
    not stored, or where the iterations ran out. *)
Lemma chainLoop_first (n : nat) (bs : gmap string Block.t) :
  forall h g,
    head (chainLoop n bs h []) = Some g ->
    exists b, bs !! g = Some b
              /\ (flag (Block.isGenesis b) = true
                  \/ Block.previousHash b = EmptyString
                  \/ bs !! Block.previousHash b = None
                  \/ length (chainLoop n bs h []) = n).
Proof.
  induction n as [| n IH]; intros h g; [discriminate |].
  rewrite chainLoop_step.
  destruct (negb (truthy h)); [discriminate |].
  destruct (bs !! h) as [b |] eqn:Hb; [| discriminate].
  destruct (flag (Block.isGenesis b)) eqn:Hg.
  { simpl. intros [= <-]. exists b. auto. }
  destruct (chainLoop n bs (Block.previousHash b) []) as [| x rest] eqn:Hwalk.
  - simpl. intros [= <-]. exists b. split; [done |].
    destruct n as [| n]; [right; right; right; reflexivity |].
    apply chainLoop_empty in Hwalk. tauto.
  - simpl. intros [= <-].
    destruct (IH (Block.previousHash b) x) as (bx & Hbx & Hcases).
    { by rewrite Hwalk. }
    exists bx. split; [done |].
    destruct Hcases as [? | [? | [? | Hfull]]]; auto.
    right. right. right. rewrite length_app. simpl.
    rewrite Hwalk in Hfull. simpl in Hfull. lia.
Qed.

Lemma getChainToBlock_nonempty (h : string) (st : InventoryManager) :
  getChainToBlock h st = []
  \/ (h <> EmptyString /\ is_Some (blocks st !! h)).
Proof.
  unfold getChainToBlock. change 1000%nat with (S 999).
  destruct (decide (h = EmptyString)) as [-> | Hh].
  { left. apply chainLoop_empty. by left. }
  destruct (blocks st !! h) as [b |] eqn:Hb.
  - right. eauto.
  - left. apply chainLoop_empty. by right.
Qed.

(** X13.  [getChainToBlock] returns at most 1000 hashes, all of stored
    blocks, each block after the first a regular block whose [previousHash]
    is the hash before it; the list is empty exactly for the empty hash or
    an unknown one, and otherwise ends with the requested hash; it starts
    at a genesis block, at a block whose parent is unknown, or where the
    1000 iterations ran out. *)
Theorem getChainToBlock_walk (h : string) (st : InventoryManager) :
  (length (getChainToBlock h st) <= 1000)%nat
  /\ linked (blocks st) (getChainToBlock h st)
  /\ (getChainToBlock h st = [] <-> h = EmptyString \/ getBlock h st = None)
  /\ (getChainToBlock h st <> [] -> last (getChainToBlock h st) = Some h)
  /\ (forall g, head (getChainToBlock h st) = Some g ->
        exists b, getBlock g st = Some b
                  /\ (flag (Block.isGenesis b) = true
                      \/ Block.previousHash b = EmptyString
                      \/ getBlock (Block.previousHash b) st = None
                      \/ length (getChainToBlock h st) = 1000%nat)).
Proof.
  unfold getChainToBlock, getBlock.
  split; [apply chainLoop_length |].
  split; [apply chainLoop_linked |].
  split; [apply chainLoop_empty |].
  split; [| apply chainLoop_first].
  intros Hne. by destruct (chainLoop_last 1000 (blocks st) h) as [? | ?].
Qed.

(** ** The fork point of a reorganization *)

Lemma commonAncestorIndex_spec (oldChain newChain : list string) :
  let k := commonAncestorIndex oldChain newChain in
  take k oldChain = take k newChain
  /\ (k <= length oldChain)%nat /\ (k <= length newChain)%nat
  /\ (forall o n, oldChain !! k = Some o -> newChain !! k = Some n -> o <> n).
Proof.
  revert newChain.
  induction oldChain as [| o oldChain IH]; intros [| n newChain]; simpl;
    try (repeat split; try lia; intros; discriminate).
  destruct (String.eqb_spec o n) as [-> | Hne]; simpl.
  - destruct (IH newChain) as (Htake & Hold & Hnew & Hdiff).
    repeat split; [by rewrite Htake | lia | lia | exact Hdiff].
  - repeat split; try lia. intros o' n' [= <-] [= <-]. exact Hne.
Qed.

Lemma commonAncestorIndex_prefix (chain rest : list string) :
  commonAncestorIndex chain (chain ++ rest) = length chain.
Proof.
  induction chain as [| h chain IH]; simpl; [by destruct rest |].
  by rewrite String.eqb_refl, IH.
Qed.

Lemma rev_is_reverse {A : Type} (l : list A) : rev l = reverse l.
Proof. apply rev_alt. Qed.

(** X14.  The reorganization splits both chains at their longest common
    prefix: the old chain is the prefix followed by the rolled-back hashes in
    reverse, the new chain is the prefix followed by the hashes to apply, and
    where both remainders are non-empty they start with different hashes. *)
Theorem reorganization_splits_at_fork (oldHead newHead : string) (st : InventoryManager) :
  let oldChain := getChainToBlock oldHead st in
  let newChain := getChainToBlock newHead st in
  let common := take (commonAncestorIndex oldChain newChain) oldChain in
  oldChain = common ++ rev (blocksToRollback oldHead newHead st)
  /\ newChain = common ++ blocksToApply oldHead newHead st
  /\ (forall o n, last (blocksToRollback oldHead newHead st) = Some o ->
                  head (blocksToApply oldHead newHead st) = Some n -> o <> n).
Proof.
  intros oldChain newChain common.
  unfold blocksToRollback, blocksToApply.
  fold oldChain. fold newChain.
  destruct (commonAncestorIndex_spec oldChain newChain) as (Htake & _ & _ & Hdiff).
  split; [| split].
  - rewrite rev_involutive. subst common. by rewrite take_drop.
  - subst common. rewrite Htake. by rewrite take_drop.
  - intros o n Ho Hn. apply Hdiff.
    + rewrite rev_is_reverse, last_reverse in Ho. rewrite head_lookup in Ho.
      rewrite lookup_drop in Ho. by rewrite Nat.add_0_r in Ho.
    + rewrite head_lookup, lookup_drop in Hn. by rewrite Nat.add_0_r in Hn.
Qed.

(** ** A block that extends the head *)

Lemma chainLoop_more (bs : gmap string Block.t) :
  forall (n : nat) (h : string),
    (length (chainLoop (S n) bs h []) <= n)%nat ->
    chainLoop n bs h [] = chainLoop (S n) bs h [].
Proof.
  induction n as [| n IH]; intros h Hlen.
  { revert Hlen. destruct (chainLoop 1 bs h []); simpl; [done | lia]. }
  revert Hlen. rewrite (chainLoop_step n), (chainLoop_step (S n)).
  destruct (negb (truthy h)); [done |].
  destruct (bs !! h) as [b |]; [| done].
  destruct (flag (Block.isGenesis b)); [done |].
  rewrite length_app. change (length [h]) with 1%nat. intros Hlen.
  rewrite (IH (Block.previousHash b)) by lia. done.
Qed.

(** A walk that ends at a genesis block never asks for a hash that is not
    stored, so storing a new block leaves it as it is. *)
Lemma chainLoop_insert (bs : gmap string Block.t) (k : string) (v : Block.t) :
  bs !! k = None ->
  forall (n : nat) (h : string),
    (exists g bg, head (chainLoop n bs h []) = Some g
                  /\ bs !! g = Some bg /\ flag (Block.isGenesis bg) = true) ->
    chainLoop n (<[k := v]> bs) h [] = chainLoop n bs h [].
Proof.
  intros Hfresh.
  induction n as [| n IH]; intros h (g & bg & Hhead & Hg & Hgenesis); [done |].
  rewrite chainLoop_step in Hhead. rewrite !chainLoop_step.
  destruct (negb (truthy h)); [done |].
  destruct (bs !! h) as [b |] eqn:Hb; [| discriminate Hhead].
  assert (Hne : k <> h) by congruence.
  rewrite lookup_insert_ne, Hb by done.
  destruct (flag (Block.isGenesis b)) eqn:Hregular; [done |].
  rewrite IH; [done |].
  destruct (chainLoop n bs (Block.previousHash b) []) as [| x rest].
  - simpl in Hhead. injection Hhead as <-. congruence.
  - exists g, bg. by simpl in Hhead.
Qed.

Lemma assignedHeight_above (h : string) (st : InventoryManager) :
  heightOf st h < assignedHeight h st.
Proof.
  unfold heightOf, getOr0, assignedHeight.
  destruct (blockHeights st !! h) as [v |]; simpl; [| lia].
  destruct (nonzero v) eqn:Hv.
  - destruct (Z.eqb_spec v (-1)); lia.
  - unfold nonzero in Hv. apply negb_false_iff, Z.eqb_eq in Hv. subst v. simpl. lia.
Qed.

Lemma assignedHeight_next (h : string) (st : InventoryManager) :
  (forall k v, blockHeights st !! k = Some v -> 0 <= v) ->
  assignedHeight h st = heightOf st h + 1.
Proof.
  intros Hpos. unfold heightOf, getOr0, assignedHeight.
  destruct (blockHeights st !! h) as [v |] eqn:Hh; simpl; [| lia].
  specialize (Hpos h v Hh).
  destruct (nonzero v) eqn:Hv.
  - destruct (Z.eqb_spec v (-1)); lia.
  - unfold nonzero in Hv. apply negb_false_iff, Z.eqb_eq in Hv. subst v. simpl. lia.
Qed.

(** The two chains that [applyConsensusRules] compares when the filed block
    extends an anchored head. *)
Lemma chains_of_extension (b : Block.t) (h : string) (st : InventoryManager) :
  blocks st !! blockId b = None ->
  anchored h st ->
  flag (Block.isGenesis b) = false ->
  Block.previousHash b = h ->
  forall st1,
    blocks st1 = <[blockId b := Block.with_hash (blockId b) b]> (blocks st) ->
    getChainToBlock h st1 = getChainToBlock h st
    /\ getChainToBlock (blockId b) st1 = getChainToBlock h st ++ [blockId b].
Proof.
  intros Hfresh [Hshort Hroot] Hregular Hprev st1 Hblocks.
  unfold getChainToBlock in *. rewrite Hblocks.
  change 1000%nat with (S 999) in *.
  assert (Hsame : chainLoop 999 (blocks st) h [] = chainLoop (S 999) (blocks st) h []).
  { apply chainLoop_more. lia. }
  split.
  - by apply chainLoop_insert.
  - rewrite (chainLoop_step 999).
    rewrite blockId_truthy. simpl negb. cbv iota.
    rewrite lookup_insert_eq.
    change (flag (Block.isGenesis (Block.with_hash (blockId b) b)))
      with (flag (Block.isGenesis b)).
    change (Block.previousHash (Block.with_hash (blockId b) b))
      with (Block.previousHash b).
    rewrite Hregular, Hprev.
    rewrite chainLoop_insert; [by rewrite Hsame | done |].
    by rewrite Hsame.
Qed.

Lemma reorganization_of_extension (chain : list string) (id h : string)
    (st1 : InventoryManager) :
  getChainToBlock h st1 = chain ->
  getChainToBlock id st1 = chain ++ [id] ->
  handleChainReorganization h id st1 = applyBlock st1 id.
Proof.
  intros Hold Hnew.
  unfold handleChainReorganization, rollbackChain, blocksToRollback, blocksToApply.
  rewrite Hold, Hnew, commonAncestorIndex_prefix.
  rewrite drop_all, drop_app_length. done.
Qed.



(** ** The main chain *)

Lemma keyed_insert (st : InventoryManager) (k : string) (b : Block.t)
    (bs : gmap string Block.t) :
  keyed st -> Block.hash b = k -> bs = <[k := b]> (blocks st) ->
  forall h b', bs !! h = Some b' -> Block.hash b' = h.
Proof.
  intros Hkeyed Hk -> h b'.
  destruct (decide (k = h)) as [<- | Hne].
  - rewrite lookup_insert_eq. by intros [= <-].
  - rewrite lookup_insert_ne by done. apply Hkeyed.
Qed.

Lemma step_keyed (st : InventoryManager) (op : Op) : keyed st -> keyed (step st op).
Proof.
  intros Hkeyed.
  destruct op as [nodeId now | b | tx | txs answers]; simpl.
  - destruct (genesisCreated st || (0 <? size (blocks st))%nat) eqn:Hguard.
    { by rewrite (createGenesisBlock_guarded nodeId now st Hguard). }
    apply orb_false_iff in Hguard as [Hcreated Hsize].
    apply Nat.ltb_ge in Hsize.
    assert (Hempty : blocks st = ∅) by (apply map_size_empty_iff; lia).
    rewrite (createGenesisBlock_fresh nodeId now st Hcreated Hempty).
    cbn [fst]. unfold keyed. cbn [blocks].
    set (g := calculateBlockHash _).
    match goal with
    | |- context [<[g := ?blk]> _] => exact (keyed_insert st g blk _ Hkeyed eq_refl eq_refl)
    end.
  - destruct (snd (addBlock b st)) eqn:Hok.
    2:{ by rewrite (addBlock_rejected b st Hok). }
    exact (keyed_insert st (blockId b) (Block.with_hash (blockId b) b) _
             Hkeyed eq_refl (addBlock_blocks b st Hok)).
  - unfold keyed. by rewrite (proj1 (addTransaction_chain tx st)).
  - apply syncWithPeer_preserves; [| | done].
    + intros s tx' Hs. unfold syncTransaction. by destruct (_ && _).
    + intros s b Hs. unfold syncBlock. destruct (negb _); [| done].
      exact (keyed_insert s (Block.hash b) b _ Hs eq_refl eq_refl).
Qed.

Lemma reachable_keyed (st : InventoryManager) : reachable st -> keyed st.
Proof.
  intros [ops <-]. apply (exec_invariant keyed); [apply step_keyed |].
  intros h b Hb. change (blocks newInventory) with (∅ : gmap string Block.t) in Hb.
  by rewrite lookup_empty in Hb.
Qed.

Lemma calculateBlockHash_truthy (b : Block.t) : truthy (calculateBlockHash b) = true.
Proof. unfold calculateBlockHash. apply sha256_truthy. Qed.

Lemma step_headNamed (st : InventoryManager) (op : Op) :
  headNamed st -> headNamed (step st op).
Proof.
  unfold headNamed. intros Hnamed.
  destruct op as [nodeId now | b | tx | txs answers]; simpl.
  - destruct (genesisCreated st || (0 <? size (blocks st))%nat) eqn:Hguard.
    { by rewrite (createGenesisBlock_guarded nodeId now st Hguard). }
    apply orb_false_iff in Hguard as [Hcreated Hsize].
    apply Nat.ltb_ge in Hsize.
    assert (Hempty : blocks st = ∅) by (apply map_size_empty_iff; lia).
    rewrite (createGenesisBlock_fresh nodeId now st Hcreated Hempty).
    cbn [fst blockchainHead]. intros [= Hnil].
    pose proof (calculateBlockHash_truthy
                  (Block.mk (Some true) zeroHash now "0" nodeId EmptyString 0
                     (Some []) EmptyString)) as Htruthy.
    rewrite Hnil in Htruthy. discriminate Htruthy.
  - destruct (snd (addBlock b st)) eqn:Hok.
    2:{ by rewrite (addBlock_rejected b st Hok). }
    assert (Hid : blockId b <> EmptyString) by (apply truthy_true, blockId_truthy).
    destruct (flag (Block.isGenesis b)) eqn:Hg.
    + destruct (addBlock_genesis b st Hok Hg) as (_ & _ & _ & _ & -> & _). congruence.
    + destruct (addBlock_regular_head b st Hok Hg) as (_ & _ & _ & ->).
      destruct (negb _); [congruence |].
      destruct (_ <? _); [congruence |].
      destruct (_ && _); congruence.
  - by rewrite (proj1 (proj2 (proj2 (addTransaction_chain tx st)))).
  - by rewrite (proj1 (proj2 (syncWithPeer_frame txs answers st))).
Qed.

Lemma reachable_headNamed (st : InventoryManager) : reachable st -> headNamed st.
Proof.
  intros [ops <-]. apply (exec_invariant headNamed); [apply step_headNamed | done].
Qed.

Lemma linked_blocks (bs : gmap string Block.t) (chain : list string) :
  linked bs chain -> Forall2 (fun h b => bs !! h = Some b) chain (omap (bs !!.) chain).
Proof.
  induction chain as [| h chain IH]; simpl; [constructor |].
  intros ([b Hb] & _ & Hrest). rewrite Hb. constructor; [done | by apply IH].
Qed.

Lemma linked_lookup (bs : gmap string Block.t) (chain : list string) :
  linked bs chain ->
  forall i h h', chain !! i = Some h -> chain !! S i = Some h' ->
    exists b', bs !! h' = Some b' /\ flag (Block.isGenesis b') = false
               /\ Block.previousHash b' = h.
Proof.
  induction chain as [| x chain IH]; intros Hlinked i h h' Hi Hi'; [done |].
  destruct Hlinked as (_ & Hnext & Hrest).
  destruct i as [| i].
  - destruct chain as [| y chain]; [done |].
    simpl in Hi, Hi'. injection Hi as <-. injection Hi' as <-. exact Hnext.
  - by apply (IH Hrest i).
Qed.

(** X16.  In a reachable store with a head, [getMainChain] returns between
    one and 1000 blocks, the blocks of the hashes of [getChainToBlock]; the
    last one is the head's block, and every block after the first is a
    regular block whose [previousHash] is the [hash] of the block before
    it. *)
Theorem main_chain_ends_at_head (h : string) (st : InventoryManager) :
  reachable st ->
  blockchainHead st = Some h ->
  exists b,
    getBlock h st = Some b
    /\ last (getMainChain st) = Some b
    /\ (1 <= length (getMainChain st) <= 1000)%nat
    /\ Block.hash <$> getMainChain st = getChainToBlock h st
    /\ forall i b1 b2,
         getMainChain st !! i = Some b1 -> getMainChain st !! S i = Some b2 ->
         flag (Block.isGenesis b2) = false /\ Block.previousHash b2 = Block.hash b1.
Proof.
  intros Hreach Hhead.
  pose proof (reachable_keyed st Hreach) as Hkeyed.
  pose proof (reachable_headNamed st Hreach) as Hnamed.
  destruct (reachable_headStored st Hreach h Hhead) as [[b Hb] _].
  assert (Hh : h <> EmptyString) by (unfold headNamed in Hnamed; congruence).
  assert (Hmain : getMainChain st = omap (blocks st !!.) (getChainToBlock h st)).
  { unfold getMainChain, headOf. rewrite Hhead. simpl default.
    apply truthy_true in Hh. by rewrite Hh. }
  assert (Hlinked : linked (blocks st) (getChainToBlock h st))
    by apply chainLoop_linked.
  pose proof (linked_blocks _ _ Hlinked) as Hall. rewrite <- Hmain in Hall.
  assert (Hlen : (length (getChainToBlock h st) <= 1000)%nat) by apply chainLoop_length.
  assert (Hlast : last (getChainToBlock h st) = Some h).
  { destruct (chainLoop_last 1000 (blocks st) h) as [Hnil | Hlast]; [| done].
    change 1000%nat with (S 999) in Hnil. apply chainLoop_empty in Hnil.
    destruct Hnil; congruence. }
  pose proof (Forall2_length _ _ _ Hall) as Hsame.
  exists b. split; [exact Hb |]. split; [| split; [| split]].
  - rewrite last_lookup in Hlast. rewrite last_lookup, <- Hsame.
    destruct (Forall2_lookup_l _ _ _ _ _ Hall Hlast) as (b' & Hb' & Hstored).
    rewrite Hb'. congruence.
  - rewrite <- Hsame. split; [| done].
    destruct (getChainToBlock h st); [done | simpl; lia].
  - apply list_eq. intros i. rewrite list_lookup_fmap.
    destruct (getMainChain st !! i) as [bi |] eqn:Hi; simpl.
    + destruct (Forall2_lookup_r _ _ _ _ _ Hall Hi) as (k & Hk & Hstored).
      rewrite Hk. f_equal. by apply Hkeyed.
    + symmetry. apply lookup_ge_None. apply lookup_ge_None in Hi. lia.
  - intros i b1 b2 Hi Hi'.
    destruct (Forall2_lookup_r _ _ _ _ _ Hall Hi) as (k1 & Hk1 & Hstored1).
    destruct (Forall2_lookup_r _ _ _ _ _ Hall Hi') as (k2 & Hk2 & Hstored2).
    destruct (linked_lookup _ _ Hlinked i k1 k2 Hk1 Hk2) as (b' & Hb' & Hregular & Hprev).
    assert (b' = b2) by congruence. subst b'.
    split; [done |]. rewrite Hprev. symmetry. by apply Hkeyed.
Qed.

Lemma main_chain_witness :
  exists b, getBlock (Block.hash blockA) storeA = Some b
            /\ last (getMainChain storeA) = Some b
            /\ Block.hash <$> getMainChain storeA = [genesisHash; Block.hash blockA].
Proof.
  assert (Hhead : blockchainHead storeA = Some (Block.hash blockA))
    by (vm_compute; reflexivity).
  destruct (main_chain_ends_at_head (Block.hash blockA) storeA reachable_storeA Hhead)
    as (b & Hb & Hlast & _ & Hhashes & _).
  exists b. split; [exact Hb |]. split; [exact Hlast |].
  rewrite Hhashes. vm_compute. reflexivity.
Defined.

(** * Further properties of block admission *)

(** X17.  The genesis branch of [addBlock] asks for no proof of work and
    looks at no transaction and no height: a block flagged as genesis is
    accepted exactly when neither its claimed nor its recomputed hash was
    seen.  It then becomes the head at height 0 whatever the head was, the
    balance of its creator is set to 100 whatever it was, no other balance
    changes, and the pending pool is left alone. *)
Theorem genesis_block_takes_over (b : Block.t) (st : InventoryManager) :
  flag (Block.isGenesis b) = true ->
  let st' := fst (addBlock b st) in
  (snd (addBlock b st) = true
   <-> (blockId b ∉ seenMessages st) /\ (calculateBlockHash b ∉ seenMessages st))
  /\ (snd (addBlock b st) = true ->
      blockchainHead st' = Some (blockId b)
      /\ heightOf st' (blockId b) = 0
      /\ genesisCreated st' = true
      /\ (Block.creator b <> EmptyString ->
          balanceOr0 (balances st') (Block.creator b) = JS.of_Z 100)
      /\ (forall a, a <> Block.creator b -> balances st' !! a = balances st !! a)
      /\ (Block.creator b = EmptyString -> balances st' = balances st)
      /\ transactions st' = transactions st).
Proof.
  intros Hgenesis st'. split.
  - rewrite addBlock_accepts. split; [tauto |].
    intros [Hclaimed Hcomputed]. auto.
  - intros Hok.
    destruct (addBlock_genesis b st Hok Hgenesis)
      as (_ & _ & Hcreated & Hheights & Hhead & Hbalances & Hpending).
    fold st' in Hcreated, Hheights, Hhead, Hbalances, Hpending.
    split; [exact Hhead |]. split.
    { unfold heightOf. by rewrite Hheights, getOr0_insert_eq. }
    split; [exact Hcreated |]. split; [| split; [| split; [| exact Hpending]]].
    + intros Hcreator. apply truthy_true in Hcreator.
      rewrite Hbalances, Hcreator. unfold balanceOr0. by rewrite lookup_insert_eq.
    + intros a Ha. rewrite Hbalances.
      destruct (truthy (Block.creator b)); [| done].
      by rewrite lookup_insert_ne.
    + intros Hcreator. apply truthy_false in Hcreator.
      by rewrite Hbalances, Hcreator.
Qed.

Lemma genesis_block_takes_over_witness :
  heightOf storeA (Block.hash blockA) = 1
  /\ blockchainHead storeA = Some (Block.hash blockA)
  /\ blockchainHead (fst (addBlock genesis2 storeA)) = Some (Block.hash genesis2)
  /\ heightOf (fst (addBlock genesis2 storeA)) (Block.hash genesis2) = 0.
Proof.
  assert (Hunseen : (blockId genesis2 ∉ seenMessages storeA)
                    /\ (calculateBlockHash genesis2 ∉ seenMessages storeA)).
  { split; apply (bool_decide_unpack _); vm_compute; reflexivity. }
  destruct (genesis_block_takes_over genesis2 storeA eq_refl) as [Haccepts Hafter].
  destruct (Hafter (proj2 Haccepts Hunseen)) as (Hhead & Hheight & _).
  split; [vm_compute; reflexivity |]. split; [vm_compute; reflexivity |].
  split; [exact Hhead | exact Hheight].
Defined.

(** X18.  After [addBlock] accepted a regular block, none of the block's
    transactions is pending, the pending pool has only lost entries, and
    the only new entry of [seenMessages] is the identity of the block: the
    ids of its transactions are not marked as seen. *)
Theorem accepted_block_clears_pending (b : Block.t) (txs : list Tx.t)
    (st : InventoryManager) :
  snd (addBlock b st) = true ->
  flag (Block.isGenesis b) = false ->
  Block.transactions b = Some txs ->
  let st' := fst (addBlock b st) in
  (forall tx, tx ∈ txs -> transactions st' !! Tx.id tx = None)
  /\ transactions st' ⊆ transactions st
  /\ (forall tx, tx ∈ txs -> Tx.id tx ∉ seenMessages st -> Tx.id tx <> blockId b ->
                 Tx.id tx ∉ seenMessages st').
Proof.
  intros Hok Hregular Htxs st'.
  destruct (addBlock_regular b st Hok Hregular) as (txs' & Htxs' & Hvalid & Hst').
  assert (txs' = txs) by congruence. subst txs'.
  split; [| split].
  - intros tx Htx. subst st'. rewrite Hst'.
    change (transactions (propagateBlock _ ?s)) with (transactions s).
    eapply lookup_None_subseteq; [apply applyConsensusRules_pending |].
    apply processBlockTransactions_clears; [| done].
    by apply (validateTxs_all txs (balances st)).
  - apply addBlock_pending.
  - intros tx _ Hunseen Hne. subst st'. rewrite (addBlock_seen b st Hok). set_solver.
Qed.

Lemma accepted_block_clears_witness :
  transactions store1 !! Tx.id tx1 = Some tx1
  /\ transactions (fst (addBlock blockA store1)) !! Tx.id tx1 = None.
Proof.
  assert (Hok : snd (addBlock blockA store1) = true) by (vm_compute; reflexivity).
  split; [vm_compute; reflexivity |].
  apply (proj1 (accepted_block_clears_pending blockA [tx1] store1 Hok eq_refl eq_refl)).
  apply elem_of_cons. by left.
Defined.

(** ** [handleInventorySync] *)

Lemma addBlock_seen_size (b : Block.t) (st : InventoryManager) :
  size (seenMessages (fst (addBlock b st)))
  = (size (seenMessages st) + (if snd (addBlock b st) then 1 else 0))%nat.
Proof.
  destruct (snd (addBlock b st)) eqn:Hok.
  - rewrite (addBlock_seen b st Hok).
    apply addBlock_accepts in Hok as (Hunseen & _).
    rewrite size_union by set_solver. rewrite size_singleton. lia.
  - rewrite (addBlock_rejected b st Hok). lia.
Qed.

Lemma addTransaction_seen_size (tx : Tx.t) (st : InventoryManager) :
  size (seenMessages (fst (addTransaction tx st)))
  = (size (seenMessages st) + (if snd (addTransaction tx st) then 1 else 0))%nat.
Proof.
  unfold addTransaction.
  destruct (has (seenMessages st) (Tx.id tx)) eqn:Hseen; simpl; [lia |].
  destruct (negb (validateTransaction tx st)); simpl; [lia |].
  apply bool_decide_eq_false in Hseen.
  rewrite size_union by set_solver. rewrite size_singleton. lia.
Qed.

(** A loop that feeds each element to an entry point of the store and
    counts the successes. *)
Lemma counting_loop {A : Type} (enter : A -> InventoryManager -> InventoryManager * bool)
    (op : A -> Op) (items : list A) :
  (forall x s, fst (enter x s) = step s (op x)) ->
  (forall x s, size (seenMessages (fst (enter x s)))
               = (size (seenMessages s) + (if snd (enter x s) then 1 else 0))%nat) ->
  forall acc,
    let result :=
      fold_left (fun acc x =>
                   let '(st', ok) := enter x (fst acc) in
                   (st', if ok then S (snd acc) else snd acc)) items acc in
    fst result = exec (op <$> items) (fst acc)
    /\ (snd acc <= snd result <= snd acc + length items)%nat
    /\ (size (seenMessages (fst result)) + snd acc
        = size (seenMessages (fst acc)) + snd result)%nat.
Proof.
  intros Hstep Hsize.
  induction items as [| x items IH]; intros acc; simpl.
  { repeat split; lia. }
  specialize (Hstep x (fst acc)). specialize (Hsize x (fst acc)).
  destruct (enter x (fst acc)) as [st' ok]. simpl in Hstep, Hsize.
  specialize (IH (st', if ok then S (snd acc) else snd acc)). simpl in IH.
  destruct IH as (Hexec & Hcount & Hseen).
  rewrite <- Hstep. split; [exact Hexec |].
  destruct ok; split; lia.
Qed.

(** X19.  [handleInventorySync] is the history that offers every block of
    the message to [addBlock] and then every transaction to
    [addTransaction]; the two counts it reports are bounded by the lengths
    of the two lists, and together they are the number of identities that
    became seen. *)
Theorem handleInventorySync_history (bs : list Block.t) (txs : list Tx.t)
    (st : InventoryManager) :
  let st' := fst (handleInventorySync bs txs st) in
  let addedBlocks := fst (snd (handleInventorySync bs txs st)) in
  let addedTransactions := snd (snd (handleInventorySync bs txs st)) in
  st' = exec ((AddBlock <$> bs) ++ (AddTransaction <$> txs)) st
  /\ (addedBlocks <= length bs)%nat
  /\ (addedTransactions <= length txs)%nat
  /\ size (seenMessages st')
     = (size (seenMessages st) + addedBlocks + addedTransactions)%nat.
Proof.
  unfold handleInventorySync.
  pose proof (counting_loop addBlock AddBlock bs (fun _ _ => eq_refl) addBlock_seen_size
                (st, O)) as Hblocks.
  simpl in Hblocks.
  destruct (fold_left _ bs (st, O)) as [st1 addedBlocks].
  pose proof (counting_loop addTransaction AddTransaction txs (fun _ _ => eq_refl)
                addTransaction_seen_size (st1, O)) as Htxs.
  simpl in Htxs.
  destruct (fold_left _ txs (st1, O)) as [st2 addedTransactions].
  simpl in *.
  destruct Hblocks as (Hexec1 & Hcount1 & Hseen1).
  destruct Htxs as (Hexec2 & Hcount2 & Hseen2).
  split; [| repeat split; lia].
  unfold exec in *. by rewrite fold_left_app, <- Hexec1, <- Hexec2.
Qed.

(** * Further properties of the periodic synchronisation *)

Lemma syncTransactions_seen (txs : list Tx.t) :
  forall st tx, tx ∈ txs -> Tx.id tx <> EmptyString ->
                Tx.id tx ∈ seenMessages (fold_left syncTransaction txs st).
Proof.
  induction txs as [| tx0 txs IH]; intros st tx Htx Hid.
  { by apply elem_of_nil in Htx. }
  simpl. apply elem_of_cons in Htx as [-> | Hlater]; [| by apply IH].
  assert (Hnow : Tx.id tx0 ∈ seenMessages (syncTransaction st tx0)).
  { unfold syncTransaction. apply truthy_true in Hid. rewrite Hid. simpl.
    destruct (has (seenMessages st) (Tx.id tx0)) eqn:Hseen; simpl.
    - by apply bool_decide_eq_true in Hseen.
    - set_solver. }
  pose proof (syncWithPeer_frame txs [] (syncTransaction st tx0)) as (_ & _ & _ & Hmono).
  by apply Hmono.
Qed.

(** X20.  The periodic synchronisation with a peer never touches a
    balance, the head or a recorded height and floods nothing; on a
    reachable store it keeps every stored block and every pending
    transaction, and every transaction of the peer that has an id counts as
    seen afterwards, whether or not it would have passed
    [validateTransaction]. *)
Theorem sync_leaves_ledger (txs : list Tx.t)
    (answers : list (string * option (list Block.t))) (st : InventoryManager) :
  reachable st ->
  let st' := syncWithPeer txs answers st in
  (forall a, getBalance a st' = getBalance a st)
  /\ blockchainHead st' = blockchainHead st
  /\ blockHeights st' = blockHeights st
  /\ propagated st' = propagated st
  /\ blocks st ⊆ blocks st'
  /\ transactions st ⊆ transactions st'
  /\ (forall tx, tx ∈ txs -> Tx.id tx <> EmptyString -> Tx.id tx ∈ seenMessages st').
Proof.
  intros Hreach st'.
  destruct (syncWithPeer_frame txs answers st) as (Hheights & Hhead & Hbalances & Hseen).
  fold st' in Hheights, Hhead, Hbalances, Hseen.
  destruct (reachable_indexed st Hreach) as (_ & Hstored & _).
  pose proof (reachable_pendingSeen st Hreach) as Hpending.
  split; [by intros a; unfold getBalance; rewrite Hbalances |].
  split; [exact Hhead |]. split; [exact Hheights |].
  split; [| split; [| split]].
  - apply (syncWithPeer_preserves (fun s => propagated s = propagated st)); [| | done].
    + intros s tx Hs. unfold syncTransaction. by destruct (_ && _).
    + intros s b Hs. unfold syncBlock. by destruct (negb _).
  - apply map_subseteq_spec. intros h blk Hblk. by apply syncWithPeer_keeps.
  - apply (syncWithPeer_preserves
             (fun s => pendingSeen s /\ transactions st ⊆ transactions s)); [| | done].
    + intros s tx [Hs Hsub]. unfold syncTransaction, pendingSeen in *.
      destruct (truthy (Tx.id tx)); simpl; [| done].
      destruct (has (seenMessages s) (Tx.id tx)) eqn:Hknown; simpl; [done |].
      apply bool_decide_eq_false in Hknown.
      split; [rewrite dom_insert_L; set_solver |].
      etrans; [exact Hsub |]. apply insert_subseteq, not_elem_of_dom. set_solver.
    + intros s b [Hs Hsub]. unfold syncBlock, pendingSeen in *.
      destruct (negb _); simpl; [| done]. split; [set_solver | done].
  - intros tx Htx Hid. subst st'. unfold syncWithPeer.
    pose proof (syncWithPeer_frame [] answers (fold_left syncTransaction txs st))
      as (_ & _ & _ & Hmono).
    apply Hmono. by apply syncTransactions_seen.
Qed.

Lemma sync_leaves_ledger_witness :
  getBalance "n1" (syncWithPeer [txSelf] [(Block.hash blockX, Some [blockX])] store0)
  = JS.of_Z 100
  /\ Tx.id txSelf ∈ seenMessages
                      (syncWithPeer [txSelf] [(Block.hash blockX, Some [blockX])] store0).
Proof.
  assert (Hreach : reachable store0).
  { repeat apply reachable_exec. apply reachable_new. }
  destruct (sync_leaves_ledger [txSelf] [(Block.hash blockX, Some [blockX])] store0 Hreach)
    as (Hbalance & _ & _ & _ & _ & _ & Hseen).
  split.
  - rewrite Hbalance. vm_compute. reflexivity.
  - apply Hseen; [apply elem_of_cons; by left | discriminate].
Defined.

(** * Properties of the miner *)

(** ** The search for the nonce *)

Lemma mineLoop_some (candidate : Z -> Block.t) (prefix : string) (tries : nat) :
  forall nonce blk,
    mineLoop tries candidate prefix nonce = Some blk ->
    exists n,
      nonce < n <= nonce + Z.of_nat tries
      /\ blk = Block.with_hash (minerHash (candidate n) n) (candidate n)
      /\ String.prefix prefix (minerHash (candidate n) n) = true
      /\ forall m, nonce < m < n ->
                   String.prefix prefix (minerHash (candidate m) m) = false.
Proof.
  induction tries as [| tries IH]; intros nonce blk; cbn [mineLoop]; [discriminate |].
  destruct (String.prefix prefix (minerHash (candidate (nonce + 1)) (nonce + 1)))
    eqn:Hfound.
  - intros [= <-]. exists (nonce + 1).
    split; [lia |]. split; [done |]. split; [done |]. intros m Hm. lia.
  - intros Hlater. destruct (IH _ _ Hlater) as (n & Hn & Hblk & Hmeets & Hfirst).
    exists n. split; [lia |]. split; [done |]. split; [done |].
    intros m Hm. destruct (decide (m = nonce + 1)) as [-> | Hne]; [done |].
    apply Hfirst. lia.
Qed.

Lemma mineLoop_none (candidate : Z -> Block.t) (prefix : string) (tries : nat) :
  forall nonce,
    mineLoop tries candidate prefix nonce = None ->
    forall m, nonce < m <= nonce + Z.of_nat tries ->
              String.prefix prefix (minerHash (candidate m) m) = false.
Proof.
  induction tries as [| tries IH]; intros nonce; cbn [mineLoop]; [intros _ m Hm; lia |].
  destruct (String.prefix prefix (minerHash (candidate (nonce + 1)) (nonce + 1)))
    eqn:Hfound; [discriminate |].
  intros Hlater m Hm. destruct (decide (m = nonce + 1)) as [-> | Hne]; [done |].
  apply (IH _ Hlater). lia.
Qed.

Lemma mineLoop_more (candidate : Z -> Block.t) (prefix : string) (tries more : nat) :
  forall nonce blk,
    mineLoop tries candidate prefix nonce = Some blk ->
    mineLoop (tries + more) candidate prefix nonce = Some blk.
Proof.
  induction tries as [| tries IH]; intros nonce blk; cbn [mineLoop Nat.add];
    [discriminate |].
  destruct (String.prefix prefix (minerHash (candidate (nonce + 1)) (nonce + 1)));
    [done | apply IH].
Qed.

(** X21.  The search returns the block of the first nonce after the start
    whose hash begins with the prefix: no smaller nonce qualifies, trying
    longer gives the same block, and it gives up only when none of the nonces
    it tried qualifies. *)
Theorem mineLoop_first_nonce (candidate : Z -> Block.t) (prefix : string) (tries : nat)
    (nonce : Z) :
  match mineLoop tries candidate prefix nonce with
  | Some blk =>
      exists n,
        nonce < n <= nonce + Z.of_nat tries
        /\ blk = Block.with_hash (minerHash (candidate n) n) (candidate n)
        /\ String.prefix prefix (Block.hash blk) = true
        /\ (forall m, nonce < m < n ->
                      String.prefix prefix (minerHash (candidate m) m) = false)
        /\ forall more, mineLoop (tries + more) candidate prefix nonce = Some blk
  | None =>
      forall m, nonce < m <= nonce + Z.of_nat tries ->
                String.prefix prefix (minerHash (candidate m) m) = false
  end.
Proof.
  destruct (mineLoop tries candidate prefix nonce) as [blk |] eqn:Hloop.
  - destruct (mineLoop_some _ _ _ _ _ Hloop) as (n & Hn & Hblk & Hmeets & Hfirst).
    exists n. split; [done |]. split; [done |]. split; [by rewrite Hblk |].
    split; [done |]. intros more. by apply mineLoop_more.
  - by apply mineLoop_none.
Qed.

(** ** The mined block and the node *)

Lemma num_truthy (z : Z) : truthy (JSON.num z) = true.
Proof.
  unfold JSON.num. destruct (Z.to_int z) as [d | d]; [| reflexivity].
  by destruct d.
Qed.

(** The node recomputes the hash that the miner computed. *)
Lemma candidate_hash (nodeId prevHash timestamp merkleRoot : string) (txs : list Tx.t)
    (n : Z) (h : string) :
  calculateBlockHash
    (Block.with_hash h (candidateBlock nodeId prevHash timestamp merkleRoot txs n))
  = minerHash (candidateBlock nodeId prevHash timestamp merkleRoot txs n) n.
Proof.
  rewrite calculateBlockHash_with_hash. unfold calculateBlockHash, minerHash.
  change (Block.nonce (candidateBlock nodeId prevHash timestamp merkleRoot txs n))
    with (JSON.num n).
  by rewrite num_truthy.
Qed.

Lemma prefix_zeros (d' : nat) :
  forall (d : nat) (s : string),
    (d' <= d)%nat -> String.prefix (zeros d) s = true -> String.prefix (zeros d') s = true.
Proof.
  induction d' as [| d' IH]; intros d s Hle Hprefix; [by destruct s |].
  destruct d as [| d]; [lia |].
  destruct s as [| c s]; cbn [zeros String.prefix] in Hprefix |- *;
    [discriminate Hprefix |].
  destruct (Ascii.ascii_dec "0" c); [| discriminate Hprefix].
  apply (IH d); [lia | done].
Qed.

(** X22.  A block that the search found with difficulty 4 or more is
    accepted by [addBlock] of any node that has not seen its hash and whose
    balances cover its transactions; the node stores it as it was mined. *)
Theorem mined_block_is_accepted (nodeId prevHash timestamp merkleRoot : string)
    (txs : list Tx.t) (difficulty tries : nat) (nonce : Z) (blk : Block.t)
    (st : InventoryManager) :
  mineLoop tries (candidateBlock nodeId prevHash timestamp merkleRoot txs)
    (zeros difficulty) nonce = Some blk ->
  (4 <= difficulty)%nat ->
  Block.hash blk ∉ seenMessages st ->
  validateBlockTransactions txs st = true ->
  snd (addBlock blk st) = true
  /\ Block.hash blk = calculateBlockHash blk
  /\ getBlock (Block.hash blk) (fst (addBlock blk st)) = Some blk.
Proof.
  intros Hloop Hdifficulty Hunseen Hvalid.
  destruct (mineLoop_some _ _ _ _ _ Hloop) as (n & _ & Hblk & Hmeets & _).
  set (candidate := candidateBlock nodeId prevHash timestamp merkleRoot txs n) in *.
  assert (Hcomputed : calculateBlockHash blk = minerHash candidate n).
  { rewrite Hblk. apply candidate_hash. }
  assert (Hhash : Block.hash blk = minerHash candidate n) by (by rewrite Hblk).
  assert (Hid : blockId blk = Block.hash blk).
  { unfold blockId. rewrite Hhash. unfold minerHash. by rewrite sha256_truthy. }
  assert (Hok : snd (addBlock blk st) = true).
  { apply addBlock_accepts. rewrite Hid, Hcomputed, <- Hhash.
    split; [done |]. split; [done |]. right.
    split; [by rewrite Hblk |]. split.
    - rewrite Hhash. by apply (prefix_zeros 4 difficulty).
    - exists txs. split; [by rewrite Hblk | done]. }
  split; [exact Hok |]. split; [congruence |].
  unfold getBlock. rewrite (addBlock_blocks blk st Hok), Hid, lookup_insert_eq.
  by rewrite Hblk.
Qed.

Lemma mined_block_witness :
  snd (addBlock blockA store1) = true
  /\ getBlock (Block.hash blockA) (fst (addBlock blockA store1)) = Some blockA.
Proof.
  assert (Hloop : mineLoop 1
                    (candidateBlock "n1" genesisHash (Block.timestamp blockA)
                       (Block.merkleRoot blockA) [tx1])
                    (zeros 4) 115704 = Some blockA) by (vm_compute; reflexivity).
  assert (Hunseen : Block.hash blockA ∉ seenMessages store1).
  { apply (bool_decide_unpack _). vm_compute. reflexivity. }
  assert (Hvalid : validateBlockTransactions [tx1] store1 = true)
    by (vm_compute; reflexivity).
  destruct (mined_block_is_accepted "n1" genesisHash (Block.timestamp blockA)
              (Block.merkleRoot blockA) [tx1] 4 1 115704 blockA store1
              Hloop ltac:(lia) Hunseen Hvalid) as (Hok & _ & Hstored).
  split; [exact Hok | exact Hstored].
Defined.

(** ** [mineBlock] *)

Lemma limitTransactions_take (pendingTxs : list Tx.t) :
  limitTransactions pendingTxs = take MAX_TX_PER_BLOCK pendingTxs.
Proof.
  unfold limitTransactions.
  destruct (MAX_TX_PER_BLOCK <? length pendingTxs)%nat eqn:Hmany; [done |].
  apply Nat.ltb_ge in Hmany. by rewrite take_ge.
Qed.

Lemma getMerkleRoot_some (tx : Tx.t) (txs : list Tx.t) :
  exists root, getMerkleRoot (tx :: txs) = Some root.
Proof.
  destruct (merkleLoop_root (length (leaves (tx :: txs))) (leaves (tx :: txs)))
    as (root & Hloop & _).
  { unfold leaves. rewrite length_fmap. simpl. lia. }
  exists root. unfold getMerkleRoot. fold (leaves (tx :: txs)).
  change (Nat.eqb (length (tx :: txs)) 0) with false. cbv iota.
  by rewrite Hloop.
Qed.

(** X23.  [mineBlock] mines nothing exactly when it is given no pending
    transaction.  A block it returns carries the first ten pending
    transactions, their number and their Merkle root, the miner as creator
    and the chosen parent, no genesis flag, a positive nonce within the
    tries, and a hash that begins with [difficulty] zeros and is the hash
    [calculateBlockHash] recomputes; while it is still searching, no nonce
    it tried qualifies. *)
Theorem mineBlock_result (nodeId previousHash : string) (blocksData : option (list Block.t))
    (timestamp : string) (difficulty : nat) (pendingTxs : list Tx.t) (tries : nat) :
  match mineBlock nodeId previousHash blocksData timestamp difficulty pendingTxs tries with
  | NothingToMine => pendingTxs = []
  | Mined blk =>
      pendingTxs <> []
      /\ Block.transactions blk = Some (take 10 pendingTxs)
      /\ Block.count blk = Z.of_nat (length (take 10 pendingTxs))
      /\ (1 <= Block.count blk <= 10)
      /\ getMerkleRoot (take 10 pendingTxs) = Some (Block.merkleRoot blk)
      /\ Block.creator blk = nodeId
      /\ Block.previousHash blk = choosePrevHash previousHash blocksData
      /\ Block.isGenesis blk = None
      /\ (exists n, 0 < n <= Z.of_nat tries /\ Block.nonce blk = JSON.num n)
      /\ String.prefix (zeros difficulty) (Block.hash blk) = true
      /\ Block.hash blk = calculateBlockHash blk
  | StillSearching =>
      pendingTxs <> []
      /\ exists merkleRoot,
           getMerkleRoot (take 10 pendingTxs) = Some merkleRoot
           /\ forall n, 0 < n <= Z.of_nat tries ->
                 String.prefix (zeros difficulty)
                   (minerHash
                      (candidateBlock nodeId (choosePrevHash previousHash blocksData)
                         timestamp merkleRoot (take 10 pendingTxs) n) n) = false
  end.
Proof.
  unfold mineBlock. rewrite limitTransactions_take.
  change MAX_TX_PER_BLOCK with 10%nat.
  destruct pendingTxs as [| tx pendingTxs]; [reflexivity |].
  cbn [length Nat.eqb].
  assert (Hne : tx :: pendingTxs <> []) by discriminate.
  assert (Hfirst : take 10 (tx :: pendingTxs) = tx :: take 9 pendingTxs) by reflexivity.
  destruct (getMerkleRoot_some tx (take 9 pendingTxs)) as (root & Hroot).
  rewrite <- Hfirst in Hroot. rewrite Hroot.
  set (txs := take 10 (tx :: pendingTxs)) in *.
  set (prevHash := choosePrevHash previousHash blocksData).
  destruct (mineLoop tries (candidateBlock nodeId prevHash timestamp root txs)
              (zeros difficulty) 0) as [blk |] eqn:Hloop.
  - destruct (mineLoop_some _ _ _ _ _ Hloop) as (n & Hn & Hblk & Hmeets & _).
    assert (Hlen : (1 <= length txs <= 10)%nat).
    { subst txs. rewrite Hfirst. cbn [length]. rewrite length_take. lia. }
    split; [exact Hne |]. rewrite Hblk.
    split; [reflexivity |]. split; [reflexivity |].
    split; [cbn [Block.count Block.with_hash candidateBlock]; lia |].
    split; [reflexivity |]. split; [reflexivity |]. split; [reflexivity |].
    split; [reflexivity |]. split; [exists n; split; [lia | reflexivity] |].
    split; [exact Hmeets |].
    symmetry. apply candidate_hash.
  - split; [exact Hne |]. exists root. split; [reflexivity |].
    intros n Hn. apply (mineLoop_none _ _ _ _ Hloop). lia.
Qed.
